(** * The jwplayer API facade (src/js/api/api.js)

    A shallow embedding of the [Api] class: the handle that owns a
    disposable controller, re-broadcasts the controller's events on its own
    event bus, forwards named calls to whichever controller is current, and
    keeps the per-handle plugin map.

    JavaScript values live in a small universe ([value]); plain records live
    on a heap of ordered field lists, so aliasing and in-place writes are
    visible, and the world keeps the own properties of the other objects
    (functions, handles).  Every effect that crosses the facade (controller
    calls, timer calls, subscriber callbacks, writes to records and
    properties) is appended to a trace, and the behaviour of code outside
    api.js is supplied by an environment [Env].  Computations are functions from a [World] to a [Result]: a
    normal return, a thrown exception, or no behaviour in the model. *)

From Stdlib Require Import ZArith String DecimalString Lia.
From stdpp Require Import base option list strings.

Open Scope string_scope.
Open Scope list_scope.

(** ** Values and the heap *)

Abbreviation loc := nat (only parsing).   (* address of a plain record on the heap *)
Abbreviation aid := nat (only parsing).   (* reference to an [Api] handle *)
Abbreviation cid := nat (only parsing).   (* reference to a controller *)
Abbreviation fid := nat (only parsing).   (* a function whose body the model does not
                                            run: callback, plugin hook, a closure of
                                            a handle used as a value *)

Inductive value :=
| VUndefined
| VNull
| VBool (b : bool)
| VNum (z : Z)
| VStr (s : string)
| VObj (l : loc)
| VFun (f : fid)
| VApi (a : aid)
| VStore (a : aid).   (* the record the constructor stores in a handle's [_events] *)

#[global] Instance value_eq_dec : EqDecision value.
Proof. solve_decision. Defined.

(** A record is its fields in enumeration order. *)
Abbreviation obj := (list (string * value)) (only parsing).

Fixpoint field (k : string) (o : obj) : option value :=
  match o with
  | [] => None
  | (k', v) :: o' => if decide (k = k') then Some v else field k o'
  end.

(** [o[k] = v]: overwrite in place, or append a new field. *)
Fixpoint set_field (k : string) (v : value) (o : obj) : obj :=
  match o with
  | [] => [(k, v)]
  | (k', v') :: o' =>
      if decide (k = k') then (k, v) :: o' else (k', v') :: set_field k v o'
  end.

(** JavaScript truthiness. *)
Definition truthy (v : value) : bool :=
  match v with
  | VUndefined | VNull | VBool false | VStr "" => false
  | VNum z => negb (z =? 0)%Z
  | _ => true
  end.

(** [_.isObject] of utils/underscore: functions and non-null objects. *)
Definition isObject (v : value) : bool :=
  match v with
  | VObj _ | VFun _ | VApi _ | VStore _ => true
  | _ => false
  end.

(** [_.isBoolean] of utils/underscore. *)
Definition isBoolean (v : value) : bool :=
  match v with
  | VBool _ => true
  | _ => false
  end.

Definition TypeError : value := VStr "TypeError".

Definition arg (n : nat) (args : list value) : value := nth n args VUndefined.

(** ** Handles, controllers and the trace *)

(** The DOM element a player is created on; only its id is read. *)
Record Element := { el_id : string }.

#[global] Instance Element_eq_dec : EqDecision Element.
Proof. solve_decision. Defined.

(** An event subscription of the handle's event bus. *)
Record sub := { s_callback : value; s_context : value; s_once : bool }.

#[global] Instance sub_eq_dec : EqDecision sub.
Proof. solve_decision. Defined.

(** The two listeners [setupController] attaches to a controller. *)
Inductive listener :=
| ReadyStamp (api : aid)     (* (event) => { tick('ready'); event.setupTime = ... } *)
| Rebroadcast (api : aid).   (* (type, event) => api.trigger(type, event) *)

#[global] Instance listener_eq_dec : EqDecision listener.
Proof. solve_decision. Defined.

Definition listener_api (h : listener) : aid :=
  match h with ReadyStamp a | Rebroadcast a => a end.

Record CtrlState := {
  c_element : Element;
  c_listeners : list (string * listener)
}.

(** The state behind one handle: the constructor's closure variables
    ([uniqueId], [id], [pluginsMap], [_controller], [element]) and the
    [_events] property. *)
Record ApiState := {
  a_element : Element;
  a_id : string;
  a_uniqueId : nat;
  a_plugins : obj;
  a_events : list (string * sub);
  a_controller : cid
}.

Inductive Event :=
| EvQoe (a : aid) (op : string) (labels : list string)
| EvOn (a : aid) (name : string) (s : sub)
| EvOff (a : aid) (name callback context : value)
| EvAlloc (l : loc) (o : obj)
| EvWrite (l : loc) (k : string) (v : value)
| EvPut (v : value) (k : string) (x : value)
| EvCtrlNew (c : cid) (el : Element)
| EvCtrlOn (c : cid) (name : string) (h : listener)
| EvCtrlOff (c : cid)
| EvCtrlCall (c : cid) (name : string) (args : list value)
| EvInvoke (f : fid) (this : value) (args : list value)
| EvApiCall (a : aid) (name : string) (args : list value)
| EvContained (e : value)
| EvPlugins (op : string) (args : list value).

#[global] Instance Event_eq_dec : EqDecision Event.
Proof. solve_decision. Defined.

Record World := {
  instancesCreated : nat;               (* let instancesCreated = 0 *)
  instances : list aid;                 (* the array exported by api/players *)
  window_jwplayer : option value;       (* None: window.jwplayer is falsy;
                                           Some d: it exists and d is its debug member *)
  heap : list obj;
  props : list (value * obj);           (* own properties of the objects that are
                                           no records of the heap *)
  apis : list ApiState;
  ctrls : list CtrlState;
  trace : list Event
}.

Definition init : World :=
  {| instancesCreated := 0; instances := []; window_jwplayer := None;
     heap := []; props := []; apis := []; ctrls := []; trace := [] |}.

(** ** The environment: code outside api.js *)

Inductive outcome := Returns (v : value) | Throws (e : value).

(** What [controller[name]] evaluates to, as far as api.js can tell. *)
Inductive member := Falsy | Callable | TruthyData.

Record Env := {
  events : string -> string;            (* constants of events/events *)
  states : string -> string;            (* constants of events/states *)
  version : value;                       (* module version *)
  Events : value;                        (* module utils/backbone.events *)
  utils : value;                         (* module utils/helpers *)
  underscore : value;                    (* module utils/underscore *)
  utils_exists : value -> bool;          (* utils.exists *)
  object_prototype : string -> value;    (* members every object inherits *)
  fn_source : fid -> string;             (* String(f) of an external function *)
  closure : aid -> string -> fid;        (* the function objects behind a handle's
                                            callInternal, setup and remove *)
  ctrl_member : cid -> string -> member;
  ctrl_result : cid -> string -> list value -> World -> outcome;
  fn_result : fid -> value -> list value -> World -> outcome;
  qoe_between : aid -> string -> string -> World -> value;
  qoe_dump : aid -> World -> value
}.

(** ** Computations *)

Inductive stuck := OutOfFuel | Dangling.

Inductive Result (A : Type) :=
| Ok (x : A) (w : World)
| Throw (e : value) (w : World)
| Stuck (why : stuck).
Arguments Ok {A}.
Arguments Throw {A}.
Arguments Stuck {A}.

Definition M (A : Type) : Type := World -> Result A.

#[global] Instance M_ret : MRet M := fun A x w => Ok x w.

#[global] Instance M_bind : MBind M := fun A B k m w =>
  match m w with
  | Ok x w' => k x w'
  | Throw e w' => Throw e w'
  | Stuck why => Stuck why
  end.

Definition throw {A} (e : value) : M A := fun w => Throw e w.
Definition stuck_at {A} (why : stuck) : M A := fun _ => Stuck why.
Definition gets {A} (f : World -> A) : M A := fun w => Ok (f w) w.
Definition modify (f : World -> World) : M unit := fun w => Ok tt (f w).

(** The answer of external code, read off the environment. *)
Definition answer (o : World -> outcome) : M value := fun w =>
  match o w with
  | Returns v => Ok v w
  | Throws e => Throw e w
  end.

(** The world a terminated computation leaves behind. *)
Definition world_of {A} (r : Result A) : option World :=
  match r with
  | Ok _ w | Throw _ w => Some w
  | Stuck _ => None
  end.

Definition set_trace (t : list Event) (w : World) : World :=
  {| instancesCreated := instancesCreated w; instances := instances w;
     window_jwplayer := window_jwplayer w; heap := heap w; props := props w; apis := apis w;
     ctrls := ctrls w; trace := t |}.

Definition set_heap (h : list obj) (w : World) : World :=
  {| instancesCreated := instancesCreated w; instances := instances w;
     window_jwplayer := window_jwplayer w; heap := h; props := props w; apis := apis w;
     ctrls := ctrls w; trace := trace w |}.

Definition set_props (t : list (value * obj)) (w : World) : World :=
  {| instancesCreated := instancesCreated w; instances := instances w;
     window_jwplayer := window_jwplayer w; heap := heap w; props := t; apis := apis w;
     ctrls := ctrls w; trace := trace w |}.

Definition set_apis (l : list ApiState) (w : World) : World :=
  {| instancesCreated := instancesCreated w; instances := instances w;
     window_jwplayer := window_jwplayer w; heap := heap w; props := props w; apis := l;
     ctrls := ctrls w; trace := trace w |}.

Definition set_ctrls (l : list CtrlState) (w : World) : World :=
  {| instancesCreated := instancesCreated w; instances := instances w;
     window_jwplayer := window_jwplayer w; heap := heap w; props := props w; apis := apis w;
     ctrls := l; trace := trace w |}.

Definition set_instances (l : list aid) (w : World) : World :=
  {| instancesCreated := instancesCreated w; instances := l;
     window_jwplayer := window_jwplayer w; heap := heap w; props := props w; apis := apis w;
     ctrls := ctrls w; trace := trace w |}.

Definition set_instancesCreated (n : nat) (w : World) : World :=
  {| instancesCreated := n; instances := instances w;
     window_jwplayer := window_jwplayer w; heap := heap w; props := props w; apis := apis w;
     ctrls := ctrls w; trace := trace w |}.

Definition set_window_jwplayer (j : option value) (w : World) : World :=
  {| instancesCreated := instancesCreated w; instances := instances w;
     window_jwplayer := j; heap := heap w; props := props w; apis := apis w;
     ctrls := ctrls w; trace := trace w |}.

Definition log (e : Event) : M unit :=
  modify (fun w => set_trace (trace w ++ [e]) w).

(** Reading the state behind a handle; a reference to a handle that was
    never constructed has no behaviour. *)
Definition api_state (a : aid) : M ApiState := fun w =>
  match apis w !! a with
  | Some s => Ok s w
  | None => Stuck Dangling
  end.

Definition set_a_events (l : list (string * sub)) (s : ApiState) : ApiState :=
  {| a_element := a_element s; a_id := a_id s; a_uniqueId := a_uniqueId s;
     a_plugins := a_plugins s; a_events := l; a_controller := a_controller s |}.

Definition set_a_plugins (p : obj) (s : ApiState) : ApiState :=
  {| a_element := a_element s; a_id := a_id s; a_uniqueId := a_uniqueId s;
     a_plugins := p; a_events := a_events s; a_controller := a_controller s |}.

Definition set_a_controller (c : cid) (s : ApiState) : ApiState :=
  {| a_element := a_element s; a_id := a_id s; a_uniqueId := a_uniqueId s;
     a_plugins := a_plugins s; a_events := a_events s; a_controller := c |}.

Definition update_api (a : aid) (f : ApiState -> ApiState) : M unit :=
  s ← api_state a;
  modify (fun w => set_apis (<[a := f s]> (apis w)) w).

(** *** Objects that are no records of the heap

    A function, a handle and the record behind a handle's [_events] are
    objects too: they can carry properties, and [_.extend] copies them.
    The world keeps the enumerable own properties of each in [props];
    an object that is not listed has none.  What the Events module, which
    is not among the sources, keeps in the record behind [_events] is not
    modelled through these properties: the subscriptions of a handle are
    the list [a_events]. *)

Fixpoint own_of (v : value) (t : list (value * obj)) : obj :=
  match t with
  | [] => []
  | (v', o) :: t' => if decide (v = v') then o else own_of v t'
  end.

Fixpoint put_own (v : value) (o : obj) (t : list (value * obj)) : list (value * obj) :=
  match t with
  | [] => [(v, o)]
  | (v', o') :: t' =>
      if decide (v = v') then (v, o) :: t' else (v', o') :: put_own v o t'
  end.

Definition own_props (w : World) (v : value) : obj := own_of v (props w).

(** *** Numbers as property keys

    Number::toString on the numbers of the model, the integers.  An integer
    stands for the double nearest to it; JavaScript prints the shortest
    decimal that reads back as that double, in full up to 21 digits and in
    exponent notation beyond. *)

Definition decimal (n : Z) : string := NilZero.string_of_int (Z.to_int n).

(** The double nearest to a natural number, ties to even; none when the
    number rounds beyond the largest double. *)
Definition to_double (n : Z) : option Z :=
  if (n <? 2 ^ 53)%Z then Some n
  else
    let e := (Z.log2 n - 52)%Z in
    let q := Z.shiftr n e in
    let r := Z.land n (Z.ones e) in
    let half := Z.shiftl 1 (e - 1) in
    let q' := if (half <? r)%Z || ((r =? half)%Z && Z.odd q) then (q + 1)%Z else q in
    let d := Z.shiftl q' e in
    if (d <? 2 ^ 1024)%Z then Some d else None.

(** The shortest decimal that reads back as the double [v], which has [n]
    digits: the first number of [k], [k + 1], ... significant digits that
    rounds to [v], the one nearer to [v] when two do. *)
Fixpoint shortest (v : Z) (n k tries : nat) : Z :=
  match tries with
  | 0 => v
  | S tries' =>
      let scale := (10 ^ Z.of_nat (n - k))%Z in
      let lo := (v / scale * scale)%Z in
      let hi := (lo + scale)%Z in
      let reads c := bool_decide (to_double c = Some v) in
      if reads lo && reads hi
      then (if (v - lo <? hi - v)%Z then lo
            else if (hi - v <? v - lo)%Z then hi
            else if Z.even (lo / scale) then lo else hi)
      else if reads lo then lo
      else if reads hi then hi
      else shortest v n (S k) tries'
  end.

Fixpoint strip_zeros (s : string) : string :=
  match s with
  | "" => ""
  | String c r =>
      match strip_zeros r with
      | "" => if decide (String c "" = "0") then "" else String c ""
      | r' => String c r'
      end
  end.

Definition natural_to_string (n : Z) : string :=
  match to_double n with
  | None => "Infinity"
  | Some v =>
      let digits := decimal (shortest v (String.length (decimal v)) 1 17) in
      if decide (String.length digits <= 21) then digits
      else
        match strip_zeros digits with
        | String d "" => String d ""
        | String d r => String d ("." ++ r)
        | "" => "0"
        end ++ "e+" ++ decimal (Z.of_nat (String.length digits - 1))
  end.

(** Below 2^53 every integer is a double and is printed digit by digit. *)
Definition number_to_string (z : Z) : string :=
  if (Z.abs z <? 2 ^ 53)%Z then decimal z
  else if (z <? 0)%Z then "-" ++ natural_to_string (- z)
  else natural_to_string z.

(** *** Plain records *)

Definition alloc (o : obj) : M loc :=
  l ← gets (fun w => length (heap w));
  modify (fun w => set_heap (heap w ++ [o]) w);;
  log (EvAlloc l o);;
  mret l.

Definition read_obj (l : loc) : M obj := fun w =>
  match heap w !! l with
  | Some o => Ok o w
  | None => Stuck Dangling
  end.

(** ** Fixtures: a concrete environment and concrete worlds

    Used to evaluate the model on concrete inputs. *)

(** A controller 0 and 1 that expose [setVolume], [setup] and a destroy
    hook; callback 7 throws, every other external function returns. *)
Definition demo_env : Env :=
  {| events := fun k => if decide (k = "JWPLAYER_READY") then "ready" else k;
     states := fun k => k;
     version := VStr "7.12.0";
     Events := VUndefined;
     utils := VUndefined;
     underscore := VUndefined;
     utils_exists := fun v => negb (bool_decide (v = VUndefined));
     object_prototype := fun _ => VUndefined;
     fn_source := fun _ => "function () { [native code] }";
     closure := fun a k => 100 + 3 * a + (if decide (k = "callInternal") then 0
                                          else if decide (k = "setup") then 1 else 2);
     ctrl_member := fun _ k =>
       if bool_decide (k ∈ ["setVolume"; "setup"; "playerDestroy"; "isBeforePlay"])
       then Callable
       else if decide (k = "originalContainer") then TruthyData else Falsy;
     ctrl_result := fun _ k _ _ =>
       if decide (k = "isBeforePlay") then Returns (VBool true) else Returns VUndefined;
     fn_result := fun f _ _ _ =>
       if decide (f = 7) then Throws (VStr "boom") else Returns VUndefined;
     qoe_between := fun _ _ _ _ => VNum 5;
     qoe_dump := fun _ _ => VUndefined |}.

Section Model.

Context (env : Env).

(** ** Property access on values

    A record of the heap is read through its field list, any other object
    through the own properties the world keeps for it; what an object
    inherits is not read as data.  A primitive has no member. *)

(** A value used as a property key.  A record is printed as a plain object
    that has no conversion method of its own. *)
Definition to_key (v : value) : string :=
  match v with
  | VUndefined => "undefined"
  | VNull => "null"
  | VBool true => "true"
  | VBool false => "false"
  | VNum z => number_to_string z
  | VStr s => s
  | VObj _ | VApi _ | VStore _ => "[object Object]"
  | VFun f => fn_source env f
  end.

Definition get_member (v : value) (k : string) : M value :=
  match v with
  | VUndefined | VNull => throw TypeError
  | VObj l => o ← read_obj l; mret (default VUndefined (field k o))
  | VFun _ | VApi _ | VStore _ =>
      gets (fun w => default VUndefined (field k (own_props w v)))
  | _ => mret VUndefined
  end.

(** Accessor properties of a handle that have no setter. *)
Definition api_readonly (k : string) : bool :=
  bool_decide (k ∈ ["id"; "uniqueId"; "plugins"; "_qoe"; "version"; "Events"; "utils"; "_"]).

(** Properties of every function that cannot be written. *)
Definition fn_readonly (k : string) : bool := bool_decide (k ∈ ["name"; "length"]).

(** [v[k] = x] on an object that is no record of the heap. *)
Definition put_member (v : value) (k : string) (x : value) : M unit :=
  modify (fun w => set_props (put_own v (set_field k x (own_props w v)) (props w)) w);;
  log (EvPut v k x).

(** Assignment in strict-mode code: it throws on primitives and on
    properties that cannot be written. *)
Definition set_member (v : value) (k : string) (x : value) : M unit :=
  match v with
  | VObj l =>
      o ← read_obj l;
      modify (fun w => set_heap (<[l := set_field k x o]> (heap w)) w);;
      log (EvWrite l k x)
  | VFun _ => if fn_readonly k then throw TypeError else put_member v k x
  | VApi _ => if api_readonly k then throw TypeError else put_member v k x
  | VStore _ => put_member v k x
  | _ => throw TypeError
  end.

(** The enumerable own properties of an object, in enumeration order: what
    [_.extend({}, v)] copies. *)
Definition own_fields (v : value) : M obj :=
  match v with
  | VObj l => read_obj l
  | VFun _ | VApi _ | VStore _ => gets (fun w => own_props w v)
  | _ => mret []
  end.

(** Calling a value: a function is recorded and answers through the
    environment; anything else is not callable.  The model does not follow
    a callback into its body: a callback that is one of a handle's own
    closures is answered by the environment like any other. *)
Definition call_value (fn this : value) (args : list value) : M value :=
  match fn with
  | VFun f =>
      log (EvInvoke f this args);;
      answer (fn_result env f this args)
  | _ => throw TypeError
  end.

Definition call_member (v : value) (k : string) (args : list value) : M value :=
  fn ← get_member v k;
  call_value fn v args.

(** ** utils/helpers *)

Fixpoint foreach_fields (fn : string -> value -> M unit) (o : obj) : M unit :=
  match o with
  | [] => mret tt
  | (k, v) :: o' => fn k v;; foreach_fields fn o'
  end.

(** Modelled from the spec: [utils.foreach] of utils/helpers, which is not
    among the sources.  "For every key in the options' events map": the
    callback runs on every enumerable own property in enumeration order, those
    of a record and those that a function, a handle or a handle's event store
    carries; a primitive value has nothing to enumerate. *)
Definition utils_foreach (data : value) (fn : string -> value -> M unit) : M unit :=
  match data with
  | VObj l => o ← read_obj l; foreach_fields fn o
  | VFun _ | VApi _ | VStore _ => o ← gets (fun w => own_props w data); foreach_fields fn o
  | _ => mret tt
  end.

(** ** utils/backbone.events *)

Definition once_removed (e : string * sub) (l : list (string * sub)) : list (string * sub) :=
  match list_find (fun x => x = e) l with
  | Some (i, _) => delete i l
  | None => l
  end.

Definition subscribe (once : bool) (a : aid) (name callback context : value) : M value :=
  let s := {| s_callback := callback; s_context := context; s_once := once |} in
  update_api a (fun st => set_a_events (a_events st ++ [(to_key name, s)]) st);;
  log (EvOn a (to_key name) s);;
  mret (VApi a).

(** Modelled from the spec: [Events.on] of utils/backbone.events, which is
    not among the sources.  A subscription is an (event name, callback,
    optional invocation context) triple, stored per handle in registration
    order. *)
Definition Events_on := subscribe false.

(** Modelled from the spec: [Events.once] of utils/backbone.events; the
    subscription "auto-unsubscribes after first invocation". *)
Definition Events_once := subscribe true.

(** Which subscriptions an [off(name, callback, context)] call selects: an
    argument that was not supplied selects everything. *)
Definition off_selects (name callback context : value) (e : string * sub) : bool :=
  (negb (truthy name) || bool_decide (e.1 = to_key name))
  && (negb (truthy callback) || bool_decide (s_callback e.2 = callback))
  && (negb (truthy context) || bool_decide (s_context e.2 = context)).

(** Modelled from the spec: [Events.off] of utils/backbone.events.  "With no
    arguments clears all subscriptions for the handle; with only a name,
    clears all subscriptions under that name; with name+callback, removes
    only matching entries; with a context, removes only entries bound to
    that context." *)
Definition Events_off (a : aid) (name callback context : value) : M value :=
  update_api a (fun st =>
    set_a_events (List.filter (fun e => negb (off_selects name callback context e))
                              (a_events st)) st);;
  log (EvOff a name callback context);;
  mret (VApi a).

Definition invoke_sub (a : aid) (args : list value) (e : string * sub) : M value :=
  (if s_once e.2
   then update_api a (fun st => set_a_events (once_removed e (a_events st)) st)
   else mret tt);;
  call_value (s_callback e.2)
             (if truthy (s_context e.2) then s_context e.2 else VApi a) args.

Fixpoint deliver (a : aid) (args : list value) (subs : list (string * sub)) : M unit :=
  match subs with
  | [] => mret tt
  | e :: rest => invoke_sub a args e;; deliver a args rest
  end.

(** The isolation boundary of [triggerSafe]: an exception is reported and
    never re-thrown. *)
Definition contained {A} (m : M A) : M unit := fun w =>
  match m w with
  | Ok _ w' => Ok tt w'
  | Throw e w' => log (EvContained e) w'
  | Stuck why => Stuck why
  end.

Fixpoint deliverSafe (a : aid) (args : list value) (subs : list (string * sub)) : M unit :=
  match subs with
  | [] => mret tt
  | e :: rest => contained (invoke_sub a args e);; deliverSafe a args rest
  end.

Definition subscribers (name : string) (l : list (string * sub)) : list (string * sub) :=
  List.filter (fun e => bool_decide (e.1 = name)) l.

(** Modelled from the spec: [Events.trigger] of utils/backbone.events.
    "Subscriptions for the literal event name fire in registration order,
    followed by subscriptions registered under the wildcard all name, which
    receive (name, payload)"; callbacks are invoked directly, so an
    exception propagates to the caller. *)
Definition Events_trigger (a : aid) (name payload : value) : M value :=
  st ← api_state a;
  deliver a [payload] (subscribers (to_key name) (a_events st));;
  deliver a [name; payload] (subscribers "all" (a_events st));;
  mret (VApi a).

(** Modelled from the spec: [Events.triggerSafe] of utils/backbone.events.
    Same dispatch order; "an exception raised by one callback is contained
    and does not prevent subsequent callbacks from running". *)
Definition Events_triggerSafe (a : aid) (name payload : value) : M value :=
  st ← api_state a;
  deliverSafe a [payload] (subscribers (to_key name) (a_events st));;
  deliverSafe a [name; payload] (subscribers "all" (a_events st));;
  mret (VApi a).

(** ** The controller, as api.js consumes it *)

Definition ctrl_state (c : cid) : M CtrlState := fun w =>
  match ctrls w !! c with
  | Some s => Ok s w
  | None => Stuck Dangling
  end.

(** [new Controller(element)] *)
Definition Controller_new (element : Element) : M cid :=
  c ← gets (fun w => length (ctrls w));
  modify (fun w => set_ctrls (ctrls w ++ [{| c_element := element; c_listeners := [] |}]) w);;
  log (EvCtrlNew c element);;
  mret c.

(** Modelled from the spec: the controller's [on(eventName, handler)]
    subscription primitive. *)
Definition Controller_on (c : cid) (name : string) (h : listener) : M unit :=
  s ← ctrl_state c;
  modify (fun w => set_ctrls
    (<[c := {| c_element := c_element s; c_listeners := c_listeners s ++ [(name, h)] |}]> (ctrls w)) w);;
  log (EvCtrlOn c name h).

(** Modelled from the spec: the controller's [off()] primitive, which
    detaches all its listeners. *)
Definition Controller_off (c : cid) : M unit :=
  s ← ctrl_state c;
  modify (fun w => set_ctrls
    (<[c := {| c_element := c_element s; c_listeners := [] |}]> (ctrls w)) w);;
  log (EvCtrlOff c).

(** [controller[name].apply(controller, args)] on a callable member. *)
Definition Controller_apply (c : cid) (name : string) (args : list value) : M value :=
  log (EvCtrlCall c name args);;
  answer (ctrl_result env c name args).

(** [controller.name(args)]: calling what is not callable is a TypeError. *)
Definition Controller_invoke (c : cid) (name : string) (args : list value) : M value :=
  match ctrl_member env c name with
  | Callable => Controller_apply c name args
  | _ => throw TypeError
  end.

(** ** The QoE timer, an external collaborator *)

Definition qoe_tick (a : aid) (label : string) : M unit := log (EvQoe a "tick" [label]).
Definition qoe_clear (a : aid) (label : string) : M unit := log (EvQoe a "clear" [label]).
Definition qoe_between_call (a : aid) (l1 l2 : string) : M value :=
  log (EvQoe a "between" [l1; l2]);;
  gets (qoe_between env a l1 l2).
Definition qoe_dump_call (a : aid) : M value :=
  log (EvQoe a "dump" []);;
  gets (qoe_dump env a).

(** ** api.js: the event methods of the handle *)

Definition Api_on (this : aid) (name callback context : value) : M value :=
  Events_on this name callback context.

Definition Api_once (this : aid) (name callback context : value) : M value :=
  Events_once this name callback context.

Definition Api_off (this : aid) (name callback context : value) : M value :=
  Events_off this name callback context.

(** [jwplayer && jwplayer.debug] *)
Definition debug_enabled (w : World) : bool :=
  match window_jwplayer w with
  | Some d => truthy d
  | None => false
  end.

(** The payload [trigger] builds before dispatch: [_.extend({}, args)] for
    an object, a new empty record otherwise, then [args.type = name]. *)
Definition normalize_payload (name args : value) : M value :=
  fields ← (if isObject args then own_fields args else mret []);
  l ← alloc fields;
  set_member (VObj l) "type" name;;
  mret (VObj l).

Definition Api_trigger (this : aid) (name args : value) : M value :=
  args ← normalize_payload name args;
  debug ← gets debug_enabled;
  if (debug : bool)
  then Events_trigger this name args
  else Events_triggerSafe this name args.

Definition Api_triggerSafe (this : aid) (type args : value) : M value :=
  Events_triggerSafe this type args.

(** ** api.js: module-level functions *)

Definition setupController (api : aid) (element : Element) : M cid :=
  controller ← Controller_new element;
  Controller_on controller (events env "JWPLAYER_READY") (ReadyStamp api);;
  Controller_on controller "all" (Rebroadcast api);;
  mret controller.

Definition resetPlayer (api : aid) (controller : cid) : M unit :=
  Api_off api VUndefined VUndefined VUndefined;;
  Controller_off controller;;
  match ctrl_member env controller "playerDestroy" with
  | Falsy => mret tt
  | Callable => Controller_apply controller "playerDestroy" [];; mret tt
  | TruthyData => throw TypeError
  end.

(** [for (let i = instances.length; i--;)]: [i] counts the entries not yet
    visited; the entry visited is [instances[i - 1]]. *)
Fixpoint removePlayer_loop (uniqueId_of : aid -> option nat) (uniqueId : nat)
    (l : list aid) (i : nat) : list aid :=
  match i with
  | 0 => l
  | S i' =>
      match l !! i' with
      | Some x =>
          if decide (uniqueId_of x = Some uniqueId)
          then delete i' l
          else removePlayer_loop uniqueId_of uniqueId l i'
      | None => removePlayer_loop uniqueId_of uniqueId l i'
      end
  end.

Definition removePlayer (api : aid) : M unit :=
  s ← api_state api;
  modify (fun w =>
    set_instances
      (removePlayer_loop (fun x => a_uniqueId <$> apis w !! x) (a_uniqueId s)
                         (instances w) (length (instances w))) w).

(** ** api.js: the constructor and its closures *)

(** The enumerable own properties the constructor gives a handle, in the
    order it assigns them: [_events], [callInternal], [setup] and [remove].
    The accessors of [Object.defineProperties] are not enumerable. *)
Definition own_members (this : aid) : obj :=
  [("_events", VStore this);
   ("callInternal", VFun (closure env this "callInternal"));
   ("setup", VFun (closure env this "setup"));
   ("remove", VFun (closure env this "remove"))].

Definition Api_constructor (element : Element) : M aid :=
  uniqueId ← gets instancesCreated;
  modify (set_instancesCreated (S uniqueId));;
  this ← gets (fun w => length (apis w));
  log (EvQoe this "new" []);;
  qoe_tick this "init";;
  _controller ← setupController this element;
  modify (fun w => set_apis
    (apis w ++ [{| a_element := element; a_id := el_id element; a_uniqueId := uniqueId;
                   a_plugins := []; a_events := []; a_controller := _controller |}]) w);;
  modify (fun w => set_props (put_own (VApi this) (own_members this) (props w)) w);;
  mret this.

Definition Api_callInternal (this : aid) (name : value) (args : list value) : M value :=
  s ← api_state this;
  match ctrl_member env (a_controller s) (to_key name) with
  | Falsy => mret VNull
  | Callable => Controller_apply (a_controller s) (to_key name) args
  | TruthyData => throw TypeError
  end.

(** [setup], with the lookup of [this[evt]] left open: [member this evt] is
    [Some fn] when the property is a function. *)
Definition Api_setup_with (member : aid -> string -> option (list value -> M value))
    (this : aid) (options : value) : M value :=
  qoe_clear this "ready";;
  qoe_tick this "setup";;
  s ← api_state this;
  resetPlayer this (a_controller s);;
  _controller ← setupController this (a_element s);
  update_api this (set_a_controller _controller);;
  evs ← get_member options "events";
  utils_foreach evs (fun evt val =>
    match member this evt with
    | Some fn => log (EvApiCall this evt [val]);; fn [val];; mret tt
    | None => mret tt
    end);;
  set_member options "id" (VStr (a_id s));;
  s' ← api_state this;
  Controller_invoke (a_controller s') "setup" [options; VApi this];;
  mret (VApi this).

Definition Api_remove (this : aid) : M value :=
  removePlayer this;;
  Api_trigger this (VStr "remove") VUndefined;;
  s ← api_state this;
  resetPlayer this (a_controller s);;
  mret (VApi this).

(** ** api.js: the methods of the class *)

Definition Api_qoe (this : aid) : M value :=
  qoeItem ← Api_callInternal this (VStr "getItemQoe") [];
  setupTime ← qoe_between_call this "setup" "ready";
  firstFrame ← call_member qoeItem "getFirstFrame" [];
  player ← qoe_dump_call this;
  item ← call_member qoeItem "dump" [];
  l ← alloc [("setupTime", setupTime); ("firstFrame", firstFrame);
             ("player", player); ("item", item)];
  mret (VObj l).

(** [return this.callInternal(op, ...args)] *)
Definition forward (this : aid) (op : string) (args : list value) : M value :=
  Api_callInternal this (VStr op) args.

(** [this.callInternal(op, ...args); return this] *)
Definition forward_this (this : aid) (op : string) (args : list value) : M value :=
  Api_callInternal this (VStr op) args;; mret (VApi this).

(** [this.callInternal(op, ...args)] with no return statement *)
Definition forward_void (this : aid) (op : string) (args : list value) : M value :=
  Api_callInternal this (VStr op) args;; mret VUndefined.

Definition Api_getAudioTracks this := forward this "getAudioTracks" [].
Definition Api_getBuffer this := forward this "get" [VStr "buffer"].
Definition Api_getCaptions this := forward this "get" [VStr "captions"].
Definition Api_getCaptionsList this := forward this "getCaptionsList" [].
Definition Api_getConfig this := forward this "getConfig" [].
Definition Api_getContainer this := forward this "getContainer" [].
Definition Api_getControls this := forward this "get" [VStr "controls"].
Definition Api_getCurrentAudioTrack this := forward this "getCurrentAudioTrack" [].
Definition Api_getCurrentCaptions this := forward this "getCurrentCaptions" [].
Definition Api_getCurrentQuality this := forward this "getCurrentQuality" [].
Definition Api_getDuration this := forward this "get" [VStr "duration"].
Definition Api_getFullscreen this := forward this "get" [VStr "fullscreen"].
Definition Api_getHeight this := forward this "getHeight" [].
Definition Api_getPlaylistIndex this := forward this "get" [VStr "item"].
Definition Api_getItem this := Api_getPlaylistIndex this.

Definition Api_getItemMeta (this : aid) : M value :=
  meta ← forward this "get" [VStr "itemMeta"];
  if truthy meta then mret meta else l ← alloc []; mret (VObj l).

Definition Api_getMeta this := Api_getItemMeta this.
Definition Api_getMute this := forward this "getMute" [].
Definition Api_getPlaybackRate this := forward this "get" [VStr "playbackRate"].
Definition Api_getPlaylist this := forward this "get" [VStr "playlist"].

Definition Api_getPlaylistItem (this : aid) (index : value) : M value :=
  if negb (utils_exists env index)
  then forward this "get" [VStr "playlistItem"]
  else
    playlist ← Api_getPlaylist this;
    if truthy playlist then get_member playlist (to_key index) else mret VNull.

Definition Api_getPosition this := forward this "get" [VStr "position"].
Definition Api_getProvider this := forward this "getProvider" [].
Definition Api_getQualityLevels this := forward this "getQualityLevels" [].
Definition Api_getSafeRegion this := forward this "getSafeRegion" [].
Definition Api_getState this := forward this "getState" [].
Definition Api_getStretching this := forward this "get" [VStr "stretching"].
Definition Api_getViewable this := forward this "get" [VStr "viewable"].
Definition Api_getVisualQuality this := forward this "getVisualQuality" [].
Definition Api_getVolume this := forward this "get" [VStr "volume"].
Definition Api_getWidth this := forward this "getWidth" [].

Definition Api_setCaptions this captionsStyles := forward_this this "setCaptions" [captionsStyles].
Definition Api_setConfig this options := forward_this this "setConfig" [options].
Definition Api_setControls this toggle := forward_this this "setControls" [toggle].
Definition Api_setCurrentAudioTrack this index := forward_void this "setCurrentAudioTrack" [index].
Definition Api_setCurrentCaptions this index := forward_void this "setCurrentCaptions" [index].
Definition Api_setCurrentQuality this index := forward_void this "setCurrentQuality" [index].
Definition Api_setFullscreen this toggle := forward_this this "setFullscreen" [toggle].
Definition Api_setMute this toggle := forward_this this "setMute" [toggle].
Definition Api_setPlaybackRate this playbackRate := forward_this this "setPlaybackRate" [playbackRate].
Definition Api_setCues this sliderCues := forward_this this "setCues" [sliderCues].
Definition Api_setVolume this level := forward_this this "setVolume" [level].
Definition Api_load this toLoad feedData := forward_this this "load" [toLoad; feedData].

(** [{ reason: 'external' }] *)
Definition external_reason : M value :=
  l ← alloc [("reason", VStr "external")]; mret (VObj l).

Definition Api_play (this : aid) (state meta : value) : M value :=
  reason ← (if isObject state then get_member state "reason" else mret VUndefined);
  let meta := if isObject state && truthy reason then state else meta in
  meta ← (if truthy meta then mret meta else external_reason);
  if decide (state = VBool true) then forward_this this "play" [meta]
  else if decide (state = VBool false) then forward_this this "pause" [meta]
  else
    state ← Api_getState this;
    (if decide (state = VStr (states env "PLAYING")) then forward this "pause" [meta]
     else if decide (state = VStr (states env "BUFFERING")) then forward this "pause" [meta]
     else forward this "play" [meta]);;
    mret (VApi this).

Definition Api_pause (this : aid) (state meta : value) : M value :=
  match state with
  | VBool b => Api_play this (VBool (negb b)) meta
  | _ => Api_play this meta VUndefined
  end.

(** A parameter with the default value [{ reason: 'external' }]. *)
Definition default_meta (meta : value) : M value :=
  match meta with
  | VUndefined => external_reason
  | _ => mret meta
  end.

Definition Api_seek (this : aid) (position meta : value) : M value :=
  meta ← default_meta meta; forward_this this "seek" [position; meta].
Definition Api_playlistItem (this : aid) (index meta : value) : M value :=
  meta ← default_meta meta; forward_this this "playlistItem" [index; meta].
Definition Api_playlistNext (this : aid) (meta : value) : M value :=
  meta ← default_meta meta; forward_this this "playlistNext" [meta].
Definition Api_playlistPrev (this : aid) (meta : value) : M value :=
  meta ← default_meta meta; forward_this this "playlistPrev" [meta].

Definition Api_next this := forward_this this "next" [].
Definition Api_castToggle this := forward_this this "castToggle" [].
Definition Api_createInstream this := forward this "createInstream" [].
Definition Api_skipAd this := forward_this this "skipAd" [].
Definition Api_stop this := forward_this this "stop" [].
Definition Api_resize this width height := forward_this this "resize" [width; height].
Definition Api_addButton this img tooltip callback id btnClass :=
  forward_this this "addButton" [img; tooltip; callback; id; btnClass].
Definition Api_removeButton this id := forward_this this "removeButton" [id].
Definition Api_attachMedia this := forward_this this "attachMedia" [].
Definition Api_detachMedia this := forward_this this "detachMedia" [].

Definition Api_isBeforeComplete (this : aid) : M value :=
  Api_callInternal this (VStr "isBeforeComplete") [];; mret VUndefined.

Definition Api_isBeforePlay (this : aid) : M value :=
  Api_callInternal this (VStr "isBeforePlay") [];; mret VUndefined.

(** What the plugin map finds under [k] beyond its own entries.  The map is
    created as [{}] and inherits from [Object.prototype]; an object or null
    assigned under [__proto__] takes that place. *)
Definition inherited (proto : option value) (k : string) : M value :=
  match proto with
  | Some (VObj l) => o ← read_obj l; mret (default (object_prototype env k) (field k o))
  | Some VNull => mret VUndefined
  | Some (VFun f) =>
      gets (fun w => default (object_prototype env k) (field k (own_props w (VFun f))))
  | Some (VApi a) =>
      gets (fun w => default (object_prototype env k) (field k (own_props w (VApi a))))
  | Some (VStore a) =>
      gets (fun w => default (object_prototype env k) (field k (own_props w (VStore a))))
  | _ => mret (object_prototype env k)
  end.

(** [pluginsMap[name]] *)
Definition Api_getPlugin (this : aid) (name : value) : M value :=
  s ← api_state this;
  let proto := field "__proto__" (a_plugins s) in
  if decide (to_key name = "__proto__") then
    match proto with
    | Some VNull => mret VUndefined
    | Some v => if isObject v then mret v else mret (object_prototype env "__proto__")
    | None => mret (object_prototype env "__proto__")
    end
  else
    match field (to_key name) (a_plugins s) with
    | Some v => mret v
    | None => inherited proto (to_key name)
    end.

Definition Api_addPlugin (this : aid) (name pluginInstance : value) : M value :=
  update_api this (fun s => set_a_plugins (set_field (to_key name) pluginInstance (a_plugins s)) s);;
  addToPlayer ← get_member pluginInstance "addToPlayer";
  Api_on this (VStr "ready") addToPlayer VUndefined;;
  resize ← get_member pluginInstance "resize";
  (if truthy resize
   then resizeHandler ← get_member pluginInstance "resizeHandler";
        Api_on this (VStr "resize") resizeHandler VUndefined;; mret tt
   else mret tt);;
  mret VUndefined.

(** [plugins.registerPlugin] belongs to the module plugins/plugins; the
    facade only hands its arguments over. *)
Definition Api_registerPlugin (this : aid) (name minimumVersion constructor constructor2 : value)
    : M value :=
  log (EvPlugins "registerPlugin" [name; minimumVersion; constructor; constructor2]);;
  mret VUndefined.

Definition Api_getAdBlock (this : aid) : M value := mret (VBool false).
Definition Api_playAd (this : aid) (adBreak : value) : M value := mret VUndefined.
Definition Api_pauseAd (this : aid) (toggle : value) : M value := mret VUndefined.
Definition Api_getRenderingMode (this : aid) : M value := mret (VStr "html5").

Definition Api_dispatchEvent (this : aid) (arguments : list value) : M value :=
  Api_trigger this (arg 0 arguments) (arg 1 arguments);; mret VUndefined.

Definition Api_removeEventListener (this : aid) (arguments : list value) : M value :=
  Api_off this (arg 0 arguments) (arg 1 arguments) (arg 2 arguments);; mret VUndefined.

(** [onX(callback) { this.on(name, callback); }] *)
Definition on_event (this : aid) (name : string) (callback : value) : M value :=
  Api_on this (VStr name) callback VUndefined;; mret VUndefined.

Definition Api_onBuffer this callback := on_event this "buffer" callback.
Definition Api_onPause this callback := on_event this "pause" callback.
Definition Api_onPlay this callback := on_event this "play" callback.
Definition Api_onIdle this callback := on_event this "idle" callback.
Definition Api_onBufferChange this callback := on_event this (events env "JWPLAYER_MEDIA_BUFFER") callback.
Definition Api_onBufferFull this callback := on_event this (events env "JWPLAYER_MEDIA_BUFFER_FULL") callback.
Definition Api_onError this callback := on_event this (events env "JWPLAYER_ERROR") callback.
Definition Api_onSetupError this callback := on_event this (events env "JWPLAYER_SETUP_ERROR") callback.
Definition Api_onFullscreen this callback := on_event this (events env "JWPLAYER_FULLSCREEN") callback.
Definition Api_onMeta this callback := on_event this (events env "JWPLAYER_MEDIA_META") callback.
Definition Api_onMute this callback := on_event this (events env "JWPLAYER_MEDIA_MUTE") callback.
Definition Api_onPlaylist this callback := on_event this (events env "JWPLAYER_PLAYLIST_LOADED") callback.
Definition Api_onPlaylistItem this callback := on_event this (events env "JWPLAYER_PLAYLIST_ITEM") callback.
Definition Api_onPlaylistComplete this callback := on_event this (events env "JWPLAYER_PLAYLIST_COMPLETE") callback.
Definition Api_onReady this callback := on_event this (events env "JWPLAYER_READY") callback.
Definition Api_onResize this callback := on_event this (events env "JWPLAYER_RESIZE") callback.
Definition Api_onComplete this callback := on_event this (events env "JWPLAYER_MEDIA_COMPLETE") callback.
Definition Api_onSeek this callback := on_event this (events env "JWPLAYER_MEDIA_SEEK") callback.
Definition Api_onTime this callback := on_event this (events env "JWPLAYER_MEDIA_TIME") callback.
Definition Api_onVolume this callback := on_event this (events env "JWPLAYER_MEDIA_VOLUME") callback.
Definition Api_onBeforePlay this callback := on_event this (events env "JWPLAYER_MEDIA_BEFOREPLAY") callback.
Definition Api_onBeforeComplete this callback := on_event this (events env "JWPLAYER_MEDIA_BEFORECOMPLETE") callback.
Definition Api_onDisplayClick this callback := on_event this (events env "JWPLAYER_DISPLAY_CLICK") callback.
Definition Api_onControls this callback := on_event this (events env "JWPLAYER_CONTROLS") callback.
Definition Api_onQualityLevels this callback := on_event this (events env "JWPLAYER_MEDIA_LEVELS") callback.
Definition Api_onQualityChange this callback := on_event this (events env "JWPLAYER_MEDIA_LEVEL_CHANGED") callback.
Definition Api_onCaptionsList this callback := on_event this (events env "JWPLAYER_CAPTIONS_LIST") callback.
Definition Api_onCaptionsChange this callback := on_event this (events env "JWPLAYER_CAPTIONS_CHANGED") callback.
Definition Api_onAdError this callback := on_event this (events env "JWPLAYER_AD_ERROR") callback.
Definition Api_onAdClick this callback := on_event this (events env "JWPLAYER_AD_CLICK") callback.
Definition Api_onAdImpression this callback := on_event this (events env "JWPLAYER_AD_IMPRESSION") callback.
Definition Api_onAdTime this callback := on_event this (events env "JWPLAYER_AD_TIME") callback.
Definition Api_onAdComplete this callback := on_event this (events env "JWPLAYER_AD_COMPLETE") callback.
Definition Api_onAdCompanions this callback := on_event this (events env "JWPLAYER_AD_COMPANIONS") callback.
Definition Api_onAdSkipped this callback := on_event this (events env "JWPLAYER_AD_SKIPPED") callback.
Definition Api_onAdPlay this callback := on_event this (events env "JWPLAYER_AD_PLAY") callback.
Definition Api_onAdPause this callback := on_event this (events env "JWPLAYER_AD_PAUSE") callback.
Definition Api_onAdMeta this callback := on_event this (events env "JWPLAYER_AD_META") callback.
Definition Api_onCast this callback := on_event this (events env "JWPLAYER_CAST_SESSION") callback.
Definition Api_onAudioTrackChange this callback := on_event this (events env "JWPLAYER_AUDIO_TRACK_CHANGED") callback.
Definition Api_onAudioTracks this callback := on_event this (events env "JWPLAYER_AUDIO_TRACKS") callback.

(** ** Looking a method up by name: [this[evt]]

    [Api_prototype] lists the methods of the class in source order; each is
    applied to the argument list of the call. *)

Definition Api_prototype : list (string * (aid -> list value -> M value)) :=
  [ ("on", fun this args => Api_on this (arg 0 args) (arg 1 args) (arg 2 args));
    ("once", fun this args => Api_once this (arg 0 args) (arg 1 args) (arg 2 args));
    ("off", fun this args => Api_off this (arg 0 args) (arg 1 args) (arg 2 args));
    ("trigger", fun this args => Api_trigger this (arg 0 args) (arg 1 args));
    ("triggerSafe", fun this args => Api_triggerSafe this (arg 0 args) (arg 1 args));
    ("qoe", fun this _ => Api_qoe this);
    ("getAudioTracks", fun this _ => Api_getAudioTracks this);
    ("getBuffer", fun this _ => Api_getBuffer this);
    ("getCaptions", fun this _ => Api_getCaptions this);
    ("getCaptionsList", fun this _ => Api_getCaptionsList this);
    ("getConfig", fun this _ => Api_getConfig this);
    ("getContainer", fun this _ => Api_getContainer this);
    ("getControls", fun this _ => Api_getControls this);
    ("getCurrentAudioTrack", fun this _ => Api_getCurrentAudioTrack this);
    ("getCurrentCaptions", fun this _ => Api_getCurrentCaptions this);
    ("getCurrentQuality", fun this _ => Api_getCurrentQuality this);
    ("getDuration", fun this _ => Api_getDuration this);
    ("getFullscreen", fun this _ => Api_getFullscreen this);
    ("getHeight", fun this _ => Api_getHeight this);
    ("getItem", fun this _ => Api_getItem this);
    ("getItemMeta", fun this _ => Api_getItemMeta this);
    ("getMeta", fun this _ => Api_getMeta this);
    ("getMute", fun this _ => Api_getMute this);
    ("getPlaybackRate", fun this _ => Api_getPlaybackRate this);
    ("getPlaylist", fun this _ => Api_getPlaylist this);
    ("getPlaylistIndex", fun this _ => Api_getPlaylistIndex this);
    ("getPlaylistItem", fun this args => Api_getPlaylistItem this (arg 0 args));
    ("getPosition", fun this _ => Api_getPosition this);
    ("getProvider", fun this _ => Api_getProvider this);
    ("getQualityLevels", fun this _ => Api_getQualityLevels this);
    ("getSafeRegion", fun this _ => Api_getSafeRegion this);
    ("getState", fun this _ => Api_getState this);
    ("getStretching", fun this _ => Api_getStretching this);
    ("getViewable", fun this _ => Api_getViewable this);
    ("getVisualQuality", fun this _ => Api_getVisualQuality this);
    ("getVolume", fun this _ => Api_getVolume this);
    ("getWidth", fun this _ => Api_getWidth this);
    ("setCaptions", fun this args => Api_setCaptions this (arg 0 args));
    ("setConfig", fun this args => Api_setConfig this (arg 0 args));
    ("setControls", fun this args => Api_setControls this (arg 0 args));
    ("setCurrentAudioTrack", fun this args => Api_setCurrentAudioTrack this (arg 0 args));
    ("setCurrentCaptions", fun this args => Api_setCurrentCaptions this (arg 0 args));
    ("setCurrentQuality", fun this args => Api_setCurrentQuality this (arg 0 args));
    ("setFullscreen", fun this args => Api_setFullscreen this (arg 0 args));
    ("setMute", fun this args => Api_setMute this (arg 0 args));
    ("setPlaybackRate", fun this args => Api_setPlaybackRate this (arg 0 args));
    ("setCues", fun this args => Api_setCues this (arg 0 args));
    ("setVolume", fun this args => Api_setVolume this (arg 0 args));
    ("load", fun this args => Api_load this (arg 0 args) (arg 1 args));
    ("play", fun this args => Api_play this (arg 0 args) (arg 1 args));
    ("pause", fun this args => Api_pause this (arg 0 args) (arg 1 args));
    ("seek", fun this args => Api_seek this (arg 0 args) (arg 1 args));
    ("playlistItem", fun this args => Api_playlistItem this (arg 0 args) (arg 1 args));
    ("playlistNext", fun this args => Api_playlistNext this (arg 0 args));
    ("playlistPrev", fun this args => Api_playlistPrev this (arg 0 args));
    ("next", fun this _ => Api_next this);
    ("castToggle", fun this _ => Api_castToggle this);
    ("createInstream", fun this _ => Api_createInstream this);
    ("skipAd", fun this _ => Api_skipAd this);
    ("stop", fun this _ => Api_stop this);
    ("resize", fun this args => Api_resize this (arg 0 args) (arg 1 args));
    ("addButton", fun this args =>
       Api_addButton this (arg 0 args) (arg 1 args) (arg 2 args) (arg 3 args) (arg 4 args));
    ("removeButton", fun this args => Api_removeButton this (arg 0 args));
    ("attachMedia", fun this _ => Api_attachMedia this);
    ("detachMedia", fun this _ => Api_detachMedia this);
    ("isBeforeComplete", fun this _ => Api_isBeforeComplete this);
    ("isBeforePlay", fun this _ => Api_isBeforePlay this);
    ("getPlugin", fun this args => Api_getPlugin this (arg 0 args));
    ("addPlugin", fun this args => Api_addPlugin this (arg 0 args) (arg 1 args));
    ("registerPlugin", fun this args =>
       Api_registerPlugin this (arg 0 args) (arg 1 args) (arg 2 args) (arg 3 args));
    ("getAdBlock", fun this _ => Api_getAdBlock this);
    ("playAd", fun this args => Api_playAd this (arg 0 args));
    ("pauseAd", fun this args => Api_pauseAd this (arg 0 args));
    ("getRenderingMode", fun this _ => Api_getRenderingMode this);
    ("dispatchEvent", fun this args => Api_dispatchEvent this args);
    ("removeEventListener", fun this args => Api_removeEventListener this args);
    ("onBuffer", fun this args => Api_onBuffer this (arg 0 args));
    ("onPause", fun this args => Api_onPause this (arg 0 args));
    ("onPlay", fun this args => Api_onPlay this (arg 0 args));
    ("onIdle", fun this args => Api_onIdle this (arg 0 args));
    ("onBufferChange", fun this args => Api_onBufferChange this (arg 0 args));
    ("onBufferFull", fun this args => Api_onBufferFull this (arg 0 args));
    ("onError", fun this args => Api_onError this (arg 0 args));
    ("onSetupError", fun this args => Api_onSetupError this (arg 0 args));
    ("onFullscreen", fun this args => Api_onFullscreen this (arg 0 args));
    ("onMeta", fun this args => Api_onMeta this (arg 0 args));
    ("onMute", fun this args => Api_onMute this (arg 0 args));
    ("onPlaylist", fun this args => Api_onPlaylist this (arg 0 args));
    ("onPlaylistItem", fun this args => Api_onPlaylistItem this (arg 0 args));
    ("onPlaylistComplete", fun this args => Api_onPlaylistComplete this (arg 0 args));
    ("onReady", fun this args => Api_onReady this (arg 0 args));
    ("onResize", fun this args => Api_onResize this (arg 0 args));
    ("onComplete", fun this args => Api_onComplete this (arg 0 args));
    ("onSeek", fun this args => Api_onSeek this (arg 0 args));
    ("onTime", fun this args => Api_onTime this (arg 0 args));
    ("onVolume", fun this args => Api_onVolume this (arg 0 args));
    ("onBeforePlay", fun this args => Api_onBeforePlay this (arg 0 args));
    ("onBeforeComplete", fun this args => Api_onBeforeComplete this (arg 0 args));
    ("onDisplayClick", fun this args => Api_onDisplayClick this (arg 0 args));
    ("onControls", fun this args => Api_onControls this (arg 0 args));
    ("onQualityLevels", fun this args => Api_onQualityLevels this (arg 0 args));
    ("onQualityChange", fun this args => Api_onQualityChange this (arg 0 args));
    ("onCaptionsList", fun this args => Api_onCaptionsList this (arg 0 args));
    ("onCaptionsChange", fun this args => Api_onCaptionsChange this (arg 0 args));
    ("onAdError", fun this args => Api_onAdError this (arg 0 args));
    ("onAdClick", fun this args => Api_onAdClick this (arg 0 args));
    ("onAdImpression", fun this args => Api_onAdImpression this (arg 0 args));
    ("onAdTime", fun this args => Api_onAdTime this (arg 0 args));
    ("onAdComplete", fun this args => Api_onAdComplete this (arg 0 args));
    ("onAdCompanions", fun this args => Api_onAdCompanions this (arg 0 args));
    ("onAdSkipped", fun this args => Api_onAdSkipped this (arg 0 args));
    ("onAdPlay", fun this args => Api_onAdPlay this (arg 0 args));
    ("onAdPause", fun this args => Api_onAdPause this (arg 0 args));
    ("onAdMeta", fun this args => Api_onAdMeta this (arg 0 args));
    ("onCast", fun this args => Api_onCast this (arg 0 args));
    ("onAudioTrackChange", fun this args => Api_onAudioTrackChange this (arg 0 args));
    ("onAudioTracks", fun this args => Api_onAudioTracks this (arg 0 args)) ].

Fixpoint assoc {A} (k : string) (l : list (string * A)) : option A :=
  match l with
  | [] => None
  | (k', x) :: l' => if decide (k = k') then Some x else assoc k l'
  end.

(** A property whose value is not one of the class's own functions: it is
    callable exactly when it holds an external function. *)
Definition callable_value (this : aid) (v : value) : option (list value -> M value) :=
  match v with
  | VFun f => Some (call_value (VFun f) (VApi this))
  | _ => None
  end.

(** [this[name]], when it is a function, as the call [fn.call(this, ...args)].
    Own properties of the instance come first, then the class, then what
    every object inherits.  The fuel bounds the nesting of [setup] inside
    [setup], the only recursion among the methods. *)
Fixpoint Api_member (fuel : nat) (this : aid) (name : string)
    : option (list value -> M value) :=
  if decide (name = "callInternal") then
    Some (fun args => Api_callInternal this (arg 0 args) (tail args))
  else if decide (name = "setup") then
    Some (fun args =>
      match fuel with
      | 0 => stuck_at OutOfFuel
      | S fuel' => Api_setup_with (Api_member fuel') this (arg 0 args)
      end)
  else if decide (name = "remove") then
    Some (fun _ => Api_remove this)
  else if bool_decide (name ∈ ["_events"; "id"; "uniqueId"; "plugins"; "_qoe"]) then
    None
  else
    match assoc name Api_prototype with
    | Some method => Some (method this)
    | None =>
        if decide (name = "constructor") then Some (fun _ => throw TypeError)
        else if decide (name = "version") then callable_value this (version env)
        else if decide (name = "Events") then callable_value this (Events env)
        else if decide (name = "utils") then callable_value this (utils env)
        else if decide (name = "_") then callable_value this (underscore env)
        else callable_value this (object_prototype env name)
    end.

Definition Api_setup (fuel : nat) (this : aid) (options : value) : M value :=
  Api_setup_with (Api_member fuel) this options.

(** ** What happens around the facade *)

(** Modelled from the spec: the registry's [register(handle)], which
    "appends to the process-wide sequence"; the caller of the constructor
    does it, outside api.js. *)
Definition register (api : aid) : M unit :=
  modify (fun w => set_instances (instances w ++ [api]) w).

(** The bodies of the two listeners of [setupController]. *)
Definition run_listener (h : listener) (args : list value) : M unit :=
  match h with
  | ReadyStamp api =>
      qoe_tick api "ready";;
      setupTime ← qoe_between_call api "setup" "ready";
      set_member (arg 0 args) "setupTime" setupTime
  | Rebroadcast api =>
      Api_trigger api (arg 0 args) (arg 1 args);; mret tt
  end.

Fixpoint run_listeners (args : list value) (l : list (string * listener)) : M unit :=
  match l with
  | [] => mret tt
  | (_, h) :: l' => run_listener h args;; run_listeners args l'
  end.

(** Modelled from the spec: the controller emitting an event on its own
    bus, with the "wildcard all channel": listeners under the event's name
    receive the payload, listeners under all receive (name, payload). *)
Definition Controller_trigger (c : cid) (type event : value) : M unit :=
  s ← ctrl_state c;
  run_listeners [event] (List.filter (fun e => bool_decide (e.1 = to_key type)) (c_listeners s));;
  run_listeners [type; event] (List.filter (fun e => bool_decide (e.1 = "all")) (c_listeners s)).

(** Setting the process-wide debug flag, [jwplayer.debug = d]. *)
Definition set_debug (d : value) : M unit :=
  modify (set_window_jwplayer (Some d)).

End Model.

(** ** Fixtures: concrete worlds *)

Definition world_after {A} (m : M A) (w : World) : World :=
  match m w with
  | Ok _ w' | Throw _ w' => w'
  | Stuck _ => w
  end.

(** One handle, constructed on the element with id player. *)
Definition demo_world : World :=
  world_after (Api_constructor demo_env {| el_id := "player" |}) init.

Definition demo_handle : ApiState :=
  {| a_element := {| el_id := "player" |}; a_id := "player"; a_uniqueId := 0;
     a_plugins := []; a_events := []; a_controller := 0 |}.

(** The same handle with the record [{a: 1}] on the heap and three
    subscribers of "x": callback 1, callback 7 (which throws), callback 2. *)
Definition demo_world_subscribed : World :=
  world_after
    (alloc [("a", VNum 1)];;
     Api_on demo_env 0 (VStr "x") (VFun 1) VUndefined;;
     Api_on demo_env 0 (VStr "x") (VFun 7) VUndefined;;
     Api_on demo_env 0 (VStr "x") (VFun 2) VUndefined)
    demo_world.

(** The same with the debug flag set. *)
Definition demo_world_debug : World :=
  world_after (set_debug (VBool true)) demo_world_subscribed.

(** Handles A and B constructed and registered in that order. *)
Definition two_players (env : Env) (elA elB : Element) : World :=
  world_after
    (A ← Api_constructor env elA; register A;;
     B ← Api_constructor env elB; register B)
    init.

(** A plugin instance with an [addToPlayer] hook (callback 3) and a resize
    capability handled by callback 4, and one without the capability. *)
Definition demo_world_plugins : World :=
  world_after
    (alloc [("addToPlayer", VFun 3); ("resize", VFun 5); ("resizeHandler", VFun 4)];;
     alloc [("addToPlayer", VFun 6)])
    demo_world.

(** Three constructions with a removal in between. *)
Definition player_a : World :=
  world_after (Api_constructor demo_env {| el_id := "a" |}) init.
Definition players_a_b : World :=
  world_after (Api_constructor demo_env {| el_id := "b" |}) player_a.
Definition a_removed : World :=
  world_after (Api_remove demo_env 0) players_a_b.
Definition three_players : World :=
  world_after (Api_constructor demo_env {| el_id := "c" |}) a_removed.

(** The options [{events: {setVolume: 50}}]: record 1, with the events map
    as record 0. *)
Definition demo_world_options : World :=
  world_after (alloc [("setVolume", VNum 50)];; alloc [("events", VObj 0)]) demo_world.

(** After [setup({events: {setVolume: 50}})], once and twice. *)
Definition demo_world_setup : World :=
  world_after (Api_setup demo_env 0 0 (VObj 1)) demo_world_options.

Definition demo_world_setup_twice : World :=
  world_after (Api_setup demo_env 0 0 (VObj 1)) demo_world_setup.

(** The options [{events: {remove: null}}]: record 1, with the events map
    as record 0; and the world after [setup] with these options. *)
Definition demo_world_remove_binding : World :=
  world_after (alloc [("remove", VNull)];; alloc [("events", VObj 0)]) demo_world.

Definition demo_world_setup_remove : World :=
  world_after (Api_setup demo_env 0 0 (VObj 1)) demo_world_remove_binding.

(** A controller that holds a playlist (record 0) and is idle: it answers
    [getState], [get], [play] and [pause], and has no item QoE. *)
Definition player_env : Env :=
  {| events := fun k => if decide (k = "JWPLAYER_READY") then "ready" else k;
     states := fun k => if decide (k = "PLAYING") then "playing"
                        else if decide (k = "BUFFERING") then "buffering" else k;
     version := VStr "7.12.0";
     Events := VUndefined;
     utils := VUndefined;
     underscore := VUndefined;
     utils_exists := fun v => negb (bool_decide (v = VUndefined \/ v = VNull));
     object_prototype := fun _ => VUndefined;
     fn_source := fun _ => "function () { [native code] }";
     closure := fun a k => 100 + 3 * a + (if decide (k = "callInternal") then 0
                                          else if decide (k = "setup") then 1 else 2);
     ctrl_member := fun _ k =>
       if bool_decide (k ∈ ["get"; "getState"; "play"; "pause"; "setup"; "playerDestroy"])
       then Callable else Falsy;
     ctrl_result := fun _ k args _ =>
       if decide (k = "getState") then Returns (VStr "idle")
       else if decide (k = "get")
            then (if decide (args = [VStr "playlist"]) then Returns (VObj 0)
                  else Returns VUndefined)
            else Returns VUndefined;
     fn_result := fun _ _ _ _ => Returns VUndefined;
     qoe_between := fun _ _ _ _ => VNum 5;
     qoe_dump := fun _ _ => VUndefined |}.

(** One handle on that controller, and the playlist of two items. *)
Definition player_world : World :=
  world_after (alloc [("0", VStr "first.mp4"); ("1", VStr "second.mp4")])
    (world_after (Api_constructor player_env {| el_id := "player" |}) init).

(** The handle of [demo_world_plugins] with the first plugin added under
    the name foo, and the options [{}] as record 2. *)
Definition demo_world_plugged : World :=
  world_after (Api_addPlugin demo_env 0 (VStr "foo") (VObj 0);; alloc []) demo_world_plugins.

Definition demo_handle_plugged : ApiState :=
  {| a_element := {| el_id := "player" |}; a_id := "player"; a_uniqueId := 0;
     a_plugins := [("foo", VObj 0)];
     a_events :=
       [("ready", {| s_callback := VFun 3; s_context := VUndefined; s_once := false |});
        ("resize", {| s_callback := VFun 4; s_context := VUndefined; s_once := false |})];
     a_controller := 0 |}.

(** The handle of [demo_world_subscribed], with its three subscribers, and
    the options [{events: {onReady: f9}}] as record 2 (the events map is
    record 1). *)
Definition demo_world_binding : World :=
  world_after (alloc [("onReady", VFun 9)];; alloc [("events", VObj 1)])
    demo_world_subscribed.

Definition demo_handle_subscribed : ApiState :=
  {| a_element := {| el_id := "player" |}; a_id := "player"; a_uniqueId := 0;
     a_plugins := [];
     a_events :=
       [("x", {| s_callback := VFun 1; s_context := VUndefined; s_once := false |});
        ("x", {| s_callback := VFun 7; s_context := VUndefined; s_once := false |});
        ("x", {| s_callback := VFun 2; s_context := VUndefined; s_once := false |})];
     a_controller := 0 |}.

(** A registered handle, the debug flag set, and a subscriber of "remove"
    that throws. *)
Definition demo_world_registered : World := world_after (register 0) demo_world.
Definition demo_world_registered_debug : World :=
  world_after (set_debug (VBool true)) demo_world_registered.
Definition demo_world_remove_throws : World :=
  world_after (Api_on demo_env 0 (VStr "remove") (VFun 7) VUndefined)
    demo_world_registered_debug.

(** A controller that has no operation at all, as before its setup. *)
Definition bare_env : Env :=
  {| events := fun k => if decide (k = "JWPLAYER_READY") then "ready" else k;
     states := fun k => k;
     version := VStr "7.12.0";
     Events := VUndefined;
     utils := VUndefined;
     underscore := VUndefined;
     utils_exists := fun v => negb (bool_decide (v = VUndefined \/ v = VNull));
     object_prototype := fun _ => VUndefined;
     fn_source := fun _ => "function () { [native code] }";
     closure := fun a k => 100 + 3 * a + (if decide (k = "callInternal") then 0
                                          else if decide (k = "setup") then 1 else 2);
     ctrl_member := fun _ _ => Falsy;
     ctrl_result := fun _ _ _ _ => Returns VUndefined;
     fn_result := fun _ _ _ _ => Returns VUndefined;
     qoe_between := fun _ _ _ _ => VNum 5;
     qoe_dump := fun _ _ => VUndefined |}.

Definition bare_world : World :=
  world_after (Api_constructor bare_env {| el_id := "player" |}) init.

(** A controller whose destroy hook raises. *)
Definition failing_env : Env :=
  {| events := fun k => if decide (k = "JWPLAYER_READY") then "ready" else k;
     states := fun k => k;
     version := VStr "7.12.0";
     Events := VUndefined;
     utils := VUndefined;
     underscore := VUndefined;
     utils_exists := fun v => negb (bool_decide (v = VUndefined \/ v = VNull));
     object_prototype := fun _ => VUndefined;
     fn_source := fun _ => "function () { [native code] }";
     closure := fun a k => 100 + 3 * a + (if decide (k = "callInternal") then 0
                                          else if decide (k = "setup") then 1 else 2);
     ctrl_member := fun _ k =>
       if bool_decide (k ∈ ["setup"; "playerDestroy"]) then Callable else Falsy;
     ctrl_result := fun _ k _ _ =>
       if decide (k = "playerDestroy") then Throws (VStr "destroy failed")
       else Returns VUndefined;
     fn_result := fun _ _ _ _ => Returns VUndefined;
     qoe_between := fun _ _ _ _ => VNum 5;
     qoe_dump := fun _ _ => VUndefined |}.

(** One handle on that controller, and the options [{}] as record 0. *)
Definition failing_world : World :=
  world_after (alloc [])
    (world_after (Api_constructor failing_env {| el_id := "player" |}) init).

(** ** Vocabulary of the statements *)

(** The computation preserves [R] whenever it terminates, and when the model
    has no behaviour for it the reason satisfies [S]. *)
Definition preserves {A} (S : stuck -> Prop) (R : World -> World -> Prop) (m : M A) : Prop :=
  forall w, match m w with
            | Ok _ w' | Throw _ w' => R w w'
            | Stuck why => S why
            end.

(** Events a method may emit without touching the wiring of controllers:
    no controller is created, wired or unwired, and calls go to controller
    [c] only. *)
Definition calm (c : option cid) (e : Event) : Prop :=
  match e with
  | EvCtrlNew _ _ | EvCtrlOn _ _ _ | EvCtrlOff _ => False
  | EvCtrlCall c' _ _ => c = Some c'
  | _ => True
  end.

(** The names of an object's own properties, in enumeration order. *)
Definition own_keys (w : World) (v : value) : list string := (own_props w v).*1.

(** The footprint of every method of handle [a] other than [setup] and
    [remove]: the registry, the counter, the debug flag and all controllers
    are left alone, handles keep their identity and their controller, only
    [a] itself may change, no object loses a property, and the trace grows
    by calm events. *)
Record quiet (a : aid) (w w' : World) : Prop := {
  q_counter : instancesCreated w' = instancesCreated w;
  q_instances : instances w' = instances w;
  q_window : window_jwplayer w' = window_jwplayer w;
  q_ctrls : ctrls w' = ctrls w;
  q_heap : length (heap w) <= length (heap w');
  q_props : forall v, own_keys w v `prefix_of` own_keys w' v;
  q_apis : length (apis w') = length (apis w);
  q_fixed : forall b s, apis w !! b = Some s ->
      exists s', apis w' !! b = Some s'
        /\ a_element s' = a_element s /\ a_id s' = a_id s
        /\ a_uniqueId s' = a_uniqueId s /\ a_controller s' = a_controller s
        /\ (b <> a -> s' = s);
  q_trace : exists d, trace w' = trace w ++ d
      /\ Forall (calm (a_controller <$> apis w !! a)) d
}.

(** The footprint as a property of computations; a quiet method never runs
    out of fuel. *)
Definition Quiet {A} (a : aid) (m : M A) : Prop :=
  preserves (fun why => why = Dangling) (quiet a) m.

(** A change to the mutable fields of handle [a]. *)
Definition keeps_identity (f : ApiState -> ApiState) : Prop :=
  forall s, a_element (f s) = a_element s /\ a_id (f s) = a_id s
            /\ a_uniqueId (f s) = a_uniqueId s /\ a_controller (f s) = a_controller s.

(** The call a subscription receives when it fires. *)
Definition sub_call (a : aid) (args : list value) (e : string * sub) : option Event :=
  match s_callback e.2 with
  | VFun f => Some (EvInvoke f (if truthy (s_context e.2) then s_context e.2 else VApi a) args)
  | _ => None
  end.

Definition call_of (a : aid) (args : list value) (e : string * sub) : list Event :=
  match sub_call a args e with
  | Some ev => [ev]
  | None => []
  end.

Definition calls_of (a : aid) (args : list value) (subs : list (string * sub)) : list Event :=
  flat_map (call_of a args) subs.

Definition is_invoke (e : Event) : bool :=
  match e with
  | EvInvoke _ _ _ => true
  | _ => false
  end.

(** The subscriber calls recorded in a stretch of trace. *)
Definition invocations (d : list Event) : list Event := List.filter is_invoke d.

(** What a stretch of trace may contain while an event is being delivered. *)
Definition is_delivery (e : Event) : bool :=
  match e with
  | EvInvoke _ _ _ | EvContained _ => true
  | _ => false
  end.

(** What no operation on an existing world changes: the counter is only
    advanced by the constructor, handles are never discarded and keep their
    element, id and uniqueId, controllers and records are never discarded,
    no object loses a property, and the trace only grows. *)
Record stable (w w' : World) : Prop := {
  st_counter : instancesCreated w' = instancesCreated w;
  st_apis : length (apis w') = length (apis w);
  st_fixed : forall b s, apis w !! b = Some s ->
      exists s', apis w' !! b = Some s'
        /\ a_element s' = a_element s /\ a_id s' = a_id s
        /\ a_uniqueId s' = a_uniqueId s;
  st_ctrls : length (ctrls w) <= length (ctrls w');
  st_heap : length (heap w) <= length (heap w');
  st_props : forall v, own_keys w v `prefix_of` own_keys w' v;
  st_trace : exists d, trace w' = trace w ++ d
}.

Definition Stable {A} (m : M A) : Prop := preserves (fun _ => True) stable m.

(** A subscription made with [on], which stays until it is removed. *)
Definition persistent (e : string * sub) : bool := negb (s_once e.2).

(** The fields [_.extend({}, args)] copies: those of a record of the heap,
    or the own properties the world keeps for another object. *)
Definition payload_fields (w : World) (args : value) : obj :=
  match args with
  | VObj l => default [] (heap w !! l)
  | VFun _ | VApi _ | VStore _ => own_props w args
  | _ => []
  end.

(** Everything but the handles and the trace is the same. *)
Definition same_outside (w w' : World) : Prop :=
  instancesCreated w' = instancesCreated w /\ instances w' = instances w
  /\ window_jwplayer w' = window_jwplayer w /\ heap w' = heap w /\ ctrls w' = ctrls w.

(** What delivering an event to the subscribers of handle [a] does to the
    world: only the subscription list of [a] and the trace change, persistent
    subscriptions stay in place, and the trace grows by [d]. *)
Definition delivered (a : aid) (s : ApiState) (w w' : World) (d : list Event) : Prop :=
  same_outside w w'
  /\ trace w' = trace w ++ d
  /\ Forall (fun e => is_delivery e = true) d
  /\ exists l', apis w' = <[a := set_a_events l' s]> (apis w)
       /\ List.filter persistent l' = List.filter persistent (a_events s).

(** The world after [api.off()] and [controller.off()]. *)
Definition detached (api : aid) (c : cid) (s : ApiState) (cs : CtrlState) (w : World) : World :=
  set_trace (trace w ++ [EvOff api VUndefined VUndefined VUndefined; EvCtrlOff c])
    (set_ctrls (<[c := {| c_element := c_element cs; c_listeners := [] |}]> (ctrls w))
       (set_apis (<[api := set_a_events [] s]> (apis w)) w)).

(** The world after [setupController(api, element)]. *)
Definition attached (env : Env) (api : aid) (el : Element) (w : World) : World :=
  set_trace (trace w ++ [EvCtrlNew (length (ctrls w)) el;
                         EvCtrlOn (length (ctrls w)) (events env "JWPLAYER_READY") (ReadyStamp api);
                         EvCtrlOn (length (ctrls w)) "all" (Rebroadcast api)])
    (set_ctrls (ctrls w ++ [{| c_element := el;
                               c_listeners := [(events env "JWPLAYER_READY", ReadyStamp api);
                                               ("all", Rebroadcast api)] |}]) w).

(** [instances[i].uniqueId] for an entry of the registry. *)
Definition uniqueId_of (w : World) (x : aid) : option nat := a_uniqueId <$> apis w !! x.

(** The trace of [resetPlayer(api, controller)]: the handle's listeners are
    detached, then the controller's, then the destroy hook runs if the
    controller has one. *)
Definition teardown (env : Env) (api : aid) (c : cid) : list Event :=
  [EvOff api VUndefined VUndefined VUndefined; EvCtrlOff c]
  ++ match ctrl_member env c "playerDestroy" with
     | Callable => [EvCtrlCall c "playerDestroy" []]
     | _ => []
     end.

(** The world after [trigger] has built its payload. *)
Definition normalized (name args : value) (w : World) : World :=
  set_trace (trace w ++ [EvAlloc (length (heap w)) (payload_fields w args);
                         EvWrite (length (heap w)) "type" name])
    (set_heap (heap w ++ [set_field "type" name (payload_fields w args)]) w).

(** One interaction of the page with the facade, or of the controller with
    its listeners; an interaction that ends with an exception still leaves
    its world behind. *)
Inductive step (env : Env) (w w' : World) : Prop :=
| step_construct (el : Element) (this : aid) :
    Api_constructor env el w = Ok this w' -> step env w w'
| step_register (api : aid) :
    register api w = Ok tt w' -> step env w w'
| step_call (fuel : nat) (this : aid) (name : string) (fn : list value -> M value)
    (args : list value) :
    Api_member env fuel this name = Some fn ->
    world_of (fn args w) = Some w' -> step env w w'
| step_emit (c : cid) (type event : value) :
    world_of (Controller_trigger env c type event w) = Some w' -> step env w w'
| step_debug (d : value) :
    set_debug d w = Ok tt w' -> step env w w'
| step_alloc (o : list (string * value)) (l : loc) :
    alloc o w = Ok l w' -> step env w w'.

(** The worlds a process can be in. *)
Inductive reachable (env : Env) : World -> Prop :=
| reachable_init : reachable env init
| reachable_step (w w' : World) :
    reachable env w -> step env w w' -> reachable env w'.

(** *** Controllers in the trace *)

Definition event_ctrl (e : Event) : option cid :=
  match e with
  | EvCtrlNew c _ | EvCtrlOn c _ _ | EvCtrlOff c | EvCtrlCall c _ _ => Some c
  | _ => None
  end.

(** The event does not concern a controller older than [n]. *)
Definition above (n : cid) (e : Event) : Prop :=
  match event_ctrl e with
  | Some c => n <= c
  | None => True
  end.

(** The event creates, wires or unwires a controller. *)
Definition wiring (e : Event) : bool :=
  match e with
  | EvCtrlNew _ _ | EvCtrlOn _ _ _ | EvCtrlOff _ => true
  | _ => false
  end.

(** The controller has a listener that reports to handle [a]. *)
Definition wired_to (a : aid) (cs : CtrlState) : Prop :=
  exists e, e ∈ c_listeners cs /\ listener_api e.2 = a.

Definition reports_to (a : aid) (cs : CtrlState) : bool :=
  existsb (fun e => bool_decide (listener_api e.2 = a)) (c_listeners cs).

(** The controllers that are live for handle [a]: those that have a
    listener which reports to it. *)
Definition live (a : aid) (w : World) : list cid :=
  List.filter (fun c => match ctrls w !! c with
                        | Some cs => reports_to a cs
                        | None => false
                        end) (seq 0 (length (ctrls w))).

(** The controller handle [a] holds exists, is not older than [n], and no
    other controller is wired to the handle. *)
Definition settled (a : aid) (n : cid) (w : World) : Prop :=
  exists s, apis w !! a = Some s
    /\ n <= a_controller s /\ a_controller s < length (ctrls w)
    /\ forall c cs, ctrls w !! c = Some cs -> wired_to a cs -> c = a_controller s.

(** Replaying the trace: the controllers wired to handle [a] after an
    event, given those wired before it. *)
Definition wire_step (a : aid) (ws : list cid) (e : Event) : list cid :=
  match e with
  | EvCtrlOn c _ h =>
      if decide (listener_api h = a)
      then (if decide (c ∈ ws) then ws else c :: ws)
      else ws
  | EvCtrlOff c => List.filter (fun c' => bool_decide (c' <> c)) ws
  | _ => ws
  end.

Definition wired_after (a : aid) (ws : list cid) (d : list Event) : list cid :=
  fold_left (wire_step a) d ws.

(** At no point of the stretch [d] are two controllers wired to [a]. *)
Fixpoint never_two (a : aid) (ws : list cid) (d : list Event) : Prop :=
  length ws <= 1
  /\ match d with
     | [] => True
     | e :: d' => never_two a (wire_step a ws e) d'
     end.

(** Nothing is wired, or the controller the handle holds is. *)
Definition held (a : aid) (w : World) (ws : list cid) : Prop :=
  ws = [] \/ exists s, apis w !! a = Some s /\ ws = [a_controller s].

(** What a method of handle [a] guarantees when it starts in a settled
    world: the world it leaves is settled, controllers older than [n] are
    untouched and absent from the new stretch of trace, never are two
    controllers wired to [a], and without a wiring event in that stretch the
    controllers and the handle's choice among them are the same as
    before. *)
Record orderly_post (a : aid) (n : cid) (w w' : World) : Prop := {
  o_settled : settled a n w';
  o_below : forall c, c < n -> ctrls w' !! c = ctrls w !! c;
  o_trace : exists d, trace w' = trace w ++ d
      /\ Forall (above n) d
      /\ (forall ws, held a w ws -> never_two a ws d /\ held a w' (wired_after a ws d))
      /\ (Forall (fun e => wiring e = false) d ->
            ctrls w' = ctrls w
            /\ (a_controller <$> apis w' !! a) = (a_controller <$> apis w !! a))
}.

Definition orderly (a : aid) (n : cid) (w w' : World) : Prop :=
  settled a n w -> orderly_post a n w w'.

Definition Orderly {A} (a : aid) (n : cid) (m : M A) : Prop :=
  preserves (fun _ => True) (orderly a n) m.

(** [setup] from the point where the new controller is in place. *)
Definition setup_tail (env : Env) (member : aid -> string -> option (list value -> M value))
    (this : aid) (options : value) (id : string) : M value :=
  evs ← get_member options "events";
  utils_foreach evs (fun evt val =>
    match member this evt with
    | Some fn => log (EvApiCall this evt [val]);; fn [val];; mret tt
    | None => mret tt
    end);;
  set_member options "id" (VStr id);;
  s' ← api_state this;
  Controller_invoke env (a_controller s') "setup" [options; VApi this];;
  mret (VApi this).

(** The world in which [setup] has put the new controller in place of the
    one torn down in [w]. *)
Definition replaced (env : Env) (this : aid) (s : ApiState) (w : World) : World :=
  set_apis (<[this := set_a_controller (length (ctrls w)) (set_a_events [] s)]> (apis w))
    (attached env this (a_element s) w).

(** The calls the bindings of an events map ask for: one per key under
    which the handle has a function, with the key's value as sole
    argument. *)
Definition bound_calls (env : Env) (fuel : nat) (this : aid) (evs : list (string * value))
    : list Event :=
  flat_map (fun kv => match Api_member env fuel this kv.1 with
                      | Some _ => [EvApiCall this kv.1 [kv.2]]
                      | None => []
                      end) evs.

(** *** The invariant of a process *)

(** Every handle holds a controller that exists, and a controller wired to
    a handle is the one that handle holds. *)
Definition tidy (w : World) : Prop :=
  forall a s, apis w !! a = Some s ->
    a_controller s < length (ctrls w)
    /\ forall c cs, ctrls w !! c = Some cs -> wired_to a cs -> c = a_controller s.

(** Listeners report to handles that exist. *)
Definition bounded (w : World) : Prop :=
  forall c cs e, ctrls w !! c = Some cs -> e ∈ c_listeners cs ->
    listener_api e.2 < length (apis w).

Definition well_kept (w : World) : Prop := tidy w /\ bounded w.

Definition keeps (w w' : World) : Prop := well_kept w -> well_kept w'.

Definition Keeps {A} (m : M A) : Prop := preserves (fun _ => True) keeps m.

(** *** What a call of [setup] does to the controllers *)

(** The call that took handle [this], in state [s], from world [w] to [w']
    tore the old controller down, then put the replacement in place, with
    never two controllers wired to the handle. *)
Definition replaces_in_order (env : Env) (fuel : nat) (this : aid) (options : value)
    (s : ApiState) (w w' : World) : Prop :=
  let old := a_controller s in
  let new := length (ctrls w) in
  let start := [EvQoe this "clear" ["ready"]; EvQoe this "tick" ["setup"]] in
  let attach := [EvCtrlNew new (a_element s);
                 EvCtrlOn new (events env "JWPLAYER_READY") (ReadyStamp this);
                 EvCtrlOn new "all" (Rebroadcast this)] in
  exists rest,
    trace w' = trace w ++ start ++ teardown env this old ++ rest
    /\ (rest = [] \/ exists rest', rest = attach ++ rest')
    /\ Forall (above new) rest
    /\ never_two this [old] (start ++ teardown env this old ++ rest)
    /\ (c_listeners <$> ctrls w' !! old) = Some []
    /\ (forall type event, Controller_trigger env old type event w' = Ok tt w')
    /\ settled this old w'
    /\ (forall v, Api_setup env fuel this options w = Ok v w' ->
          v = VApi this
          /\ exists rest', rest = attach ++ rest'
             /\ settled this new w'
             /\ (Forall (fun e => wiring e = false) rest' ->
                   (a_controller <$> apis w' !! this) = Some new
                   /\ (c_listeners <$> ctrls w' !! new)
                      = Some [(events env "JWPLAYER_READY", ReadyStamp this);
                              ("all", Rebroadcast this)])).

(** *** Fuel *)

(** [m'] does what [m] does wherever [m] has a behaviour. *)
Definition refines {A} (m m' : M A) : Prop :=
  forall w, world_of (m w) <> None -> m' w = m w.

Definition member_refines (f f' : option (list value -> M value)) : Prop :=
  match f, f' with
  | Some g, Some g' => forall args, refines (g args) (g' args)
  | None, None => True
  | _, _ => False
  end.

(** *** Records *)

(** Records are added, never rewritten or discarded. *)
Definition grows (w w' : World) : Prop := heap w `prefix_of` heap w'.

Definition Grows {A} (m : M A) : Prop := preserves (fun _ => True) grows m.

(** *** Objects that are no records of the heap *)

(** No property of any object is written. *)
Definition untouched (w w' : World) : Prop := props w' = props w.

Definition Untouched {A} (m : M A) : Prop := preserves (fun _ => True) untouched m.

(** *** Chaining *)

(** The computation, when it returns, returns the value [v]. *)
Definition returns_only (v : value) (m : M value) : Prop :=
  forall w x w', m w = Ok x w' -> x = v.

(** The methods of the class that end in [return this], after a call
    forwarded to the controller. *)
Definition chainable : list string :=
  ["setCaptions"; "setConfig"; "setControls"; "setFullscreen"; "setMute";
   "setPlaybackRate"; "setCues"; "setVolume"; "load"; "play"; "pause"; "seek";
   "playlistItem"; "playlistNext"; "playlistPrev"; "next"; "castToggle"; "skipAd";
   "stop"; "resize"; "addButton"; "removeButton"; "attachMedia"; "detachMedia"].

(** The setters that end without a return statement. *)
Definition unchained_setters : list string :=
  ["setCurrentAudioTrack"; "setCurrentCaptions"; "setCurrentQuality"].

(** *** Groups of methods *)

(** The legacy [onX(callback)] wrappers of the class, in source order. *)
Definition legacy_listeners : list string :=
  ["onBuffer"; "onPause"; "onPlay"; "onIdle"; "onBufferChange"; "onBufferFull"; "onError";
   "onSetupError"; "onFullscreen"; "onMeta"; "onMute"; "onPlaylist"; "onPlaylistItem";
   "onPlaylistComplete"; "onReady"; "onResize"; "onComplete"; "onSeek"; "onTime";
   "onVolume"; "onBeforePlay"; "onBeforeComplete"; "onDisplayClick"; "onControls";
   "onQualityLevels"; "onQualityChange"; "onCaptionsList"; "onCaptionsChange"; "onAdError";
   "onAdClick"; "onAdImpression"; "onAdTime"; "onAdComplete"; "onAdCompanions";
   "onAdSkipped"; "onAdPlay"; "onAdPause"; "onAdMeta"; "onCast"; "onAudioTrackChange";
   "onAudioTracks"].

(** The getters whose body is [return this.callInternal(...)], possibly
    through another getter. *)
Definition plain_getters : list string :=
  ["getAudioTracks"; "getBuffer"; "getCaptions"; "getCaptionsList"; "getConfig";
   "getContainer"; "getControls"; "getCurrentAudioTrack"; "getCurrentCaptions";
   "getCurrentQuality"; "getDuration"; "getFullscreen"; "getHeight"; "getItem"; "getMute";
   "getPlaybackRate"; "getPlaylist"; "getPlaylistIndex"; "getPosition"; "getProvider";
   "getQualityLevels"; "getSafeRegion"; "getState"; "getStretching"; "getViewable";
   "getVisualQuality"; "getVolume"; "getWidth"; "createInstream"].

(** The world after [on(name, callback)] on handle [a] in state [s]. *)
Definition subscribed (a : aid) (s : ApiState) (name : string) (callback : value)
    (w : World) : World :=
  set_trace (trace w ++ [EvOn a name {| s_callback := callback; s_context := VUndefined;
                                        s_once := false |}])
    (set_apis (<[a := set_a_events
                        (a_events s ++ [(name, {| s_callback := callback;
                                                  s_context := VUndefined;
                                                  s_once := false |})]) s]> (apis w)) w).

(** * Properties *)

(** ** Stepping through a computation *)

Lemma bind_unfold {A B} (m : M A) (k : A -> M B) (w : World) :
  (m ≫= k) w =
  match m w with
  | Ok x w' => k x w'
  | Throw e w' => Throw e w'
  | Stuck why => Stuck why
  end.
Proof. reflexivity. Qed.

Lemma bind_ok {A B} (m : M A) (k : A -> M B) (w w1 : World) (x : A) :
  m w = Ok x w1 -> (m ≫= k) w = k x w1.
Proof. intros H. rewrite bind_unfold, H. reflexivity. Qed.

Lemma bind_throw {A B} (m : M A) (k : A -> M B) (w w1 : World) (e : value) :
  m w = Throw e w1 -> (m ≫= k) w = Throw e w1.
Proof. intros H. rewrite bind_unfold, H. reflexivity. Qed.

Lemma api_state_ok (a : aid) (s : ApiState) (w : World) :
  apis w !! a = Some s -> api_state a w = Ok s w.
Proof. intros H. unfold api_state. rewrite H. reflexivity. Qed.

Lemma ctrl_state_ok (c : cid) (s : CtrlState) (w : World) :
  ctrls w !! c = Some s -> ctrl_state c w = Ok s w.
Proof. intros H. unfold ctrl_state. rewrite H. reflexivity. Qed.

Lemma read_obj_ok (l : loc) (o : obj) (w : World) :
  heap w !! l = Some o -> read_obj l w = Ok o w.
Proof. intros H. unfold read_obj. rewrite H. reflexivity. Qed.

(** ** Composing footprints *)

Section Preserves.

Context (S : stuck -> Prop) (R : World -> World -> Prop).
Context (R_refl : forall w, R w w).
Context (R_trans : forall w1 w2 w3, R w1 w2 -> R w2 w3 -> R w1 w3).

Lemma preserves_ret {A} (x : A) : preserves S R (mret x).
Proof. intros w. apply R_refl. Qed.

Lemma preserves_throw {A} (e : value) : preserves S R (throw (A := A) e).
Proof. intros w. apply R_refl. Qed.

Lemma preserves_gets {A} (f : World -> A) : preserves S R (gets f).
Proof. intros w. apply R_refl. Qed.

Lemma preserves_answer (o : World -> outcome) : preserves S R (answer o).
Proof. intros w. unfold answer. destruct (o w); apply R_refl. Qed.

Lemma preserves_modify (f : World -> World) :
  (forall w, R w (f w)) -> preserves S R (modify f).
Proof. intros H w. apply H. Qed.

Lemma preserves_bind {A B} (m : M A) (k : A -> M B) :
  preserves S R m -> (forall x, preserves S R (k x)) -> preserves S R (m ≫= k).
Proof.
  intros Hm Hk w. rewrite bind_unfold. specialize (Hm w).
  destruct (m w) as [x w1 | e w1 | why]; [| exact Hm | exact Hm].
  specialize (Hk x w1).
  destruct (k x w1) as [y w2 | e w2 | why]; [| | exact Hk]; eapply R_trans; eauto.
Qed.

Lemma preserves_api_state (a : aid) : S Dangling -> preserves S R (api_state a).
Proof. intros HS w. unfold api_state. destruct (apis w !! a); [apply R_refl | exact HS]. Qed.

Lemma preserves_ctrl_state (c : cid) : S Dangling -> preserves S R (ctrl_state c).
Proof. intros HS w. unfold ctrl_state. destruct (ctrls w !! c); [apply R_refl | exact HS]. Qed.

Lemma preserves_read_obj (l : loc) : S Dangling -> preserves S R (read_obj l).
Proof. intros HS w. unfold read_obj. destruct (heap w !! l); [apply R_refl | exact HS]. Qed.

Lemma preserves_contained {A} (m : M A) :
  preserves S R m -> (forall e, preserves S R (log (EvContained e))) ->
  preserves S R (contained m).
Proof.
  intros Hm Hlog w. unfold contained. specialize (Hm w).
  destruct (m w) as [x w1 | e w1 | why]; [exact Hm | | exact Hm].
  specialize (Hlog e w1). simpl in *. eapply R_trans; eauto.
Qed.

Lemma preserves_foreach_fields (fn : string -> value -> M unit) (o : obj) :
  (forall k v, preserves S R (fn k v)) -> preserves S R (foreach_fields fn o).
Proof.
  intros Hfn. induction o as [| [k v] o IH]; simpl.
  - apply preserves_ret.
  - apply preserves_bind; [apply Hfn | intros _; exact IH].
Qed.

End Preserves.

Lemma preserves_weaken {A} (S S' : stuck -> Prop) (R R' : World -> World -> Prop) (m : M A) :
  (forall why, S why -> S' why) -> (forall w w', R w w' -> R' w w') ->
  preserves S R m -> preserves S' R' m.
Proof.
  intros HS HR Hm w. specialize (Hm w).
  destruct (m w); auto.
Qed.

(** ** The quiet footprint *)

Lemma quiet_refl (a : aid) (w : World) : quiet a w w.
Proof.
  split; try reflexivity.
  - intros b s Hb. exists s. tauto.
  - exists []. split; [symmetry; apply app_nil_r | constructor].
Qed.

Lemma quiet_controller (a b : aid) (w w' : World) :
  quiet a w w' -> a_controller <$> apis w' !! b = a_controller <$> apis w !! b.
Proof.
  intros Hq. destruct (apis w !! b) as [s |] eqn:Hb.
  - destruct (q_fixed _ _ _ Hq b s Hb) as (s' & Hs' & _ & _ & _ & Hc & _).
    rewrite Hs'. simpl. by rewrite Hc.
  - apply lookup_ge_None_1 in Hb. rewrite <- (q_apis _ _ _ Hq) in Hb.
    apply lookup_ge_None_2 in Hb. by rewrite Hb.
Qed.

Lemma quiet_trans (a : aid) (w1 w2 w3 : World) :
  quiet a w1 w2 -> quiet a w2 w3 -> quiet a w1 w3.
Proof.
  intros H12 H23. split.
  - rewrite (q_counter _ _ _ H23). apply (q_counter _ _ _ H12).
  - rewrite (q_instances _ _ _ H23). apply (q_instances _ _ _ H12).
  - rewrite (q_window _ _ _ H23). apply (q_window _ _ _ H12).
  - rewrite (q_ctrls _ _ _ H23). apply (q_ctrls _ _ _ H12).
  - pose proof (q_heap _ _ _ H12). pose proof (q_heap _ _ _ H23). lia.
  - intros v. etrans; [apply (q_props _ _ _ H12) | apply (q_props _ _ _ H23)].
  - rewrite (q_apis _ _ _ H23). apply (q_apis _ _ _ H12).
  - intros b s Hb.
    destruct (q_fixed _ _ _ H12 b s Hb) as (s2 & Hs2 & He2 & Hi2 & Hu2 & Hc2 & Hn2).
    destruct (q_fixed _ _ _ H23 b s2 Hs2) as (s3 & Hs3 & He3 & Hi3 & Hu3 & Hc3 & Hn3).
    exists s3. repeat split; try congruence.
    intros Hne. rewrite (Hn3 Hne). apply (Hn2 Hne).
  - destruct (q_trace _ _ _ H12) as (d1 & Ht1 & Hd1).
    destruct (q_trace _ _ _ H23) as (d2 & Ht2 & Hd2).
    exists (d1 ++ d2). split.
    + rewrite Ht2, Ht1. symmetry. apply app_assoc.
    + apply Forall_app. split; [exact Hd1 |].
      rewrite <- (quiet_controller a a w1 w2 H12). exact Hd2.
Qed.

Lemma quiet_set_trace (a : aid) (w : World) (e : Event) :
  calm (a_controller <$> apis w !! a) e ->
  quiet a w (set_trace (trace w ++ [e]) w).
Proof.
  intros He. split; simpl; try reflexivity.
  - intros b s Hb. exists s. tauto.
  - exists [e]. split; [reflexivity | by constructor].
Qed.

Lemma quiet_set_heap (a : aid) (w : World) (h : list obj) :
  length (heap w) <= length h -> quiet a w (set_heap h w).
Proof.
  intros Hh. split; simpl; try reflexivity; try assumption.
  - intros b s Hb. exists s. tauto.
  - exists []. split; [symmetry; apply app_nil_r | constructor].
Qed.

Lemma own_of_put_own (v v' : value) (o : obj) (t : list (value * obj)) :
  own_of v' (put_own v o t) = if decide (v' = v) then o else own_of v' t.
Proof.
  induction t as [| [v0 o0] t IH]; simpl.
  - destruct (decide (v' = v)); reflexivity.
  - destruct (decide (v = v0)) as [-> | Hne]; simpl.
    + destruct (decide (v' = v0)); reflexivity.
    + destruct (decide (v' = v0)) as [-> | Hne'].
      * rewrite decide_False by congruence. reflexivity.
      * exact IH.
Qed.

Lemma set_field_keys (k : string) (x : value) (o : obj) :
  o.*1 `prefix_of` (set_field k x o).*1.
Proof.
  induction o as [| [k' v'] o IH]; simpl.
  - apply prefix_nil.
  - destruct (decide (k = k')) as [-> | Hne]; simpl.
    + reflexivity.
    + apply prefix_cons. exact IH.
Qed.

(** A write to a property of an object keeps the properties of every
    object, in their order. *)
Lemma quiet_put (a : aid) (w : World) (v : value) (k : string) (x : value) :
  quiet a w (set_props (put_own v (set_field k x (own_props w v)) (props w)) w).
Proof.
  split; simpl; try reflexivity.
  - intros v'. unfold own_keys, own_props. simpl. rewrite own_of_put_own.
    destruct (decide (v' = v)) as [-> | Hne]; [apply set_field_keys | reflexivity].
  - intros b s Hb. exists s. tauto.
  - exists []. split; [symmetry; apply app_nil_r | constructor].
Qed.

Lemma quiet_set_apis (a : aid) (w : World) (s : ApiState) (f : ApiState -> ApiState) :
  apis w !! a = Some s -> keeps_identity f ->
  quiet a w (set_apis (<[a := f s]> (apis w)) w).
Proof.
  intros Hs Hf. split; simpl; try reflexivity.
  - apply length_insert.
  - intros b sb Hb. destruct (decide (b = a)) as [-> | Hne].
    + exists (f s). rewrite list_lookup_insert_eq by (eapply lookup_lt_Some; eauto).
      assert (sb = s) as -> by congruence.
      destruct (Hf s) as (? & ? & ? & ?). tauto.
    + exists sb. rewrite list_lookup_insert_ne by congruence. tauto.
  - exists []. split; [symmetry; apply app_nil_r | constructor].
Qed.

Create HintDb quiet.

Section QuietOps.

Context (env : Env) (a : aid).

Lemma Quiet_bind {A B} (m : M A) (k : A -> M B) :
  Quiet a m -> (forall x, Quiet a (k x)) -> Quiet a (m ≫= k).
Proof. intros Hm Hk. eapply preserves_bind; eauto using quiet_trans. Qed.

Lemma Quiet_ret {A} (x : A) : Quiet a (mret x).
Proof. apply preserves_ret, quiet_refl. Qed.

Lemma Quiet_throw {A} (e : value) : Quiet a (throw (A := A) e).
Proof. apply preserves_throw, quiet_refl. Qed.

Lemma Quiet_gets {A} (f : World -> A) : Quiet a (gets f).
Proof. apply preserves_gets, quiet_refl. Qed.

Lemma Quiet_answer (o : World -> outcome) : Quiet a (answer o).
Proof. apply preserves_answer, quiet_refl. Qed.

Lemma Quiet_api_state (b : aid) : Quiet a (api_state b).
Proof. apply preserves_api_state; [apply quiet_refl | reflexivity]. Qed.

Lemma Quiet_read_obj (l : loc) : Quiet a (read_obj l).
Proof. apply preserves_read_obj; [apply quiet_refl | reflexivity]. Qed.

Lemma Quiet_log (e : Event) : (forall c, calm c e) -> Quiet a (log e).
Proof. intros He w. simpl. apply quiet_set_trace. apply He. Qed.

Lemma Quiet_set_heap (f : World -> list obj) :
  (forall w, length (heap w) <= length (f w)) ->
  Quiet a (modify (fun w => set_heap (f w) w)).
Proof. intros Hf. apply preserves_modify. intros w. apply quiet_set_heap, Hf. Qed.

Lemma Quiet_put (v : value) (k : string) (x : value) :
  Quiet a (modify (fun w => set_props (put_own v (set_field k x (own_props w v)) (props w)) w)).
Proof. apply preserves_modify. intros w. apply quiet_put. Qed.

Lemma Quiet_update_api (f : ApiState -> ApiState) :
  keeps_identity f -> Quiet a (update_api a f).
Proof.
  intros Hf w. unfold update_api. rewrite bind_unfold. unfold api_state.
  destruct (apis w !! a) as [s |] eqn:Hs; [| reflexivity].
  simpl. apply quiet_set_apis; assumption.
Qed.

Lemma keeps_identity_events (l : ApiState -> list (string * sub)) :
  keeps_identity (fun s => set_a_events (l s) s).
Proof. intros s. simpl. tauto. Qed.

Lemma keeps_identity_plugins (p : ApiState -> obj) :
  keeps_identity (fun s => set_a_plugins (p s) s).
Proof. intros s. simpl. tauto. Qed.

End QuietOps.

#[global] Hint Resolve Quiet_ret Quiet_throw Quiet_gets Quiet_answer Quiet_api_state
  Quiet_read_obj Quiet_put : quiet.
#[global] Hint Extern 1 (Quiet _ (log _)) => (apply Quiet_log; intros ?; exact I) : quiet.
#[global] Hint Extern 1 (Quiet _ (modify (fun w => set_heap _ w))) =>
  (apply Quiet_set_heap; intros ?; rewrite ?length_app, ?length_insert; simpl; lia) : quiet.
#[global] Hint Extern 1 (Quiet _ (update_api _ (fun st => set_a_events _ st))) =>
  (apply Quiet_update_api; refine (keeps_identity_events _)) : quiet.
#[global] Hint Extern 1 (Quiet _ (update_api _ (fun st => set_a_plugins _ st))) =>
  (apply Quiet_update_api; refine (keeps_identity_plugins _)) : quiet.

(** Decompose a computation along its binds and branches and close the
    leaves with the footprints already established. *)
Ltac quiet_go :=
  repeat
    match goal with
    | |- Quiet _ (_ ≫= _) => apply Quiet_bind; [| intros]
    | |- Quiet _ (if ?b then _ else _) => destruct b
    | |- Quiet _ (match ?v with _ => _ end) => destruct v
    | |- Quiet _ _ => solve [auto with quiet]
    end.

Section QuietEvents.

Context (env : Env) (a : aid).

Lemma Quiet_alloc (o : obj) : Quiet a (alloc o).
Proof. unfold alloc. quiet_go. Qed.

Lemma Quiet_get_member (v : value) (k : string) : Quiet a (get_member v k).
Proof. unfold get_member. quiet_go. Qed.

Lemma Quiet_own_fields (v : value) : Quiet a (own_fields v).
Proof. unfold own_fields. quiet_go. Qed.

Lemma Quiet_put_member (v : value) (k : string) (x : value) : Quiet a (put_member v k x).
Proof. unfold put_member. quiet_go. Qed.

Lemma Quiet_set_member (v : value) (k : string) (x : value) : Quiet a (set_member v k x).
Proof. unfold set_member. pose proof Quiet_put_member. quiet_go. Qed.

Lemma Quiet_call_value (fn this : value) (args : list value) :
  Quiet a (call_value env fn this args).
Proof. unfold call_value. quiet_go. Qed.

Hint Resolve Quiet_alloc Quiet_get_member Quiet_own_fields Quiet_set_member
  Quiet_call_value : quiet.

Lemma Quiet_call_member (v : value) (k : string) (args : list value) :
  Quiet a (call_member env v k args).
Proof. unfold call_member. quiet_go. Qed.

Lemma Quiet_subscribe (once : bool) (name callback context : value) :
  Quiet a (subscribe env once a name callback context).
Proof. unfold subscribe. quiet_go. Qed.

Lemma Quiet_Events_off (name callback context : value) :
  Quiet a (Events_off env a name callback context).
Proof. unfold Events_off. quiet_go. Qed.

Lemma Quiet_invoke_sub (args : list value) (e : string * sub) :
  Quiet a (invoke_sub env a args e).
Proof. unfold invoke_sub. quiet_go. Qed.

Lemma Quiet_deliver (args : list value) (subs : list (string * sub)) :
  Quiet a (deliver env a args subs).
Proof.
  induction subs as [| e rest IH]; simpl; [apply Quiet_ret |].
  apply Quiet_bind; [apply Quiet_invoke_sub | intros _; exact IH].
Qed.

Lemma Quiet_deliverSafe (args : list value) (subs : list (string * sub)) :
  Quiet a (deliverSafe env a args subs).
Proof.
  induction subs as [| e rest IH]; simpl; [apply Quiet_ret |].
  apply Quiet_bind; [| intros _; exact IH].
  apply preserves_contained; [apply quiet_trans | apply Quiet_invoke_sub |].
  intros x. apply Quiet_log. intros c. exact I.
Qed.

Hint Resolve Quiet_deliver Quiet_deliverSafe : quiet.

Lemma Quiet_Events_trigger (name payload : value) :
  Quiet a (Events_trigger env a name payload).
Proof. unfold Events_trigger. quiet_go. Qed.

Lemma Quiet_Events_triggerSafe (name payload : value) :
  Quiet a (Events_triggerSafe env a name payload).
Proof. unfold Events_triggerSafe. quiet_go. Qed.

Lemma Quiet_normalize_payload (name args : value) :
  Quiet a (normalize_payload name args).
Proof. unfold normalize_payload. quiet_go. Qed.

Hint Resolve Quiet_Events_trigger Quiet_Events_triggerSafe Quiet_normalize_payload : quiet.

Lemma Quiet_Api_trigger (name args : value) : Quiet a (Api_trigger env a name args).
Proof. unfold Api_trigger. quiet_go. Qed.

Lemma Quiet_Api_callInternal (name : value) (args : list value) :
  Quiet a (Api_callInternal env a name args).
Proof.
  intros w. unfold Api_callInternal. rewrite bind_unfold. unfold api_state.
  destruct (apis w !! a) as [s |] eqn:Hs; [| reflexivity].
  destruct (ctrl_member env (a_controller s) (to_key env name)); simpl;
    try apply quiet_refl.
  unfold Controller_apply. rewrite bind_unfold. simpl. unfold answer.
  match goal with |- context [ctrl_result ?e ?c ?k ?l ?w'] =>
    destruct (ctrl_result e c k l w') end;
    apply quiet_set_trace; rewrite Hs; reflexivity.
Qed.

Lemma Quiet_qoe_between_call (l1 l2 : string) : Quiet a (qoe_between_call env a l1 l2).
Proof. unfold qoe_between_call. quiet_go. Qed.

Lemma Quiet_qoe_dump_call : Quiet a (qoe_dump_call env a).
Proof. unfold qoe_dump_call. quiet_go. Qed.

End QuietEvents.

#[global] Hint Resolve Quiet_alloc Quiet_get_member Quiet_own_fields Quiet_set_member
  Quiet_call_value Quiet_call_member Quiet_subscribe Quiet_Events_off
  Quiet_Events_trigger Quiet_Events_triggerSafe Quiet_Api_trigger
  Quiet_Api_callInternal Quiet_qoe_between_call Quiet_qoe_dump_call : quiet.

(** ** Every method of the class is quiet *)

Ltac head_of t :=
  match t with
  | ?f _ => head_of f
  | _ => t
  end.

Ltac quiet_method :=
  repeat
    match goal with
    | |- Quiet _ _ => solve [auto with quiet]
    | |- Quiet _ (_ ≫= _) => apply Quiet_bind; [| intros]
    | |- Quiet _ (let _ := _ in _) => cbv zeta
    | |- Quiet _ (if ?b then _ else _) => destruct b
    | |- Quiet _ (match ?v with _ => _ end) => destruct v
    | |- Quiet _ ?m => let f := head_of m in progress unfold f
    end.

Lemma Quiet_prototype (env : Env) (a : aid) :
  Forall (fun entry => forall args, Quiet a (entry.2 a args)) (Api_prototype env).
Proof.
  unfold Api_prototype.
  repeat (apply Forall_cons; split; [intros args; cbn [snd]; quiet_method |]).
  constructor.
Qed.

Lemma assoc_Some {A} (k : string) (l : list (string * A)) (x : A) :
  assoc k l = Some x -> (k, x) ∈ l.
Proof.
  induction l as [| [k' y] l IH]; simpl; [discriminate |].
  destruct (decide (k = k')) as [-> | Hne].
  - intros [= ->]. apply list_elem_of_here.
  - intros H. apply list_elem_of_further, IH, H.
Qed.

Lemma Quiet_method (env : Env) (a : aid) (name : string)
    (method : aid -> list value -> M value) (args : list value) :
  assoc name (Api_prototype env) = Some method -> Quiet a (method a args).
Proof.
  intros H. apply assoc_Some in H.
  pose proof (Quiet_prototype env a) as Hall.
  rewrite Forall_forall in Hall. apply (Hall _ H).
Qed.

(** ** What every operation leaves stable *)

Lemma stable_refl (w : World) : stable w w.
Proof.
  split; try reflexivity.
  - intros b s Hb. exists s. tauto.
  - exists []. symmetry. apply app_nil_r.
Qed.

Lemma stable_trans (w1 w2 w3 : World) : stable w1 w2 -> stable w2 w3 -> stable w1 w3.
Proof.
  intros H12 H23. split.
  - rewrite (st_counter _ _ H23). apply (st_counter _ _ H12).
  - rewrite (st_apis _ _ H23). apply (st_apis _ _ H12).
  - intros b s Hb.
    destruct (st_fixed _ _ H12 b s Hb) as (s2 & Hs2 & He2 & Hi2 & Hu2).
    destruct (st_fixed _ _ H23 b s2 Hs2) as (s3 & Hs3 & He3 & Hi3 & Hu3).
    exists s3. repeat split; congruence.
  - pose proof (st_ctrls _ _ H12). pose proof (st_ctrls _ _ H23). lia.
  - pose proof (st_heap _ _ H12). pose proof (st_heap _ _ H23). lia.
  - intros v. etrans; [apply (st_props _ _ H12) | apply (st_props _ _ H23)].
  - destruct (st_trace _ _ H12) as (d1 & Ht1).
    destruct (st_trace _ _ H23) as (d2 & Ht2).
    exists (d1 ++ d2). rewrite Ht2, Ht1. symmetry. apply app_assoc.
Qed.

Lemma quiet_stable (a : aid) (w w' : World) : quiet a w w' -> stable w w'.
Proof.
  intros Hq. split.
  - apply (q_counter _ _ _ Hq).
  - apply (q_apis _ _ _ Hq).
  - intros b s Hb.
    destruct (q_fixed _ _ _ Hq b s Hb) as (s' & Hs' & He & Hi & Hu & _).
    exists s'. tauto.
  - rewrite (q_ctrls _ _ _ Hq). lia.
  - apply (q_heap _ _ _ Hq).
  - apply (q_props _ _ _ Hq).
  - destruct (q_trace _ _ _ Hq) as (d & Hd & _). exists d. exact Hd.
Qed.

Lemma Quiet_Stable {A} (a : aid) (m : M A) : Quiet a m -> Stable m.
Proof.
  apply preserves_weaken; [tauto |]. intros w w'. apply quiet_stable.
Qed.

Lemma stable_set_trace (w : World) (d : list Event) : stable w (set_trace (trace w ++ d) w).
Proof.
  split; simpl; try reflexivity.
  - intros b s Hb. exists s. tauto.
  - exists d. reflexivity.
Qed.

Lemma stable_set_ctrls (w : World) (l : list CtrlState) :
  length (ctrls w) <= length l -> stable w (set_ctrls l w).
Proof.
  intros Hl. split; simpl; try reflexivity; try assumption.
  - intros b s Hb. exists s. tauto.
  - exists []. symmetry. apply app_nil_r.
Qed.

Lemma stable_set_instances (w : World) (l : list aid) : stable w (set_instances l w).
Proof.
  split; simpl; try reflexivity.
  - intros b s Hb. exists s. tauto.
  - exists []. symmetry. apply app_nil_r.
Qed.

Lemma stable_set_window_jwplayer (w : World) (j : option value) :
  stable w (set_window_jwplayer j w).
Proof.
  split; simpl; try reflexivity.
  - intros b s Hb. exists s. tauto.
  - exists []. symmetry. apply app_nil_r.
Qed.

Lemma stable_set_controller (w : World) (a : aid) (s : ApiState) (c : cid) :
  apis w !! a = Some s ->
  stable w (set_apis (<[a := set_a_controller c s]> (apis w)) w).
Proof.
  intros Hs. split; simpl; try reflexivity.
  - apply length_insert.
  - intros b sb Hb. destruct (decide (b = a)) as [-> | Hne].
    + exists (set_a_controller c s).
      rewrite list_lookup_insert_eq by (eapply lookup_lt_Some; eauto).
      assert (sb = s) as -> by congruence. simpl. tauto.
    + exists sb. rewrite list_lookup_insert_ne by congruence. tauto.
  - exists []. symmetry. apply app_nil_r.
Qed.

Create HintDb stable.

Section StableOps.

Context (env : Env).

Lemma Stable_bind {A B} (m : M A) (k : A -> M B) :
  Stable m -> (forall x, Stable (k x)) -> Stable (m ≫= k).
Proof. intros Hm Hk. eapply preserves_bind; eauto using stable_trans. Qed.

Lemma Stable_ret {A} (x : A) : Stable (mret x).
Proof. apply preserves_ret, stable_refl. Qed.

Lemma Stable_throw {A} (e : value) : Stable (throw (A := A) e).
Proof. apply preserves_throw, stable_refl. Qed.

Lemma Stable_stuck_at {A} (why : stuck) : Stable (stuck_at (A := A) why).
Proof. intros w. exact I. Qed.

Lemma Stable_gets {A} (f : World -> A) : Stable (gets f).
Proof. apply preserves_gets, stable_refl. Qed.

Lemma Stable_answer (o : World -> outcome) : Stable (answer o).
Proof. apply preserves_answer, stable_refl. Qed.

Lemma Stable_api_state (b : aid) : Stable (api_state b).
Proof. apply preserves_api_state; [apply stable_refl | exact I]. Qed.

Lemma Stable_ctrl_state (c : cid) : Stable (ctrl_state c).
Proof. apply preserves_ctrl_state; [apply stable_refl | exact I]. Qed.

Lemma Stable_log (e : Event) : Stable (log e).
Proof. intros w. simpl. apply stable_set_trace. Qed.

Lemma Stable_set_ctrls (f : World -> list CtrlState) :
  (forall w, length (ctrls w) <= length (f w)) ->
  Stable (modify (fun w => set_ctrls (f w) w)).
Proof. intros Hf. apply preserves_modify. intros w. apply stable_set_ctrls, Hf. Qed.

Lemma Stable_set_instances (f : World -> list aid) :
  Stable (modify (fun w => set_instances (f w) w)).
Proof. apply preserves_modify. intros w. apply stable_set_instances. Qed.

Lemma Stable_set_controller (a : aid) (c : cid) :
  Stable (update_api a (set_a_controller c)).
Proof.
  intros w. unfold update_api. rewrite bind_unfold. unfold api_state.
  destruct (apis w !! a) as [s |] eqn:Hs; [| exact I].
  simpl. apply stable_set_controller. exact Hs.
Qed.

End StableOps.

#[global] Hint Resolve Stable_ret Stable_throw Stable_stuck_at Stable_gets Stable_answer
  Stable_api_state Stable_ctrl_state Stable_log Stable_set_instances
  Stable_set_controller : stable.
#[global] Hint Extern 1 (Stable (modify (fun w => set_ctrls _ w))) =>
  (apply Stable_set_ctrls; intros ?; rewrite ?length_app, ?length_insert; simpl; lia) : stable.
#[global] Hint Extern 2 (Stable _) =>
  (unshelve (eapply Quiet_Stable; [solve [auto with quiet]]); exact 0) : stable.

Ltac stable_go :=
  repeat
    match goal with
    | |- Stable _ => solve [auto with stable]
    | |- Stable (_ ≫= _) => apply Stable_bind; [| intros]
    | |- Stable (let _ := _ in _) => cbv zeta
    | |- Stable (if ?b then _ else _) => destruct b
    | |- Stable (match ?v with _ => _ end) => destruct v
    end.

Section StableApi.

Context (env : Env).

Lemma Stable_Controller_new (el : Element) : Stable (Controller_new el).
Proof. unfold Controller_new. stable_go. Qed.

Lemma Stable_Controller_on (c : cid) (name : string) (h : listener) :
  Stable (Controller_on c name h).
Proof. unfold Controller_on. stable_go. Qed.

Lemma Stable_Controller_off (c : cid) : Stable (Controller_off c).
Proof. unfold Controller_off. stable_go. Qed.

Lemma Stable_Controller_apply (c : cid) (name : string) (args : list value) :
  Stable (Controller_apply env c name args).
Proof. unfold Controller_apply. stable_go. Qed.

Hint Resolve Stable_Controller_new Stable_Controller_on Stable_Controller_off
  Stable_Controller_apply : stable.

Lemma Stable_Controller_invoke (c : cid) (name : string) (args : list value) :
  Stable (Controller_invoke env c name args).
Proof. unfold Controller_invoke. stable_go. Qed.

Lemma Stable_setupController (api : aid) (el : Element) :
  Stable (setupController env api el).
Proof. unfold setupController. stable_go. Qed.

Lemma Stable_resetPlayer (api : aid) (c : cid) : Stable (resetPlayer env api c).
Proof. unfold resetPlayer, Api_off. stable_go. Qed.

Lemma Stable_removePlayer (api : aid) : Stable (removePlayer api).
Proof. unfold removePlayer. stable_go. Qed.

Hint Resolve Stable_Controller_invoke Stable_setupController Stable_resetPlayer
  Stable_removePlayer : stable.

Lemma Stable_Api_remove (this : aid) : Stable (Api_remove env this).
Proof. unfold Api_remove. stable_go. Qed.

Lemma Stable_utils_foreach (data : value) (fn : string -> value -> M unit) :
  (forall k v, Stable (fn k v)) -> Stable (utils_foreach data fn).
Proof.
  intros Hfn. unfold utils_foreach. destruct data; try apply Stable_ret.
  all: apply Stable_bind;
    [| intros o; apply preserves_foreach_fields;
         [apply stable_refl | apply stable_trans | exact Hfn]].
  2-4: apply Stable_gets.
  apply preserves_read_obj; [apply stable_refl | exact I].
Qed.

Lemma Stable_Api_setup_with (member : aid -> string -> option (list value -> M value))
    (this : aid) (options : value) :
  (forall name fn args, member this name = Some fn -> Stable (fn args)) ->
  Stable (Api_setup_with env member this options).
Proof.
  intros Hmem. unfold Api_setup_with, qoe_clear, qoe_tick.
  repeat (apply Stable_bind; [solve [auto with stable] | intros]).
  apply Stable_bind.
  { apply Stable_utils_foreach. intros k v.
    destruct (member this k) as [fn |] eqn:Hfn; [| apply Stable_ret].
    stable_go. apply (Hmem _ _ _ Hfn). }
  intros. stable_go.
Qed.

Lemma Stable_callable_value (this : aid) (v : value) (fn : list value -> M value)
    (args : list value) :
  callable_value env this v = Some fn -> Stable (fn args).
Proof.
  destruct v; simpl; try discriminate. intros [= <-].
  eapply Quiet_Stable. apply (Quiet_call_value env 0).
Qed.

(** The six ways [this[name]] can be a function. *)
Lemma Api_member_cases (fuel : nat) (this : aid) (name : string)
    (fn : list value -> M value) :
  Api_member env fuel this name = Some fn ->
  (name = "callInternal"
     /\ fn = (fun args => Api_callInternal env this (arg 0 args) (tail args)))
  \/ (name = "setup"
     /\ fn = (fun args => match fuel with
                          | 0 => stuck_at OutOfFuel
                          | S fuel' => Api_setup_with env (Api_member env fuel') this (arg 0 args)
                          end))
  \/ (name = "remove" /\ fn = (fun _ => Api_remove env this))
  \/ (exists method, assoc name (Api_prototype env) = Some method /\ fn = method this)
  \/ (name = "constructor" /\ fn = (fun _ => throw TypeError))
  \/ (exists v, callable_value env this v = Some fn).
Proof.
  destruct fuel; cbn [Api_member].
  all: destruct (decide (name = "callInternal")) as [-> | _];
    [intros [= <-]; left; split; reflexivity |].
  all: destruct (decide (name = "setup")) as [-> | _];
    [intros [= <-]; right; left; split; reflexivity |].
  all: destruct (decide (name = "remove")) as [-> | _];
    [intros [= <-]; do 2 right; left; split; reflexivity |].
  all: case_bool_decide; [discriminate |].
  all: destruct (assoc name (Api_prototype env)) as [method |] eqn:Hm;
    [intros [= <-]; do 3 right; left; exists method; split; reflexivity |].
  all: destruct (decide (name = "constructor")) as [-> | _];
    [intros [= <-]; do 4 right; left; split; reflexivity |].
  all: repeat case_decide; intros Hv; do 5 right; eexists; exact Hv.
Qed.

Lemma Stable_Api_member (fuel : nat) (this : aid) (name : string)
    (fn : list value -> M value) (args : list value) :
  Api_member env fuel this name = Some fn -> Stable (fn args).
Proof.
  revert this name fn args. induction fuel as [| fuel IH]; intros this name fn args Hfn.
  all: apply Api_member_cases in Hfn
    as [[-> ->] | [[-> ->] | [[-> ->] | [(method & Hm & ->) | [[-> ->] | (v & Hv)]]]]].
  all: try (eapply Quiet_Stable; apply (Quiet_Api_callInternal env this)).
  all: try apply Stable_Api_remove.
  all: try (eapply Quiet_Stable; apply (Quiet_method env this name method args Hm)).
  all: try apply Stable_throw.
  all: try (eapply Stable_callable_value; eassumption).
  - apply Stable_stuck_at.
  - apply Stable_Api_setup_with. intros name' fn' args'. apply IH.
Qed.

Lemma Stable_Api_setup (fuel : nat) (this : aid) (options : value) :
  Stable (Api_setup env fuel this options).
Proof.
  unfold Api_setup. apply Stable_Api_setup_with.
  intros name fn args. apply Stable_Api_member.
Qed.

Lemma Stable_Api_constructor_tail (el : Element) (this : aid) :
  Stable (log (EvQoe this "new" []);; qoe_tick this "init";; setupController env this el).
Proof. unfold qoe_tick. stable_go. Qed.

Lemma Stable_run_listener (h : listener) (args : list value) :
  Stable (run_listener env h args).
Proof. unfold run_listener, qoe_tick. stable_go. Qed.

Lemma Stable_Controller_trigger (c : cid) (type event : value) :
  Stable (Controller_trigger env c type event).
Proof.
  assert (forall args l, Stable (run_listeners env args l)) as Hl.
  { intros args l. induction l as [| [k h] l IH]; simpl; [apply Stable_ret |].
    apply Stable_bind; [apply Stable_run_listener | intros _; exact IH]. }
  unfold Controller_trigger. stable_go; apply Hl.
Qed.

Lemma Stable_register (api : aid) : Stable (register api).
Proof. unfold register. stable_go. Qed.

Lemma Stable_set_debug (d : value) : Stable (set_debug d).
Proof.
  unfold set_debug. apply preserves_modify. intros w. apply stable_set_window_jwplayer.
Qed.

End StableApi.

(** ** Delivery of an event to the subscribers *)

Lemma set_a_events_id (s : ApiState) : set_a_events (a_events s) s = s.
Proof. destruct s; reflexivity. Qed.

Lemma delivered_refl (a : aid) (s : ApiState) (w : World) :
  apis w !! a = Some s -> delivered a s w w [].
Proof.
  intros Hs. repeat split; try reflexivity.
  - symmetry. apply app_nil_r.
  - constructor.
  - exists (a_events s). split; [| reflexivity].
    rewrite set_a_events_id. symmetry. apply list_insert_id. exact Hs.
Qed.

Lemma delivered_handle (a : aid) (s : ApiState) (w w' : World) (d : list Event) :
  apis w !! a = Some s -> delivered a s w w' d ->
  exists l', apis w' !! a = Some (set_a_events l' s)
    /\ List.filter persistent l' = List.filter persistent (a_events s).
Proof.
  intros Hs (_ & _ & _ & l' & Hl' & Hp). exists l'. split; [| exact Hp].
  rewrite Hl'. apply list_lookup_insert_eq. eapply lookup_lt_Some; eauto.
Qed.

Lemma delivered_trans (a : aid) (s : ApiState) (w1 w2 w3 : World) (l2 : list (string * sub))
    (d1 d2 : list Event) :
  delivered a s w1 w2 d1 ->
  delivered a (set_a_events l2 s) w2 w3 d2 ->
  apis w2 = <[a := set_a_events l2 s]> (apis w1) ->
  List.filter persistent l2 = List.filter persistent (a_events s) ->
  delivered a s w1 w3 (d1 ++ d2).
Proof.
  intros (Ho1 & Ht1 & Hd1 & _) (Ho2 & Ht2 & Hd2 & l3 & Hl3 & Hp3) Hl2 Hp2.
  destruct Ho1 as (? & ? & ? & ? & ?). destruct Ho2 as (? & ? & ? & ? & ?).
  repeat split; try congruence.
  - rewrite Ht2, Ht1. symmetry. apply app_assoc.
  - apply Forall_app. tauto.
  - exists l3. split.
    + rewrite Hl3, Hl2. simpl. apply list_insert_insert_eq.
    + rewrite Hp3. simpl. exact Hp2.
Qed.

Lemma delivered_compose (a : aid) (s s2 : ApiState) (w1 w2 w3 : World)
    (d1 d2 : list Event) :
  apis w1 !! a = Some s ->
  delivered a s w1 w2 d1 ->
  apis w2 !! a = Some s2 ->
  delivered a s2 w2 w3 d2 ->
  delivered a s w1 w3 (d1 ++ d2).
Proof.
  intros Hs Hd1 Hs2 Hd2.
  destruct Hd1 as (Ho1 & Ht1 & Hf1 & l1 & Hl1 & Hp1).
  assert (s2 = set_a_events l1 s) as ->.
  { rewrite Hl1 in Hs2.
    rewrite list_lookup_insert_eq in Hs2 by (eapply lookup_lt_Some; eauto).
    congruence. }
  apply (delivered_trans a s w1 w2 w3 l1); try assumption.
  split; [exact Ho1 |]. split; [exact Ht1 |]. split; [exact Hf1 |].
  exists l1. split; assumption.
Qed.

Lemma once_removed_persistent (e : string * sub) (l : list (string * sub)) :
  s_once e.2 = true ->
  List.filter persistent (once_removed e l) = List.filter persistent l.
Proof.
  intros He. unfold once_removed.
  destruct (list_find (fun x => x = e) l) as [[i x] |] eqn:Hf; [| reflexivity].
  apply list_find_Some in Hf as (Hi & -> & _).
  revert i Hi. induction l as [| y l IH]; intros i Hi; [discriminate |].
  destruct i as [| i]; simpl in *.
  - injection Hi as ->. unfold persistent at 2. rewrite He. reflexivity.
  - rewrite (IH i Hi). reflexivity.
Qed.

Lemma invocations_call_of (a : aid) (args : list value) (e : string * sub) :
  invocations (call_of a args e) = call_of a args e.
Proof.
  unfold call_of, sub_call. destruct (s_callback e.2); reflexivity.
Qed.

Section Delivery.

Context (env : Env) (a : aid).

(** One subscription fires: either its callback is an external function,
    which is called and answers, or calling it is a TypeError. *)
Lemma invoke_sub_spec (args : list value) (e : string * sub) (w : World) (s : ApiState) :
  apis w !! a = Some s ->
  exists w' l',
    world_of (invoke_sub env a args e w) = Some w'
    /\ delivered a s w w' (call_of a args e)
    /\ apis w' = <[a := set_a_events l' s]> (apis w)
    /\ List.filter persistent l' = List.filter persistent (a_events s)
    /\ (forall x w'', invoke_sub env a args e w = Ok x w'' -> is_Some (sub_call a args e)).
Proof.
  intros Hs. unfold invoke_sub.
  set (l1 := if s_once e.2 then once_removed e (a_events s) else a_events s).
  set (w1 := set_apis (<[a := set_a_events l1 s]> (apis w)) w).
  assert ((if s_once e.2
           then update_api a (fun st => set_a_events (once_removed e (a_events st)) st)
           else mret ()) w = Ok tt w1) as Hfirst.
  { subst w1 l1. destruct (s_once e.2).
    - unfold update_api. rewrite (bind_ok _ _ _ _ _ (api_state_ok _ _ _ Hs)). reflexivity.
    - simpl. rewrite set_a_events_id, list_insert_id by exact Hs.
      destruct w; reflexivity. }
  rewrite (bind_ok _ _ _ _ _ Hfirst).
  assert (List.filter persistent l1 = List.filter persistent (a_events s)) as Hp.
  { subst l1. destruct (s_once e.2) eqn:Ho; [| reflexivity].
    apply once_removed_persistent. exact Ho. }
  assert (forall d, Forall (fun ev => is_delivery ev = true) d ->
            delivered a s w (set_trace (trace w1 ++ d) w1) d) as Hdel.
  { intros d Hd. split; [repeat split |]. split; [reflexivity |]. split; [exact Hd |].
    exists l1. split; [reflexivity | exact Hp]. }
  assert (delivered a s w w1 []) as Hdel0.
  { split; [repeat split |]. split; [symmetry; apply app_nil_r |]. split; [constructor |].
    exists l1. split; [reflexivity | exact Hp]. }
  unfold call_of, sub_call, call_value.
  destruct (s_callback e.2) as [| | | | | | f | |] eqn:Hcb; simpl.
  1-6,8-9: exists w1, l1; split; [reflexivity |]; split; [exact Hdel0 |];
    split; [reflexivity |]; split; [exact Hp | discriminate].
  rewrite !bind_unfold. simpl. unfold answer.
  match goal with |- context [fn_result env f ?t ?l ?w2] =>
    destruct (fn_result env f t l w2) end.
  all: eexists _, l1; split; [reflexivity |]; split;
    [apply Hdel; repeat constructor |];
    split; [reflexivity |]; split; [exact Hp | eauto].
Qed.

Lemma deliverSafe_spec (args : list value) (subs : list (string * sub)) :
  forall (w : World) (s : ApiState),
  apis w !! a = Some s ->
  exists w' d,
    deliverSafe env a args subs w = Ok tt w'
    /\ delivered a s w w' d
    /\ invocations d = calls_of a args subs.
Proof.
  induction subs as [| e rest IH]; intros w s Hs; simpl.
  - exists w, []. split; [reflexivity |]. split; [apply delivered_refl; exact Hs | reflexivity].
  - destruct (invoke_sub_spec args e w s Hs) as (w1 & l1 & Hw1 & Hd1 & Ha1 & Hp1 & _).
    assert (exists w1' d1, contained (invoke_sub env a args e) w = Ok tt w1'
              /\ delivered a s w w1' d1
              /\ apis w1' = <[a := set_a_events l1 s]> (apis w)
              /\ invocations d1 = call_of a args e)
      as (w1' & d1 & Hc & Hd1' & Ha1' & Hi1).
    { unfold contained.
      destruct (invoke_sub env a args e w) as [x w0 | x w0 | why] eqn:Hr;
        simpl in Hw1; [| | discriminate]; injection Hw1 as ->.
      - eexists _, _. split; [reflexivity |]. split; [exact Hd1 |]. split; [exact Ha1 |].
        apply invocations_call_of.
      - eexists _, _. split; [reflexivity |]. split; [| split; [exact Ha1 |]].
        + destruct Hd1 as (Ho & Ht & Hf & Hl).
          split; [exact Ho |]. split; [simpl; rewrite Ht, <- app_assoc; reflexivity |].
          split; [| exact Hl].
          apply Forall_app. split; [exact Hf | repeat constructor].
        + unfold invocations. rewrite List.filter_app. simpl. rewrite app_nil_r.
          apply invocations_call_of. }
    assert (apis w1' !! a = Some (set_a_events l1 s)) as Hs1.
    { rewrite Ha1'. apply list_lookup_insert_eq. eapply lookup_lt_Some; eauto. }
    destruct (IH w1' _ Hs1) as (w2 & d2 & Hr2 & Hd2 & Hi2).
    exists w2, (d1 ++ d2). split; [| split].
    + rewrite (bind_ok _ _ _ _ _ Hc). exact Hr2.
    + eapply delivered_trans; eauto.
    + unfold invocations in *. rewrite List.filter_app, Hi1, Hi2. reflexivity.
Qed.

Lemma deliver_spec (args : list value) (subs : list (string * sub)) :
  forall (w : World) (s : ApiState),
  apis w !! a = Some s ->
  exists w' d,
    world_of (deliver env a args subs w) = Some w'
    /\ delivered a s w w' d
    /\ invocations d = d
    /\ d `prefix_of` calls_of a args subs
    /\ (forall x w'', deliver env a args subs w = Ok x w'' -> d = calls_of a args subs).
Proof.
  induction subs as [| e rest IH]; intros w s Hs; simpl.
  - exists w, []. split; [reflexivity |]. split; [apply delivered_refl; exact Hs |].
    split; [reflexivity |]. split; [reflexivity | reflexivity].
  - destruct (invoke_sub_spec args e w s Hs) as (w1 & l1 & Hw1 & Hd1 & Ha1 & Hp1 & Hok1).
    rewrite bind_unfold.
    assert (apis w1 !! a = Some (set_a_events l1 s)) as Hs1.
    { rewrite Ha1. apply list_lookup_insert_eq. eapply lookup_lt_Some; eauto. }
    pose proof (invocations_call_of a args e) as Hinv.
    assert (call_of a args e `prefix_of` calls_of a args (e :: rest)) as Hpre.
    { unfold calls_of. simpl. apply prefix_app_r. reflexivity. }
    destruct (invoke_sub env a args e w) as [x w0 | x w0 | why] eqn:Hr;
      simpl in Hw1; [| | discriminate]; injection Hw1 as ->.
    + destruct (IH w1 _ Hs1) as (w2 & d2 & Hr2 & Hd2 & Hi2 & Hp2 & Hok2).
      exists w2, (call_of a args e ++ d2).
      split; [exact Hr2 |]. split; [eapply delivered_trans; eauto |].
      split; [| split].
      * unfold invocations in *. rewrite List.filter_app, Hinv, Hi2. reflexivity.
      * unfold calls_of. simpl. apply prefix_app. exact Hp2.
      * intros y w'' Hy. rewrite (Hok2 _ _ Hy). reflexivity.
    + exists w1, (call_of a args e).
      split; [reflexivity |]. split; [exact Hd1 |]. split; [exact Hinv |].
      split; [exact Hpre | discriminate].
Qed.

End Delivery.

(** ** [trigger] *)

Lemma lookup_snoc {A} (l : list A) (x : A) : (l ++ [x]) !! length l = Some x.
Proof. apply list_lookup_middle. reflexivity. Qed.

Lemma insert_snoc {A} (l : list A) (x y : A) : <[length l := y]> (l ++ [x]) = l ++ [y].
Proof.
  replace (length l) with (length l + 0) by lia.
  rewrite insert_app_r. reflexivity.
Qed.

Lemma normalize_payload_spec (name args : value) (w : World) :
  (forall l, args = VObj l -> is_Some (heap w !! l)) ->
  normalize_payload name args w = Ok (VObj (length (heap w))) (normalized name args w).
Proof.
  intros Hargs. unfold normalize_payload.
  assert ((if isObject args then own_fields args else mret []) w
          = Ok (payload_fields w args) w) as Hf.
  { unfold payload_fields. destruct args; try reflexivity.
    destruct (Hargs l eq_refl) as [o Ho].
    unfold isObject, own_fields, read_obj. rewrite Ho. reflexivity. }
  clear Hargs.
  rewrite (bind_ok _ _ _ _ _ Hf).
  unfold alloc, set_member, read_obj. rewrite !bind_unfold. simpl.
  rewrite !bind_unfold. simpl. rewrite lookup_snoc. simpl.
  rewrite insert_snoc, <- app_assoc. reflexivity.
Qed.

Section Trigger.

Context (env : Env) (this : aid).

Lemma Events_triggerSafe_spec (name payload : value) (w : World) (s : ApiState) :
  apis w !! this = Some s ->
  exists w' d,
    Events_triggerSafe env this name payload w = Ok (VApi this) w'
    /\ delivered this s w w' d
    /\ invocations d
       = calls_of this [payload] (subscribers (to_key env name) (a_events s))
         ++ calls_of this [name; payload] (subscribers "all" (a_events s)).
Proof.
  intros Hs. unfold Events_triggerSafe.
  rewrite (bind_ok _ _ _ _ _ (api_state_ok _ _ _ Hs)).
  destruct (deliverSafe_spec env this [payload] (subscribers (to_key env name) (a_events s)) w s Hs)
    as (w1 & d1 & Hr1 & Hd1 & Hi1).
  rewrite (bind_ok _ _ _ _ _ Hr1).
  destruct (delivered_handle _ _ _ _ _ Hs Hd1) as (l1 & Hs1 & Hp1).
  destruct (deliverSafe_spec env this [name; payload] (subscribers "all" (a_events s)) w1 _ Hs1)
    as (w2 & d2 & Hr2 & Hd2 & Hi2).
  rewrite (bind_ok _ _ _ _ _ Hr2).
  exists w2, (d1 ++ d2). split; [reflexivity |]. split.
  - eapply delivered_compose; eauto.
  - unfold invocations in *. rewrite List.filter_app, Hi1, Hi2. reflexivity.
Qed.

Lemma Events_trigger_spec (name payload : value) (w : World) (s : ApiState) :
  apis w !! this = Some s ->
  exists w' d,
    world_of (Events_trigger env this name payload w) = Some w'
    /\ delivered this s w w' d
    /\ invocations d = d
    /\ d `prefix_of`
         calls_of this [payload] (subscribers (to_key env name) (a_events s))
         ++ calls_of this [name; payload] (subscribers "all" (a_events s))
    /\ (forall x w'', Events_trigger env this name payload w = Ok x w'' ->
          x = VApi this
          /\ d = calls_of this [payload] (subscribers (to_key env name) (a_events s))
                 ++ calls_of this [name; payload] (subscribers "all" (a_events s))).
Proof.
  intros Hs. unfold Events_trigger.
  rewrite (bind_ok _ _ _ _ _ (api_state_ok _ _ _ Hs)).
  destruct (deliver_spec env this [payload] (subscribers (to_key env name) (a_events s)) w s Hs)
    as (w1 & d1 & Hr1 & Hd1 & Hi1 & Hp1 & Hok1).
  rewrite bind_unfold.
  destruct (deliver env this [payload] (subscribers (to_key env name) (a_events s)) w)
    as [x w0 | x w0 | why] eqn:Hr; simpl in Hr1; [| | discriminate]; injection Hr1 as ->.
  - destruct (delivered_handle _ _ _ _ _ Hs Hd1) as (l1 & Hs1 & Hl1).
    destruct (deliver_spec env this [name; payload] (subscribers "all" (a_events s)) w1 _ Hs1)
      as (w2 & d2 & Hr2 & Hd2 & Hi2 & Hp2 & Hok2).
    exists w2, (d1 ++ d2). split; [| split; [| split; [| split]]].
    + rewrite bind_unfold.
      destruct (deliver env this [name; payload] (subscribers "all" (a_events s)) w1);
        simpl in *; congruence.
    + eapply delivered_compose; eauto.
    + unfold invocations in *. rewrite List.filter_app, Hi1, Hi2. reflexivity.
    + rewrite (Hok1 _ _ eq_refl). apply prefix_app. exact Hp2.
    + intros y w'' Hy. rewrite bind_unfold in Hy.
      destruct (deliver env this [name; payload] (subscribers "all" (a_events s)) w1)
        as [z w3 | z w3 | why] eqn:Hr3; try discriminate.
      simpl in Hy. injection Hy as <- <-.
      split; [reflexivity |].
      rewrite (Hok1 _ _ eq_refl), (Hok2 _ _ eq_refl). reflexivity.
  - exists w1, d1. split; [reflexivity |]. split; [exact Hd1 |]. split; [exact Hi1 |].
    split; [| discriminate].
    apply prefix_app_r. exact Hp1.
Qed.

End Trigger.

(** ** Exact results of the elementary steps *)

Lemma lookup_insert_same {A} (l : list A) (i : nat) (x y : A) :
  l !! i = Some x -> <[i := y]> l !! i = Some y.
Proof. intros H. apply list_lookup_insert_eq. eapply lookup_lt_Some; eauto. Qed.

Lemma filter_none {A} (f : A -> bool) (l : list A) :
  (forall x, f x = false) -> List.filter f l = [].
Proof.
  intros Hf. induction l as [| x l IH]; simpl; [reflexivity |].
  rewrite Hf. exact IH.
Qed.

Lemma update_api_ok (a : aid) (f : ApiState -> ApiState) (w : World) (s : ApiState) :
  apis w !! a = Some s ->
  update_api a f w = Ok tt (set_apis (<[a := f s]> (apis w)) w).
Proof.
  intros Hs. unfold update_api.
  rewrite (bind_ok _ _ _ _ _ (api_state_ok _ _ _ Hs)). reflexivity.
Qed.

Lemma get_member_obj_ok (l : loc) (k : string) (w : World) (o : list (string * value)) :
  heap w !! l = Some o ->
  get_member (VObj l) k w = Ok (default VUndefined (field k o)) w.
Proof.
  intros Ho. unfold get_member.
  rewrite (bind_ok _ _ _ _ _ (read_obj_ok _ _ _ Ho)). reflexivity.
Qed.

Section Steps.

Context (env : Env).

Lemma subscribe_ok (once : bool) (a : aid) (name callback context : value)
    (w : World) (s : ApiState) :
  apis w !! a = Some s ->
  let e := (to_key env name,
            {| s_callback := callback; s_context := context; s_once := once |}) in
  subscribe env once a name callback context w
  = Ok (VApi a)
       (set_trace (trace w ++ [EvOn a e.1 e.2])
          (set_apis (<[a := set_a_events (a_events s ++ [e]) s]> (apis w)) w)).
Proof.
  intros Hs e. unfold subscribe.
  rewrite (bind_ok _ _ _ _ _ (update_api_ok _ _ _ _ Hs)). reflexivity.
Qed.

Lemma Events_off_all_ok (a : aid) (w : World) (s : ApiState) :
  apis w !! a = Some s ->
  Events_off env a VUndefined VUndefined VUndefined w
  = Ok (VApi a)
       (set_trace (trace w ++ [EvOff a VUndefined VUndefined VUndefined])
          (set_apis (<[a := set_a_events [] s]> (apis w)) w)).
Proof.
  intros Hs. unfold Events_off.
  rewrite (bind_ok _ _ _ _ _ (update_api_ok _ _ _ _ Hs)).
  rewrite filter_none by reflexivity. reflexivity.
Qed.

Lemma Controller_off_ok (c : cid) (w : World) (cs : CtrlState) :
  ctrls w !! c = Some cs ->
  Controller_off c w
  = Ok tt (set_trace (trace w ++ [EvCtrlOff c])
             (set_ctrls (<[c := {| c_element := c_element cs; c_listeners := [] |}]> (ctrls w)) w)).
Proof.
  intros Hc. unfold Controller_off.
  rewrite (bind_ok _ _ _ _ _ (ctrl_state_ok _ _ _ Hc)). reflexivity.
Qed.

Lemma Controller_apply_eq (c : cid) (name : string) (args : list value) (w : World) :
  Controller_apply env c name args w
  = match ctrl_result env c name args (set_trace (trace w ++ [EvCtrlCall c name args]) w) with
    | Returns v => Ok v (set_trace (trace w ++ [EvCtrlCall c name args]) w)
    | Throws e => Throw e (set_trace (trace w ++ [EvCtrlCall c name args]) w)
    end.
Proof. reflexivity. Qed.

Lemma resetPlayer_spec (api : aid) (c : cid) (w : World) (s : ApiState) (cs : CtrlState) :
  apis w !! api = Some s ->
  ctrls w !! c = Some cs ->
  let w1 := detached api c s cs w in
  let w2 := set_trace (trace w1 ++ [EvCtrlCall c "playerDestroy" []]) w1 in
  resetPlayer env api c w
  = match ctrl_member env c "playerDestroy" with
    | Falsy => Ok tt w1
    | TruthyData => Throw TypeError w1
    | Callable =>
        match ctrl_result env c "playerDestroy" [] w2 with
        | Returns _ => Ok tt w2
        | Throws e => Throw e w2
        end
    end.
Proof.
  intros Hs Hc w1 w2. unfold resetPlayer, Api_off.
  rewrite (bind_ok _ _ _ _ _ (Events_off_all_ok _ _ _ Hs)). cbv beta.
  erewrite bind_ok; [cbv beta | apply Controller_off_ok; exact Hc].
  assert (w1 = set_trace
           (trace (set_trace (trace w ++ [EvOff api VUndefined VUndefined VUndefined])
                     (set_apis (<[api := set_a_events [] s]> (apis w)) w)) ++ [EvCtrlOff c])
           (set_ctrls (<[c := {| c_element := c_element cs; c_listeners := [] |}]>
                         (ctrls (set_trace (trace w ++ [EvOff api VUndefined VUndefined VUndefined])
                                   (set_apis (<[api := set_a_events [] s]> (apis w)) w))))
              (set_trace (trace w ++ [EvOff api VUndefined VUndefined VUndefined])
                 (set_apis (<[api := set_a_events [] s]> (apis w)) w)))) as <-.
  { subst w1. unfold detached. simpl. rewrite <- app_assoc. reflexivity. }
  destruct (ctrl_member env c "playerDestroy"); try reflexivity.
  rewrite bind_unfold, Controller_apply_eq. fold w2.
  destruct (ctrl_result env c "playerDestroy" [] w2); reflexivity.
Qed.

Lemma Controller_new_ok (el : Element) (w : World) :
  Controller_new el w
  = Ok (length (ctrls w))
       (set_trace (trace w ++ [EvCtrlNew (length (ctrls w)) el])
          (set_ctrls (ctrls w ++ [{| c_element := el; c_listeners := [] |}]) w)).
Proof. reflexivity. Qed.

Lemma setupController_ok (api : aid) (el : Element) (w : World) :
  setupController env api el w = Ok (length (ctrls w)) (attached env api el w).
Proof.
  unfold setupController. rewrite (bind_ok _ _ _ _ _ (Controller_new_ok el w)).
  unfold Controller_on, ctrl_state. rewrite !bind_unfold. simpl.
  rewrite lookup_snoc. simpl. rewrite !bind_unfold. simpl.
  rewrite insert_snoc, lookup_snoc. simpl.
  rewrite insert_snoc. unfold attached. rewrite <- !app_assoc. reflexivity.
Qed.

End Steps.

(** A record stored in the plugin map is what [getPlugin] finds under its
    name, whatever the name. *)
Lemma Api_getPlugin_stored (env : Env) (this : aid) (name : value) (l : loc)
    (w : World) (s : ApiState) :
  apis w !! this = Some s ->
  field (to_key env name) (a_plugins s) = Some (VObj l) ->
  Api_getPlugin env this name w = Ok (VObj l) w.
Proof.
  intros Hs Hf. unfold Api_getPlugin.
  rewrite (bind_ok _ _ _ _ _ (api_state_ok _ _ _ Hs)). cbv zeta.
  destruct (decide (to_key env name = "__proto__")) as [Hk | Hk].
  - rewrite <- Hk, Hf. reflexivity.
  - rewrite Hf. reflexivity.
Qed.

(** ** More fuel changes nothing

    The fuel of [Api_member] only bounds how deep [setup] may call [setup]
    through a binding: a call that ends with some fuel ends the same way
    with any larger fuel. *)

Lemma refines_refl {A} (m : M A) : refines m m.
Proof. intros w _. reflexivity. Qed.

Lemma refines_bind {A B} (m m' : M A) (k k' : A -> M B) :
  refines m m' -> (forall x, refines (k x) (k' x)) -> refines (m ≫= k) (m' ≫= k').
Proof.
  intros Hm Hk w. rewrite !bind_unfold. intros Hw.
  assert (m' w = m w) as -> by (apply Hm; destruct (m w); simpl in *; congruence).
  destruct (m w) as [x w1 | e w1 | why]; [apply Hk; exact Hw | reflexivity | reflexivity].
Qed.

Lemma refines_foreach_fields (f f' : string -> value -> M unit) (o : list (string * value)) :
  (forall k v, refines (f k v) (f' k v)) ->
  refines (foreach_fields f o) (foreach_fields f' o).
Proof.
  intros Hf. induction o as [| [k v] o IH]; simpl; [apply refines_refl |].
  apply refines_bind; [apply Hf | intros _; exact IH].
Qed.

Lemma refines_Api_setup_with (env : Env)
    (member member' : nat -> string -> option (list value -> M value))
    (this : aid) (options : value) :
  (forall name, member_refines (member this name) (member' this name)) ->
  refines (Api_setup_with env member this options) (Api_setup_with env member' this options).
Proof.
  intros Hmem. unfold Api_setup_with.
  do 6 (apply refines_bind; [apply refines_refl | intros ?]).
  apply refines_bind; [apply refines_refl | intros evs].
  apply refines_bind; [| intros ?; apply refines_refl].
  unfold utils_foreach. destruct evs; try apply refines_refl.
  all: apply refines_bind; [apply refines_refl | intros o].
  all: apply refines_foreach_fields; intros k v.
  all: pose proof (Hmem k) as Hk; unfold member_refines in Hk.
  all: destruct (member this k) as [g |], (member' this k) as [g' |];
    try contradiction; [| apply refines_refl].
  all: apply refines_bind; [apply refines_refl | intros _].
  all: apply refines_bind; [apply Hk | intros _; apply refines_refl].
Qed.

Lemma Api_member_more_fuel (env : Env) (fuel : nat) (this : aid) (name : string) :
  member_refines (Api_member env fuel this name) (Api_member env (S fuel) this name).
Proof.
  revert this name. induction fuel as [| fuel IH]; intros this name; cbn [Api_member].
  all: destruct (decide (name = "callInternal")); [intros args; apply refines_refl |].
  all: destruct (decide (name = "setup")).
  1: { intros args w Hw. simpl in Hw. congruence. }
  2: { intros args. apply refines_Api_setup_with. intros name'. apply IH. }
  all: destruct (decide (name = "remove")); [intros args; apply refines_refl |].
  all: case_bool_decide; [exact I |].
  all: destruct (assoc name (Api_prototype env)); [intros args; apply refines_refl |].
  all: destruct (decide (name = "constructor")); [intros args; apply refines_refl |].
  all: repeat case_decide;
    match goal with |- member_refines ?f ?f =>
      destruct f; [intros args; apply refines_refl | exact I] end.
Qed.

Lemma Api_setup_more_fuel (env : Env) (fuel fuel' : nat) (this : aid) (options : value)
    (w : World) :
  fuel <= fuel' ->
  world_of (Api_setup env fuel this options w) <> None ->
  Api_setup env fuel' this options w = Api_setup env fuel this options w.
Proof.
  induction 1 as [| fuel' _ IH]; intros Hw; [reflexivity |].
  rewrite <- (IH Hw). unfold Api_setup.
  apply (refines_Api_setup_with env (Api_member env fuel') (Api_member env (S fuel'))).
  - intros name. apply Api_member_more_fuel.
  - fold (Api_setup env fuel' this options). rewrite (IH Hw). exact Hw.
Qed.

(** ** Objects that are no records of the heap *)

(** Delivering an event writes to no property of any object: the one write
    of [trigger] goes to the record it has just created. *)

Lemma untouched_refl (w : World) : untouched w w.
Proof. reflexivity. Qed.

Lemma untouched_trans (w1 w2 w3 : World) :
  untouched w1 w2 -> untouched w2 w3 -> untouched w1 w3.
Proof. unfold untouched. congruence. Qed.

Create HintDb untouched.

Section UntouchedOps.

Context (env : Env).

Lemma Untouched_bind {A B} (m : M A) (k : A -> M B) :
  Untouched m -> (forall x, Untouched (k x)) -> Untouched (m ≫= k).
Proof. intros Hm Hk. eapply preserves_bind; eauto using untouched_trans. Qed.

Lemma Untouched_ret {A} (x : A) : Untouched (mret x).
Proof. apply preserves_ret, untouched_refl. Qed.

Lemma Untouched_throw {A} (e : value) : Untouched (throw (A := A) e).
Proof. apply preserves_throw, untouched_refl. Qed.

Lemma Untouched_gets {A} (f : World -> A) : Untouched (gets f).
Proof. apply preserves_gets, untouched_refl. Qed.

Lemma Untouched_answer (o : World -> outcome) : Untouched (answer o).
Proof. apply preserves_answer, untouched_refl. Qed.

Lemma Untouched_api_state (b : aid) : Untouched (api_state b).
Proof. apply preserves_api_state; [apply untouched_refl | exact I]. Qed.

Lemma Untouched_modify (f : World -> World) :
  (forall w, props (f w) = props w) -> Untouched (modify f).
Proof. intros Hf. apply preserves_modify. exact Hf. Qed.

Lemma Untouched_log (e : Event) : Untouched (log e).
Proof. apply Untouched_modify. reflexivity. Qed.

Lemma Untouched_update_api (a : aid) (f : ApiState -> ApiState) : Untouched (update_api a f).
Proof.
  unfold update_api. apply Untouched_bind; [apply Untouched_api_state |].
  intros s. apply Untouched_modify. reflexivity.
Qed.

Lemma Untouched_call_value (fn this : value) (args : list value) :
  Untouched (call_value env fn this args).
Proof.
  unfold call_value. destruct fn; try apply Untouched_throw.
  apply Untouched_bind; [apply Untouched_log | intros _; apply Untouched_answer].
Qed.

Lemma Untouched_invoke_sub (a : aid) (args : list value) (e : string * sub) :
  Untouched (invoke_sub env a args e).
Proof.
  unfold invoke_sub. apply Untouched_bind; [| intros _; apply Untouched_call_value].
  destruct (s_once e.2); [apply Untouched_update_api | apply Untouched_ret].
Qed.

Lemma Untouched_deliver (a : aid) (args : list value) (subs : list (string * sub)) :
  Untouched (deliver env a args subs).
Proof.
  induction subs as [| e rest IH]; simpl; [apply Untouched_ret |].
  apply Untouched_bind; [apply Untouched_invoke_sub | intros _; exact IH].
Qed.

Lemma Untouched_deliverSafe (a : aid) (args : list value) (subs : list (string * sub)) :
  Untouched (deliverSafe env a args subs).
Proof.
  induction subs as [| e rest IH]; simpl; [apply Untouched_ret |].
  apply Untouched_bind; [| intros _; exact IH].
  apply preserves_contained; [apply untouched_trans | apply Untouched_invoke_sub |].
  intros x. apply Untouched_log.
Qed.

Lemma Untouched_Events_trigger (a : aid) (name payload : value) :
  Untouched (Events_trigger env a name payload).
Proof.
  unfold Events_trigger. apply Untouched_bind; [apply Untouched_api_state | intros st].
  apply Untouched_bind; [apply Untouched_deliver | intros _].
  apply Untouched_bind; [apply Untouched_deliver | intros _; apply Untouched_ret].
Qed.

Lemma Untouched_Events_triggerSafe (a : aid) (name payload : value) :
  Untouched (Events_triggerSafe env a name payload).
Proof.
  unfold Events_triggerSafe. apply Untouched_bind; [apply Untouched_api_state | intros st].
  apply Untouched_bind; [apply Untouched_deliverSafe | intros _].
  apply Untouched_bind; [apply Untouched_deliverSafe | intros _; apply Untouched_ret].
Qed.

End UntouchedOps.

(** *** What the constructor gives a handle *)

Lemma Api_constructor_ok (env : Env) (el : Element) (w : World) :
  exists w',
    Api_constructor env el w = Ok (length (apis w)) w'
    /\ instancesCreated w' = S (instancesCreated w)
    /\ apis w' = apis w ++ [{| a_element := el; a_id := el_id el;
                               a_uniqueId := instancesCreated w; a_plugins := [];
                               a_events := []; a_controller := length (ctrls w) |}].
Proof.
  eexists. unfold Api_constructor, qoe_tick.
  repeat (erewrite bind_ok; [cbv beta | first [apply setupController_ok | reflexivity]]).
  split; [reflexivity |]. split; reflexivity.
Qed.

Lemma Api_constructor_props (env : Env) (el : Element) (w w' : World) (this : aid) :
  Api_constructor env el w = Ok this w' ->
  props w' = put_own (VApi this) (own_members env this) (props w).
Proof.
  unfold Api_constructor, qoe_tick.
  repeat (erewrite bind_ok; [cbv beta | first [apply setupController_ok | reflexivity]]).
  intros [= <- <-]. reflexivity.
Qed.

Lemma Api_constructor_members (env : Env) (el : Element) (w w' : World) (this : aid) :
  Api_constructor env el w = Ok this w' ->
  own_props w' (VApi this) = own_members env this.
Proof.
  intros Hc. unfold own_props. rewrite (Api_constructor_props env el w w' this Hc).
  rewrite own_of_put_own, decide_True by reflexivity. reflexivity.
Qed.

Lemma step_stable_or_construct (env : Env) (w w' : World) :
  step env w w' ->
  stable w w' \/ exists el, Api_constructor env el w = Ok (length (apis w)) w'.
Proof.
  intros [el this Hc | api Hr | fuel this name fn args Hfn Hw | c type event Hw | d Hd | o l Ha].
  - right. exists el. destruct (Api_constructor_ok env el w) as (w'' & Hok & _).
    rewrite Hok in Hc. injection Hc as <- <-. exact Hok.
  - left. pose proof (Stable_register api w) as H. rewrite Hr in H. exact H.
  - left. pose proof (Stable_Api_member env fuel this name fn args Hfn w) as H.
    destruct (fn args w); simpl in Hw; try discriminate; injection Hw as <-; exact H.
  - left. pose proof (Stable_Controller_trigger env c type event w) as H.
    destruct (Controller_trigger env c type event w); simpl in Hw; try discriminate;
      injection Hw as <-; exact H.
  - left. pose proof (Stable_set_debug d w) as H. rewrite Hd in H. exact H.
  - left. pose proof (Quiet_Stable 0 _ (Quiet_alloc 0 o) w) as H. rewrite Ha in H. exact H.
Qed.

(** In every world a process can reach, the own properties of a handle
    begin with the four the constructor assigned, in that order: nothing the
    facade does removes or reorders a property. *)
Lemma reachable_handle_keys (env : Env) (w : World) :
  reachable env w ->
  forall a, a < length (apis w) ->
    take 4 (own_keys w (VApi a)) = ["_events"; "callInternal"; "setup"; "remove"].
Proof.
  induction 1 as [| w w' Hreach IH Hstep]; intros a Ha; [simpl in Ha; lia |].
  destruct (step_stable_or_construct env w w' Hstep) as [Hst | (el & Hc)].
  - rewrite (st_apis _ _ Hst) in Ha. specialize (IH a Ha).
    destruct (st_props _ _ Hst (VApi a)) as [ks Hks]. rewrite Hks.
    rewrite take_app_le; [exact IH |].
    assert (length (take 4 (own_keys w (VApi a))) = 4) as Hl by (rewrite IH; reflexivity).
    rewrite length_take in Hl. lia.
  - destruct (Api_constructor_ok env el w) as (w'' & Hok & _ & Hapis).
    rewrite Hok in Hc. injection Hc as <-.
    unfold own_keys, own_props.
    rewrite (Api_constructor_props env el w w'' _ Hok), own_of_put_own.
    destruct (decide (VApi a = VApi (length (apis w)))) as [_ | Hne]; [reflexivity |].
    apply IH. rewrite Hapis, length_app in Ha. simpl in Ha.
    assert (a <> length (apis w)) by congruence. lia.
Qed.

(** ** The call forwarder *)

(** C3. [callInternal(name, ...args)] resolves [name] against the controller
    the handle holds at the time of the call, and what it does depends on
    what the controller holds under that name.  A function is applied to
    exactly those arguments with the controller as receiver, and what it
    answers (a value, or the exception it raises) is what the call answers.
    With nothing there, or any other falsy value, the call returns null,
    leaves the world alone and raises nothing.  A truthy value that is not a
    function is applied all the same, which raises a TypeError: the guard
    of [callInternal] tests the member for truth, not for being a
    function.  The name is a string or another primitive, looked up under
    the property key JavaScript makes of it. *)
Theorem callInternal_resolves_on_current_controller
    (env : Env) (this : aid) (name : value) (args : list value)
    (w : World) (s : ApiState) :
  apis w !! this = Some s ->
  isObject name = false ->
  (ctrl_member env (a_controller s) (to_key env name) = Callable ->
     let w1 := set_trace (trace w ++ [EvCtrlCall (a_controller s) (to_key env name) args]) w in
     Api_callInternal env this name args w =
       match ctrl_result env (a_controller s) (to_key env name) args w1 with
       | Returns v => Ok v w1
       | Throws e => Throw e w1
       end)
  /\ (ctrl_member env (a_controller s) (to_key env name) = Falsy ->
        Api_callInternal env this name args w = Ok VNull w)
  /\ (ctrl_member env (a_controller s) (to_key env name) = TruthyData ->
        Api_callInternal env this name args w = Throw TypeError w).
Proof.
  intros Hs _. unfold Api_callInternal.
  rewrite (bind_ok _ _ _ _ _ (api_state_ok _ _ _ Hs)).
  split; [| split]; intros Hm; rewrite Hm; reflexivity.
Qed.

Lemma callInternal_resolves_on_current_controller_witness :
  apis demo_world !! 0 = Some demo_handle
  /\ Api_callInternal demo_env 0 (VStr "setVolume") [VNum 50] demo_world
     = Ok VUndefined
          (set_trace (trace demo_world ++ [EvCtrlCall 0 "setVolume" [VNum 50]]) demo_world)
  /\ Api_callInternal demo_env 0 (VStr "nonexistentOp") [] demo_world = Ok VNull demo_world.
Proof.
  split; [reflexivity |].
  pose proof (callInternal_resolves_on_current_controller
                demo_env 0 (VStr "setVolume") [VNum 50] demo_world demo_handle eq_refl eq_refl)
    as (H1 & _ & _).
  pose proof (callInternal_resolves_on_current_controller
                demo_env 0 (VStr "nonexistentOp") [] demo_world demo_handle eq_refl eq_refl)
    as (_ & H2 & _).
  split; [exact (H1 eq_refl) | exact (H2 eq_refl)].
Defined.

(** The controller of the fixture holds its container element under
    [originalContainer]: no operation exists under that name, and the call
    neither returns null nor refrains from raising. *)
Lemma callInternal_raises_on_data_member :
  ctrl_member demo_env 0 "originalContainer" <> Callable
  /\ Api_callInternal demo_env 0 (VStr "originalContainer") [] demo_world
     = Throw TypeError demo_world
  /\ Api_callInternal demo_env 0 (VStr "originalContainer") [] demo_world
     <> Ok VNull demo_world.
Proof. split; [| split]; [discriminate | reflexivity | discriminate]. Qed.

(** C10. [isBeforeComplete()] and [isBeforePlay()] forward to the controller
    through [callInternal] and drop what it answers: whenever the forwarded
    call returns, with whatever value, the accessor returns undefined in the
    same world; an exception of the forwarded call is passed on. *)
Theorem isBefore_accessors_return_undefined
    (env : Env) (this : aid) (w : World) :
  Api_isBeforeComplete env this w =
    match Api_callInternal env this (VStr "isBeforeComplete") [] w with
    | Ok _ w' => Ok VUndefined w'
    | Throw e w' => Throw e w'
    | Stuck why => Stuck why
    end
  /\ Api_isBeforePlay env this w =
    match Api_callInternal env this (VStr "isBeforePlay") [] w with
    | Ok _ w' => Ok VUndefined w'
    | Throw e w' => Throw e w'
    | Stuck why => Stuck why
    end.
Proof.
  split.
  - unfold Api_isBeforeComplete. rewrite bind_unfold.
    destruct (Api_callInternal env this (VStr "isBeforeComplete") [] w); reflexivity.
  - unfold Api_isBeforePlay. rewrite bind_unfold.
    destruct (Api_callInternal env this (VStr "isBeforePlay") [] w); reflexivity.
Qed.

(** The controller of the fixture answers true; the accessor does not. *)
Example isBeforePlay_drops_true :
  (exists w, Api_callInternal demo_env 0 (VStr "isBeforePlay") [] demo_world = Ok (VBool true) w)
  /\ (exists w, Api_isBeforePlay demo_env 0 demo_world = Ok VUndefined w).
Proof. split; eexists; reflexivity. Qed.

(** ** The event bus *)

Lemma field_set_field_eq (k : string) (v : value) (o : list (string * value)) :
  field k (set_field k v o) = Some v.
Proof.
  induction o as [| [k' v'] o IH]; simpl.
  - rewrite decide_True by reflexivity. reflexivity.
  - destruct (decide (k = k')) as [-> | Hne]; simpl.
    + rewrite decide_True by reflexivity. reflexivity.
    + rewrite decide_False by exact Hne. exact IH.
Qed.

Lemma field_set_field_ne (k k0 : string) (v : value) (o : list (string * value)) :
  k0 <> k -> field k0 (set_field k v o) = field k0 o.
Proof.
  intros Hne. induction o as [| [k' v'] o IH]; simpl.
  - rewrite decide_False by exact Hne. reflexivity.
  - destruct (decide (k = k')) as [-> | Hne']; simpl.
    + rewrite !decide_False by exact Hne. reflexivity.
    + destruct (decide (k0 = k')); [reflexivity | exact IH].
Qed.

Lemma Api_trigger_dispatch (env : Env) (this : aid) (name args : value) (w : World) :
  (forall l, args = VObj l -> is_Some (heap w !! l)) ->
  Api_trigger env this name args w
  = if debug_enabled w
    then Events_trigger env this name (VObj (length (heap w))) (normalized name args w)
    else Events_triggerSafe env this name (VObj (length (heap w))) (normalized name args w).
Proof.
  intros Hargs.
  unfold Api_trigger. rewrite (bind_ok _ _ _ _ _ (normalize_payload_spec name args w Hargs)).
  rewrite bind_unfold. unfold gets, debug_enabled. simpl.
  destruct (window_jwplayer w) as [d |]; [destruct (truthy d) |]; reflexivity.
Qed.

(** C4. [trigger(name, payload)] builds a new record for the subscribers.
    When the payload is not an object the record is empty; otherwise it
    holds the enumerable properties of the caller's object, in their order
    and with the values they have there: the fields of a record, or the own
    properties of a function, of a handle (in a reachable world
    [_events], [callInternal], [setup] and [remove] come first) or of a
    handle's store.  Then its [type] field is set to the event name.  Every
    subscriber call carries that new record; the caller's object is another
    one, and neither a record nor a property of any other object is
    written. *)
Theorem trigger_delivers_normalized_copy
    (env : Env) (this : aid) (name args : value) (w : World) (s : ApiState) :
  apis w !! this = Some s ->
  (forall l, args = VObj l -> is_Some (heap w !! l)) ->
  let p := length (heap w) in
  let payload := set_field "type" name (payload_fields w args) in
  let expected :=
    calls_of this [VObj p] (subscribers (to_key env name) (a_events s))
    ++ calls_of this [name; VObj p] (subscribers "all" (a_events s)) in
  exists w' d,
    world_of (Api_trigger env this name args w) = Some w'
    /\ trace w' = trace w ++ [EvAlloc p (payload_fields w args); EvWrite p "type" name] ++ d
    /\ invocations d `prefix_of` expected
    /\ (forall v w'', Api_trigger env this name args w = Ok v w'' -> invocations d = expected)
    /\ heap w' = heap w ++ [payload]
    /\ props w' = props w
    /\ field "type" payload = Some name
    /\ (forall k, k <> "type" -> field k payload = field k (payload_fields w args))
    /\ (isObject args = false -> payload = [("type", name)])
    /\ (forall l o, args = VObj l -> heap w !! l = Some o ->
          payload = set_field "type" name o /\ l <> p /\ heap w' !! l = Some o)
    /\ (isObject args = true -> (forall l, args <> VObj l) ->
          payload = set_field "type" name (own_props w args)
          /\ own_props w' args = own_props w args)
    /\ (forall a, args = VApi a -> reachable env w -> a < length (apis w) ->
          take 4 payload.*1 = ["_events"; "callInternal"; "setup"; "remove"])
    /\ (forall a, args = VApi a -> own_props w args = own_members env a ->
          payload = [("_events", VStore a);
                     ("callInternal", VFun (closure env a "callInternal"));
                     ("setup", VFun (closure env a "setup"));
                     ("remove", VFun (closure env a "remove"));
                     ("type", name)]).
Proof.
  intros Hs Hargs p payload expected.
  pose proof (Api_trigger_dispatch env this name args w Hargs) as Hdispatch.
  set (w0 := normalized name args w) in *.
  assert (apis w0 !! this = Some s) as Hs0 by exact Hs.
  assert (heap w0 = heap w ++ [payload]) as Hh0 by reflexivity.
  assert (trace w0 = trace w ++ [EvAlloc p (payload_fields w args); EvWrite p "type" name])
    as Ht0 by reflexivity.
  assert (exists w' d,
            world_of (Api_trigger env this name args w) = Some w'
            /\ delivered this s w0 w' d
            /\ props w' = props w
            /\ invocations d `prefix_of` expected
            /\ (forall v w'', Api_trigger env this name args w = Ok v w'' ->
                  invocations d = expected))
    as (w' & d & Hw' & Hd & Hprops & Hpre & Hok).
  { rewrite Hdispatch. destruct (debug_enabled w).
    - destruct (Events_trigger_spec env this name (VObj (length (heap w))) w0 s Hs0)
        as (w' & d & Hw' & Hd & Hi & Hp & Hok).
      exists w', d. split; [exact Hw' |]. split; [exact Hd |].
      split.
      { pose proof (Untouched_Events_trigger env this name (VObj (length (heap w))) w0) as Hu.
        destruct (Events_trigger env this name (VObj (length (heap w))) w0);
          simpl in Hw'; try discriminate; injection Hw' as <-; exact Hu. }
      rewrite Hi. split; [exact Hp |].
      intros v w'' Hv. apply (Hok _ _ Hv).
    - destruct (Events_triggerSafe_spec env this name (VObj (length (heap w))) w0 s Hs0)
        as (w' & d & Hw' & Hd & Hi).
      exists w', d. rewrite Hw'. split; [reflexivity |]. split; [exact Hd |].
      split.
      { pose proof (Untouched_Events_triggerSafe env this name (VObj (length (heap w))) w0)
          as Hu.
        rewrite Hw' in Hu. exact Hu. }
      rewrite Hi. split; [reflexivity |]. intros; reflexivity. }
  destruct Hd as ((_ & _ & _ & Hheap & _) & Htr & _ & _).
  exists w', d. split; [exact Hw' |].
  split; [rewrite Htr, Ht0, <- app_assoc; reflexivity |].
  split; [exact Hpre |]. split; [exact Hok |].
  split; [rewrite Hheap, Hh0; reflexivity |].
  split; [exact Hprops |].
  split; [apply field_set_field_eq |].
  split; [intros k Hk; apply field_set_field_ne; exact Hk |].
  split.
  { intros Hobj. subst payload. destruct args; try discriminate; reflexivity. }
  split.
  { intros l o -> Ho. subst payload. unfold payload_fields. rewrite Ho. simpl.
    split; [reflexivity |].
    pose proof (lookup_lt_Some _ _ _ Ho) as Hlt.
    split; [subst p; lia |].
    rewrite Hheap, Hh0. rewrite lookup_app_l by exact Hlt. exact Ho. }
  split.
  { intros Hobj Hrec. split.
    - subst payload. destruct args; try discriminate; try reflexivity.
      exfalso. eapply Hrec. reflexivity.
    - unfold own_props. rewrite Hprops. reflexivity. }
  split.
  { intros a -> Hreach Ha. subst payload. cbn [payload_fields].
    pose proof (reachable_handle_keys env w Hreach a Ha) as Hkeys.
    destruct (set_field_keys "type" name (own_props w (VApi a))) as [ks Hks].
    rewrite Hks. rewrite take_app_le; [exact Hkeys |].
    assert (length (take 4 (own_keys w (VApi a))) = 4) as Hl by (rewrite Hkeys; reflexivity).
    rewrite length_take in Hl. unfold own_keys in Hl. lia. }
  intros a -> Hown. subst payload. cbn [payload_fields]. rewrite Hown. reflexivity.
Qed.

Lemma trigger_delivers_normalized_copy_witness :
  exists w' d,
    world_of (Api_trigger demo_env 0 (VStr "x") (VObj 0) demo_world_subscribed) = Some w'
    /\ trace w' = trace demo_world_subscribed
                  ++ [EvAlloc 1 [("a", VNum 1)]; EvWrite 1 "type" (VStr "x")] ++ d
    /\ invocations d = [EvInvoke 1 (VApi 0) [VObj 1]; EvInvoke 7 (VApi 0) [VObj 1];
                        EvInvoke 2 (VApi 0) [VObj 1]]
    /\ heap w' = [[("a", VNum 1)]; [("a", VNum 1); ("type", VStr "x")]].
Proof.
  destruct (trigger_delivers_normalized_copy demo_env 0 (VStr "x") (VObj 0)
              demo_world_subscribed
              {| a_element := {| el_id := "player" |}; a_id := "player"; a_uniqueId := 0;
                 a_plugins := [];
                 a_events :=
                   [("x", {| s_callback := VFun 1; s_context := VUndefined; s_once := false |});
                    ("x", {| s_callback := VFun 7; s_context := VUndefined; s_once := false |});
                    ("x", {| s_callback := VFun 2; s_context := VUndefined; s_once := false |})];
                 a_controller := 0 |})
    as (w' & d & Hw & Ht & _ & Hok & Hh & _).
  - reflexivity.
  - intros l [= <-]. eexists. reflexivity.
  - exists w', d. split; [exact Hw |]. split; [exact Ht |]. split; [| exact Hh].
    apply (Hok (VApi 0) w'). revert Hw. vm_compute. intros [= <-]. reflexivity.
Defined.

(** A handle as payload: the record the subscribers receive holds the four
    own properties of the handle and the event name. *)
Example trigger_copies_a_handle :
  exists w',
    Api_trigger demo_env 0 (VStr "x") (VApi 0) demo_world_subscribed = Ok (VApi 0) w'
    /\ heap w' !! 1 = Some [("_events", VStore 0); ("callInternal", VFun 100);
                            ("setup", VFun 101); ("remove", VFun 102);
                            ("type", VStr "x")]
    /\ invocations (drop (length (trace demo_world_subscribed)) (trace w'))
       = [EvInvoke 1 (VApi 0) [VObj 1]; EvInvoke 7 (VApi 0) [VObj 1];
          EvInvoke 2 (VApi 0) [VObj 1]].
Proof. eexists. split; [| split]; vm_compute; reflexivity. Qed.

(** A function that carries a property [a], as payload. *)
Example trigger_copies_a_function :
  exists w',
    Api_trigger demo_env 0 (VStr "x") (VFun 5)
      (world_after (set_member (VFun 5) "a" (VNum 1)) demo_world) = Ok (VApi 0) w'
    /\ heap w' = [[("a", VNum 1); ("type", VStr "x")]]
    /\ own_props w' (VFun 5) = [("a", VNum 1)].
Proof. eexists. split; [| split]; vm_compute; reflexivity. Qed.

(** C5. The public [trigger] goes through the exception-propagating
    [Events.trigger] exactly when the debug flag is set, that is when
    [window.jwplayer] exists and its [debug] member is truthy; otherwise,
    also when the flag or [window.jwplayer] itself is absent, it goes
    through [Events.triggerSafe], and then it returns normally whatever the
    subscribers do. *)
Theorem trigger_selects_variant_by_debug_flag
    (env : Env) (this : aid) (name args : value) (w : World) (s : ApiState) :
  apis w !! this = Some s ->
  (forall l, args = VObj l -> is_Some (heap w !! l)) ->
  normalize_payload name args w = Ok (VObj (length (heap w))) (normalized name args w)
  /\ (debug_enabled w = true <-> exists d, window_jwplayer w = Some d /\ truthy d = true)
  /\ (debug_enabled w = true ->
        Api_trigger env this name args w
        = Events_trigger env this name (VObj (length (heap w))) (normalized name args w))
  /\ (debug_enabled w = false ->
        Api_trigger env this name args w
        = Events_triggerSafe env this name (VObj (length (heap w))) (normalized name args w)
        /\ exists w', Api_trigger env this name args w = Ok (VApi this) w').
Proof.
  intros Hs Hargs.
  pose proof (Api_trigger_dispatch env this name args w Hargs) as Hdispatch.
  set (w0 := normalized name args w) in *.
  split; [apply normalize_payload_spec; exact Hargs |]. split; [| split].
  - unfold debug_enabled. destruct (window_jwplayer w) as [d |].
    + split; [intros Hd; exists d; tauto | intros (d' & [= <-] & Hd); exact Hd].
    + split; [discriminate | intros (d' & [=] & _)].
  - intros Hd. rewrite Hdispatch, Hd. reflexivity.
  - intros Hd. rewrite Hdispatch, Hd. split; [reflexivity |].
    assert (apis w0 !! this = Some s) as Hs0 by exact Hs.
    destruct (Events_triggerSafe_spec env this name (VObj (length (heap w))) w0 s Hs0)
      as (w' & d & Hw' & _).
    exists w'. exact Hw'.
Qed.

Lemma trigger_selects_variant_by_debug_flag_witness :
  (exists w', Api_trigger demo_env 0 (VStr "x") VUndefined demo_world_subscribed
              = Ok (VApi 0) w')
  /\ Api_trigger demo_env 0 (VStr "x") VUndefined demo_world_debug
     = Events_trigger demo_env 0 (VStr "x") (VObj 1)
         (normalized (VStr "x") VUndefined demo_world_debug).
Proof.
  split.
  - edestruct (trigger_selects_variant_by_debug_flag demo_env 0 (VStr "x") VUndefined
                 demo_world_subscribed) as (_ & _ & _ & Hsafe).
    + reflexivity.
    + intros l [=].
    + destruct (Hsafe eq_refl) as (_ & w' & Hw'). exists w'. exact Hw'.
  - edestruct (trigger_selects_variant_by_debug_flag demo_env 0 (VStr "x") VUndefined
                 demo_world_debug) as (_ & _ & Hunsafe & _).
    + reflexivity.
    + intros l [=].
    + exact (Hunsafe eq_refl).
Defined.

(** With the flag set the exception of callback 7 reaches the caller and
    callback 2 is never called; without it the exception is contained and
    callback 2 runs. *)
Example trigger_debug_propagates :
  exists w', Api_trigger demo_env 0 (VStr "x") VUndefined demo_world_debug
             = Throw (VStr "boom") w'
    /\ invocations (drop (length (trace demo_world_debug)) (trace w'))
       = [EvInvoke 1 (VApi 0) [VObj 1]; EvInvoke 7 (VApi 0) [VObj 1]].
Proof. eexists. split; reflexivity. Qed.

Example trigger_safe_contains :
  exists w', Api_trigger demo_env 0 (VStr "x") VUndefined demo_world_subscribed
             = Ok (VApi 0) w'
    /\ drop (length (trace demo_world_subscribed) + 2) (trace w')
       = [EvInvoke 1 (VApi 0) [VObj 1]; EvInvoke 7 (VApi 0) [VObj 1];
          EvContained (VStr "boom"); EvInvoke 2 (VApi 0) [VObj 1]].
Proof. eexists. split; reflexivity. Qed.

(** ** The instance registry *)

Section RemoveLoop.

Context (uniqueId_of : nat -> option nat) (uniqueId : nat).

Lemma removePlayer_loop_absent (l : list nat) (i : nat) :
  (forall j x, j < i -> l !! j = Some x -> uniqueId_of x <> Some uniqueId) ->
  removePlayer_loop uniqueId_of uniqueId l i = l.
Proof.
  induction i as [| i IH]; intros Hno; simpl; [reflexivity |].
  destruct (l !! i) as [x |] eqn:Hx.
  - rewrite decide_False by (apply (Hno i x); [lia | exact Hx]).
    apply IH. intros j y Hj. apply Hno. lia.
  - apply IH. intros j y Hj. apply Hno. lia.
Qed.

Lemma removePlayer_loop_found (l : list nat) (i j x : nat) :
  j < i -> l !! j = Some x -> uniqueId_of x = Some uniqueId ->
  (forall k y, j < k -> k < i -> l !! k = Some y -> uniqueId_of y <> Some uniqueId) ->
  removePlayer_loop uniqueId_of uniqueId l i = delete j l.
Proof.
  induction i as [| i IH]; intros Hj Hx Hm Hlater; [lia |]. simpl.
  destruct (decide (i = j)) as [-> | Hne].
  - rewrite Hx, decide_True by exact Hm. reflexivity.
  - destruct (l !! i) as [y |] eqn:Hy.
    + rewrite decide_False by (apply (Hlater i y); [lia | lia | exact Hy]).
      apply IH; try assumption; [lia |]. intros k z Hk1 Hk2. apply Hlater; lia.
    + apply IH; try assumption; [lia |]. intros k z Hk1 Hk2. apply Hlater; lia.
Qed.

End RemoveLoop.

Lemma removePlayer_ok (api : aid) (w : World) (s : ApiState) :
  apis w !! api = Some s ->
  removePlayer api w
  = Ok tt (set_instances
             (removePlayer_loop (uniqueId_of w) (a_uniqueId s) (instances w)
                                (length (instances w))) w).
Proof.
  intros Hs. unfold removePlayer.
  rewrite (bind_ok _ _ _ _ _ (api_state_ok _ _ _ Hs)). reflexivity.
Qed.

Lemma Api_remove_instances (env : Env) (this : aid) (w w' : World) (s : ApiState) :
  apis w !! this = Some s ->
  world_of (Api_remove env this w) = Some w' ->
  instances w'
  = removePlayer_loop (uniqueId_of w) (a_uniqueId s) (instances w) (length (instances w)).
Proof.
  intros Hs. unfold Api_remove.
  rewrite (bind_ok _ _ _ _ _ (removePlayer_ok _ _ _ Hs)). cbv beta.
  set (w1 := set_instances _ w).
  assert (forall (m : M value) w2, Quiet this m -> world_of (m w1) = Some w2 ->
            instances w2 = instances w1) as Hq.
  { intros m w2 Hm. specialize (Hm w1). destruct (m w1); simpl; intros [= <-];
      apply (q_instances _ _ _ Hm). }
  rewrite bind_unfold.
  pose proof (Hq (Api_trigger env this (VStr "remove") VUndefined)) as Htrig.
  pose proof (Quiet_Api_trigger env this (VStr "remove") VUndefined w1) as Hquiet.
  destruct (Api_trigger env this (VStr "remove") VUndefined w1) as [v w2 | e w2 | why] eqn:Hr;
    simpl; [| intros [= <-] | discriminate].
  2: { apply (Htrig _ (Quiet_Api_trigger env this _ _) eq_refl). }
  rewrite bind_unfold. unfold api_state.
  destruct (apis w2 !! this) as [s2 |]; [| discriminate].
  rewrite bind_unfold.
  assert (forall r, world_of (resetPlayer env this (a_controller s2) w2) = Some r ->
            instances r = instances w2) as Hreset.
  { unfold resetPlayer, Api_off, Events_off, Controller_off, Controller_apply,
      update_api, api_state, ctrl_state, log, modify, answer.
    rewrite !bind_unfold.
    destruct (apis w2 !! this); simpl; [| discriminate].
    rewrite !bind_unfold. simpl.
    destruct (ctrls w2 !! a_controller s2); simpl; [| discriminate].
    destruct (ctrl_member env (a_controller s2) "playerDestroy"); simpl;
      try (intros r [= <-]; reflexivity).
    rewrite !bind_unfold. simpl.
    match goal with |- context [ctrl_result ?e ?c ?k ?l ?x] =>
      destruct (ctrl_result e c k l x) end; simpl; intros r [= <-]; reflexivity. }
  destruct (resetPlayer env this (a_controller s2) w2) as [u w3 | e w3 | why]; simpl;
    try discriminate; intros [= <-]; rewrite (Hreset _ eq_refl);
    apply (q_instances _ _ _ Hquiet).
Qed.

(** C7. Unregistering a handle scans the registry from the end and deletes
    the first entry it meets whose uniqueId is the handle's, and nothing
    else; when no entry has that uniqueId the registry is left as it is,
    and in neither case is an error raised.  After handles A and B have been
    constructed and registered in that order, A has uniqueId 0, B has
    uniqueId 1, and once [A.remove()] ends the registry holds B alone. *)
Theorem unregister_removes_last_matching_entry
    (env : Env) (api : aid) (w : World) (s : ApiState) :
  apis w !! api = Some s ->
  (exists w',
     removePlayer api w = Ok tt w'
     /\ apis w' = apis w /\ trace w' = trace w
     /\ (forall l1 x l2,
           instances w = l1 ++ x :: l2 ->
           uniqueId_of w x = Some (a_uniqueId s) ->
           (forall y, y ∈ l2 -> uniqueId_of w y <> Some (a_uniqueId s)) ->
           instances w' = l1 ++ l2)
     /\ ((forall x, x ∈ instances w -> uniqueId_of w x <> Some (a_uniqueId s)) ->
           instances w' = instances w))
  /\ (forall elA elB w',
        uniqueId_of (two_players env elA elB) 0 = Some 0
        /\ uniqueId_of (two_players env elA elB) 1 = Some 1
        /\ instances (two_players env elA elB) = [0; 1]
        /\ (world_of (Api_remove env 0 (two_players env elA elB)) = Some w' ->
              instances w' = [1])).
Proof.
  intros Hs. split.
  - eexists. split; [apply removePlayer_ok; exact Hs |].
    split; [reflexivity |]. split; [reflexivity |]. simpl. split.
    + intros l1 x l2 Hl Hx Hl2. rewrite Hl.
      rewrite (removePlayer_loop_found _ _ _ _ (length l1) x).
      * apply delete_middle.
      * rewrite length_app. simpl. lia.
      * apply list_lookup_middle. reflexivity.
      * exact Hx.
      * intros k y Hk1 Hk2 Hy. apply Hl2.
        rewrite lookup_app_r in Hy by lia.
        destruct (k - length l1) as [| k'] eqn:Hk; [lia |].
        simpl in Hy. apply list_elem_of_lookup. exists k'. exact Hy.
    + intros Hno. apply removePlayer_loop_absent.
      intros j x _ Hx. apply Hno. apply list_elem_of_lookup. exists j. exact Hx.
  - intros elA elB w'.
    split; [reflexivity |]. split; [reflexivity |]. split; [reflexivity |].
    intros Hw'.
    rewrite (Api_remove_instances env 0 (two_players env elA elB) w'
               {| a_element := elA; a_id := el_id elA; a_uniqueId := 0; a_plugins := [];
                  a_events := []; a_controller := 0 |} eq_refl Hw').
    reflexivity.
Qed.

Lemma unregister_removes_last_matching_entry_witness :
  exists w',
    removePlayer 0 (two_players demo_env {| el_id := "a" |} {| el_id := "b" |}) = Ok tt w'
    /\ instances w' = [1].
Proof.
  destruct (unregister_removes_last_matching_entry demo_env 0
              (two_players demo_env {| el_id := "a" |} {| el_id := "b" |})
              {| a_element := {| el_id := "a" |}; a_id := "a"; a_uniqueId := 0;
                 a_plugins := []; a_events := []; a_controller := 0 |} eq_refl)
    as [(w' & Hok & _ & _ & Hfound & _) _].
  exists w'. split; [exact Hok |].
  apply (Hfound [] 0 [1]).
  - reflexivity.
  - reflexivity.
  - intros y Hy. apply list_elem_of_singleton in Hy as ->. discriminate.
Defined.

(** A registry that holds the same handle twice loses the later entry
    only; unregistering again finds the earlier one; a third time changes
    nothing. *)
Example unregister_twice :
  removePlayer_loop (fun x => Some x) 4 [4; 2; 4; 3] 4 = [4; 2; 3]
  /\ removePlayer_loop (fun x => Some x) 4 [4; 2; 3] 3 = [2; 3]
  /\ removePlayer_loop (fun x => Some x) 4 [2; 3] 2 = [2; 3].
Proof. repeat split. Qed.

(** ** Plugins *)

Lemma Api_trigger_trace (env : Env) (this : aid) (name args : value) (w : World)
    (s : ApiState) :
  apis w !! this = Some s ->
  (forall l, args = VObj l -> is_Some (heap w !! l)) ->
  exists w' d,
    world_of (Api_trigger env this name args w) = Some w'
    /\ trace w' = trace w ++ [EvAlloc (length (heap w)) (payload_fields w args);
                              EvWrite (length (heap w)) "type" name] ++ d
    /\ (forall v w'', Api_trigger env this name args w = Ok v w'' ->
          invocations d
          = calls_of this [VObj (length (heap w))] (subscribers (to_key env name) (a_events s))
            ++ calls_of this [name; VObj (length (heap w))] (subscribers "all" (a_events s))).
Proof.
  intros Hs Hargs.
  pose proof (Api_trigger_dispatch env this name args w Hargs) as Hdispatch.
  set (w0 := normalized name args w) in *.
  assert (apis w0 !! this = Some s) as Hs0 by exact Hs.
  assert (trace w0 = trace w ++ [EvAlloc (length (heap w)) (payload_fields w args);
                                 EvWrite (length (heap w)) "type" name])
    as Ht0 by reflexivity.
  rewrite Hdispatch. destruct (debug_enabled w).
  - destruct (Events_trigger_spec env this name (VObj (length (heap w))) w0 s Hs0)
      as (w' & d & Hw' & Hd & Hi & _ & Hok).
    exists w', d. split; [exact Hw' |].
    destruct Hd as (_ & Htr & _). split; [rewrite Htr, Ht0, <- app_assoc; reflexivity |].
    intros v w'' Hv. rewrite Hi. apply (Hok _ _ Hv).
  - destruct (Events_triggerSafe_spec env this name (VObj (length (heap w))) w0 s Hs0)
      as (w' & d & Hw' & Hd & Hi).
    exists w', d. rewrite Hw'. split; [reflexivity |].
    destruct Hd as (_ & Htr & _). split; [rewrite Htr, Ht0, <- app_assoc; reflexivity |].
    intros; exact Hi.
Qed.

(** C9. [addPlugin(name, instance)] stores the instance under [name] in the
    handle's plugin map, where [getPlugin(name)] finds it, and appends to
    the handle's subscriptions a persistent one of the instance's
    [addToPlayer] member to "ready", followed by one of its [resizeHandler]
    member to "resize" exactly when its [resize] member is truthy.  A
    persistent subscription survives delivery: whenever a later
    [trigger("ready")] returns, every subscription to "ready" then in place
    has been called once, the hook among them, and the persistent ones are
    still in place for the next time. *)
Theorem addPlugin_stores_and_subscribes
    (env : Env) (this : aid) (name : value) (l : loc) (o : list (string * value))
    (w : World) (s : ApiState) :
  apis w !! this = Some s ->
  heap w !! l = Some o ->
  let addToPlayer := default VUndefined (field "addToPlayer" o) in
  let resize := default VUndefined (field "resize" o) in
  let resizeHandler := default VUndefined (field "resizeHandler" o) in
  let on_ready :=
    ("ready", {| s_callback := addToPlayer; s_context := VUndefined; s_once := false |}) in
  let on_resize :=
    ("resize", {| s_callback := resizeHandler; s_context := VUndefined; s_once := false |}) in
  exists w' s',
    Api_addPlugin env this name (VObj l) w = Ok VUndefined w'
    /\ apis w' !! this = Some s'
    /\ field (to_key env name) (a_plugins s') = Some (VObj l)
    /\ Api_getPlugin env this name w' = Ok (VObj l) w'
    /\ a_events s' = a_events s ++ [on_ready] ++ (if truthy resize then [on_resize] else [])
    /\ persistent on_ready = true
    /\ (forall w1 s1 args v w2,
          apis w1 !! this = Some s1 ->
          on_ready ∈ a_events s1 ->
          (forall l', args = VObj l' -> is_Some (heap w1 !! l')) ->
          Api_trigger env this (VStr "ready") args w1 = Ok v w2 ->
          exists d s2,
            trace w2 = trace w1 ++ [EvAlloc (length (heap w1)) (payload_fields w1 args);
                                    EvWrite (length (heap w1)) "type" (VStr "ready")] ++ d
            /\ invocations d
               = calls_of this [VObj (length (heap w1))] (subscribers "ready" (a_events s1))
                 ++ calls_of this [VStr "ready"; VObj (length (heap w1))]
                      (subscribers "all" (a_events s1))
            /\ (forall f, addToPlayer = VFun f ->
                  EvInvoke f (VApi this) [VObj (length (heap w1))] ∈ invocations d)
            /\ apis w2 !! this = Some s2
            /\ List.filter persistent (a_events s2) = List.filter persistent (a_events s1)
            /\ on_ready ∈ a_events s2).
Proof.
  intros Hs Ho addToPlayer resize resizeHandler on_ready on_resize.
  set (s1 := set_a_plugins (set_field (to_key env name) (VObj l) (a_plugins s)) s).
  set (w1 := set_apis (<[this := s1]> (apis w)) w).
  set (s2 := set_a_events (a_events s1 ++ [on_ready]) s1).
  set (w2 := set_trace (trace w1 ++ [EvOn this "ready" on_ready.2])
               (set_apis (<[this := s2]> (apis w1)) w1)).
  set (s3 := if truthy resize then set_a_events (a_events s2 ++ [on_resize]) s2 else s2).
  set (w3 := if truthy resize
             then set_trace (trace w2 ++ [EvOn this "resize" on_resize.2])
                    (set_apis (<[this := s3]> (apis w2)) w2)
             else w2).
  assert (apis w1 !! this = Some s1) as Hs1 by (apply (lookup_insert_same _ _ _ _ Hs)).
  assert (apis w2 !! this = Some s2) as Hs2 by (apply (lookup_insert_same _ _ _ _ Hs1)).
  assert (apis w3 !! this = Some s3) as Hs3.
  { subst w3 s3. destruct (truthy resize); [| exact Hs2].
    apply (lookup_insert_same _ _ _ _ Hs2). }
  assert (Api_addPlugin env this name (VObj l) w = Ok VUndefined w3) as Hrun.
  { unfold Api_addPlugin, Api_on, Events_on.
    rewrite (bind_ok _ _ _ _ _ (update_api_ok _ _ _ _ Hs)). cbv beta.
    erewrite bind_ok; [cbv beta | apply get_member_obj_ok; exact Ho].
    erewrite bind_ok; [cbv beta | apply subscribe_ok; exact Hs1].
    erewrite bind_ok; [cbv beta | apply get_member_obj_ok; exact Ho].
    fold resize. subst w3 s3. destruct (truthy resize).
    - erewrite bind_ok; [reflexivity |].
      erewrite bind_ok; [cbv beta | apply get_member_obj_ok; exact Ho].
      erewrite bind_ok; [reflexivity | apply subscribe_ok; exact Hs2].
    - reflexivity. }
  exists w3, s3. split; [exact Hrun |]. split; [exact Hs3 |].
  assert (a_plugins s3 = set_field (to_key env name) (VObj l) (a_plugins s)) as Hplugins.
  { subst s3. destruct (truthy resize); reflexivity. }
  split; [rewrite Hplugins; apply field_set_field_eq |].
  split.
  { apply (Api_getPlugin_stored env this name l w3 s3 Hs3).
    rewrite Hplugins. apply field_set_field_eq. }
  split.
  { subst s3. destruct (truthy resize); simpl; [rewrite <- app_assoc |]; reflexivity. }
  split; [reflexivity |].
  intros w4 s4 args v w5 Hs4 Hin Hargs Hrun4.
  destruct (Api_trigger_trace env this (VStr "ready") args w4 s4 Hs4 Hargs)
    as (w5' & d & Hw5 & Htr & Hok).
  rewrite Hrun4 in Hw5. injection Hw5 as <-.
  specialize (Hok _ _ Hrun4). simpl in Hok.
  pose proof (Api_trigger_dispatch env this (VStr "ready") args w4 Hargs) as Hdispatch.
  set (w0 := normalized (VStr "ready") args w4) in *.
  assert (apis w0 !! this = Some s4) as Hs0 by exact Hs4.
  assert (exists d', delivered this s4 w0 w5 d') as (d' & Hdel).
  { rewrite Hdispatch in Hrun4. destruct (debug_enabled w4).
    - destruct (Events_trigger_spec env this (VStr "ready") (VObj (length (heap w4))) w0 s4 Hs0)
        as (w6 & d6 & Hw6 & Hd6 & _).
      rewrite Hrun4 in Hw6. injection Hw6 as <-. exists d6. exact Hd6.
    - destruct (Events_triggerSafe_spec env this (VStr "ready") (VObj (length (heap w4))) w0 s4 Hs0)
        as (w6 & d6 & Hw6 & Hd6 & _).
      rewrite Hrun4 in Hw6. injection Hw6 as _ <-. exists d6. exact Hd6. }
  destruct (delivered_handle _ _ _ _ _ Hs0 Hdel) as (l5 & Hs5 & Hp5).
  exists d, (set_a_events l5 s4).
  split; [exact Htr |]. split; [exact Hok |]. split; [| split; [exact Hs5 | split; [exact Hp5 |]]].
  - intros f Hf. rewrite Hok. apply list_elem_of_In, in_or_app. left.
    unfold calls_of. apply in_flat_map. exists on_ready. split.
    + unfold subscribers. apply filter_In. split; [apply list_elem_of_In; exact Hin |].
      reflexivity.
    + unfold call_of, sub_call. simpl. fold addToPlayer. rewrite Hf. left. reflexivity.
  - assert (on_ready ∈ List.filter persistent (a_events s4)) as Hin'.
    { apply list_elem_of_In, filter_In. split; [apply list_elem_of_In; exact Hin | reflexivity]. }
    rewrite <- Hp5 in Hin'. apply list_elem_of_In, filter_In in Hin' as [Hin' _].
    apply list_elem_of_In. exact Hin'.
Qed.

Lemma addPlugin_stores_and_subscribes_witness :
  exists w' s',
    Api_addPlugin demo_env 0 (VStr "foo") (VObj 0) demo_world_plugins = Ok VUndefined w'
    /\ apis w' !! 0 = Some s'
    /\ a_events s'
       = [("ready", {| s_callback := VFun 3; s_context := VUndefined; s_once := false |});
          ("resize", {| s_callback := VFun 4; s_context := VUndefined; s_once := false |})]
    /\ Api_getPlugin demo_env 0 (VStr "foo") w' = Ok (VObj 0) w'.
Proof.
  destruct (addPlugin_stores_and_subscribes demo_env 0 (VStr "foo") 0
              [("addToPlayer", VFun 3); ("resize", VFun 5); ("resizeHandler", VFun 4)]
              demo_world_plugins demo_handle eq_refl eq_refl)
    as (w' & s' & Hrun & Hs' & _ & Hget & Hev & _).
  exists w', s'. split; [exact Hrun |]. split; [exact Hs' |]. split; [exact Hev | exact Hget].
Defined.

(** An instance without a resize capability gets no resize subscription;
    two "ready" events call its hook twice. *)
Example addPlugin_without_resize :
  exists w' s',
    Api_addPlugin demo_env 0 (VStr "bar") (VObj 1) demo_world_plugins = Ok VUndefined w'
    /\ apis w' !! 0 = Some s'
    /\ a_events s'
       = [("ready", {| s_callback := VFun 6; s_context := VUndefined; s_once := false |})]
    /\ invocations
         (trace (world_after (Api_trigger demo_env 0 (VStr "ready") VUndefined;;
                              Api_trigger demo_env 0 (VStr "ready") VUndefined) w'))
       = [EvInvoke 6 (VApi 0) [VObj 2]; EvInvoke 6 (VApi 0) [VObj 3]].
Proof. eexists _, _. repeat split. Qed.

(** A subscription made with [once] is gone after the first event. *)
Example once_fires_once :
  invocations
    (trace (world_after (Api_once demo_env 0 (VStr "ready") (VFun 6) VUndefined;;
                         Api_trigger demo_env 0 (VStr "ready") VUndefined;;
                         Api_trigger demo_env 0 (VStr "ready") VUndefined) demo_world))
  = [EvInvoke 6 (VApi 0) [VObj 0]].
Proof. reflexivity. Qed.

(** ** Removal *)

Lemma resetPlayer_effect (env : Env) (api : aid) (c : cid) (w w' : World)
    (s : ApiState) (cs : CtrlState) :
  apis w !! api = Some s ->
  ctrls w !! c = Some cs ->
  world_of (resetPlayer env api c w) = Some w' ->
  trace w' = trace w ++ teardown env api c
  /\ apis w' = <[api := set_a_events [] s]> (apis w)
  /\ ctrls w' = <[c := {| c_element := c_element cs; c_listeners := [] |}]> (ctrls w)
  /\ heap w' = heap w /\ instances w' = instances w
  /\ instancesCreated w' = instancesCreated w
  /\ window_jwplayer w' = window_jwplayer w.
Proof.
  intros Hs Hc. rewrite (resetPlayer_spec env api c w s cs Hs Hc). unfold teardown.
  destruct (ctrl_member env c "playerDestroy").
  - simpl. intros [= <-]. simpl. rewrite ?app_nil_r. repeat split.
  - match goal with |- context [ctrl_result ?e ?c' ?k ?l ?x] =>
      destruct (ctrl_result e c' k l x) end;
      simpl; intros [= <-]; simpl; rewrite <- ?app_assoc; repeat split.
  - simpl. intros [= <-]. simpl. rewrite ?app_nil_r. repeat split.
Qed.

(** C2. [remove()] first delivers the "remove" event to the subscribers the
    handle has when the call starts, in their order, and only when that
    delivery is over does it detach the handle's listeners, detach the
    controller's listeners and run the controller's destroy hook.  The one
    way the teardown does not follow is a subscriber raising while the debug
    flag is set: the call then ends with that exception and the controller
    is left wired. *)
Theorem remove_fires_event_before_teardown
    (env : Env) (this : aid) (w : World) (s : ApiState) (cs : CtrlState) :
  apis w !! this = Some s ->
  ctrls w !! a_controller s = Some cs ->
  let p := length (heap w) in
  let announce := [EvAlloc p []; EvWrite p "type" (VStr "remove")] in
  let expected :=
    calls_of this [VObj p] (subscribers "remove" (a_events s))
    ++ calls_of this [VStr "remove"; VObj p] (subscribers "all" (a_events s)) in
  exists w' d,
    world_of (Api_remove env this w) = Some w'
    /\ Forall (fun e => is_delivery e = true) d
    /\ invocations d `prefix_of` expected
    /\ ((invocations d = expected
         /\ trace w' = trace w ++ announce ++ d ++ teardown env this (a_controller s)
         /\ (a_events <$> apis w' !! this) = Some []
         /\ (c_listeners <$> ctrls w' !! a_controller s) = Some [])
        \/ (debug_enabled w = true
            /\ (exists e, Api_remove env this w = Throw e w')
            /\ trace w' = trace w ++ announce ++ d
            /\ ctrls w' = ctrls w)).
Proof.
  intros Hs Hc p announce expected.
  unfold Api_remove. rewrite (bind_ok _ _ _ _ _ (removePlayer_ok _ _ _ Hs)). cbv beta.
  set (w1 := set_instances _ w).
  assert (apis w1 !! this = Some s) as Hs1 by exact Hs.
  assert (forall l, VUndefined = VObj l -> is_Some (heap w1 !! l)) as Hargs by (intros l [=]).
  pose proof (Api_trigger_dispatch env this (VStr "remove") VUndefined w1 Hargs) as Hdispatch.
  set (w0 := normalized (VStr "remove") VUndefined w1) in *.
  assert (apis w0 !! this = Some s) as Hs0 by exact Hs.
  assert (trace w0 = trace w ++ announce) as Ht0 by reflexivity.
  assert (exists w2 d,
            world_of (Api_trigger env this (VStr "remove") VUndefined w1) = Some w2
            /\ delivered this s w0 w2 d
            /\ invocations d `prefix_of` expected
            /\ (forall v, Api_trigger env this (VStr "remove") VUndefined w1 = Ok v w2 ->
                  invocations d = expected)
            /\ (forall e, Api_trigger env this (VStr "remove") VUndefined w1 = Throw e w2 ->
                  debug_enabled w = true))
    as (w2 & d & Hw2 & Hd & Hpre & Hok & Hthrow).
  { rewrite Hdispatch. change (debug_enabled w1) with (debug_enabled w).
    destruct (debug_enabled w).
    - destruct (Events_trigger_spec env this (VStr "remove") (VObj (length (heap w1))) w0 s Hs0)
        as (w2 & d & Hw2 & Hd & Hi & Hp & Hok).
      exists w2, d. split; [exact Hw2 |]. split; [exact Hd |]. rewrite Hi.
      split; [exact Hp |]. split; [| reflexivity].
      intros v Hv. apply (Hok _ _ Hv).
    - destruct (Events_triggerSafe_spec env this (VStr "remove")
                  (VObj (length (heap w1))) w0 s Hs0)
        as (w2 & d & Hw2 & Hd & Hi).
      exists w2, d. rewrite Hw2. split; [reflexivity |]. split; [exact Hd |]. rewrite Hi.
      split; [reflexivity |]. split; [reflexivity | discriminate]. }
  destruct (delivered_handle _ _ _ _ _ Hs0 Hd) as (l2 & Hs2 & _).
  destruct Hd as ((_ & _ & _ & Hheap2 & Hctrls2) & Htr2 & Hfor & _).
  assert (trace w2 = trace w ++ announce ++ d) as Htrace2.
  { rewrite Htr2, Ht0, <- app_assoc. reflexivity. }
  assert (ctrls w2 = ctrls w) as Hctrls by exact Hctrls2.
  rewrite bind_unfold.
  destruct (Api_trigger env this (VStr "remove") VUndefined w1) as [v w2' | e w2' | why] eqn:Hr;
    simpl in Hw2; [| | discriminate]; injection Hw2 as ->.
  - rewrite (bind_ok _ _ _ _ _ (api_state_ok _ _ _ Hs2)). cbv beta.
    assert (ctrls w2 !! a_controller s = Some cs) as Hc2 by (rewrite Hctrls; exact Hc).
    simpl a_controller.
    assert (exists w3, world_of (resetPlayer env this (a_controller s) w2) = Some w3)
      as (w3 & Hw3).
    { rewrite (resetPlayer_spec env this _ w2 _ cs Hs2 Hc2).
      destruct (ctrl_member env (a_controller s) "playerDestroy"); try (eexists; reflexivity).
      match goal with |- context [ctrl_result ?e ?c' ?k ?l ?x] =>
        destruct (ctrl_result e c' k l x) end; eexists; reflexivity. }
    destruct (resetPlayer_effect env this _ w2 w3 _ cs Hs2 Hc2 Hw3)
      as (Htr3 & Ha3 & Hc3 & _).
    exists w3, d. split.
    + rewrite bind_unfold.
      destruct (resetPlayer env this (a_controller s) w2); simpl in *; congruence.
    + split; [exact Hfor |]. split; [exact Hpre |]. left.
      split; [apply (Hok v eq_refl) |]. split.
      * rewrite Htr3, Htrace2, <- !app_assoc. reflexivity.
      * split.
        -- rewrite Ha3, (lookup_insert_same _ _ _ _ Hs2). reflexivity.
        -- rewrite Hc3, (lookup_insert_same _ _ _ _ Hc2). reflexivity.
  - exists w2, d. split; [reflexivity |]. split; [exact Hfor |]. split; [exact Hpre |].
    right. split; [apply (Hthrow e eq_refl) |]. split; [exists e; reflexivity |].
    split; [exact Htrace2 | exact Hctrls].
Qed.

Lemma remove_fires_event_before_teardown_witness :
  exists w',
    world_of (Api_remove demo_env 0
                (world_after (Api_on demo_env 0 (VStr "remove") (VFun 1) VUndefined) demo_world))
    = Some w'
    /\ trace w'
       = trace demo_world
         ++ [EvOn 0 "remove" {| s_callback := VFun 1; s_context := VUndefined; s_once := false |};
             EvAlloc 0 []; EvWrite 0 "type" (VStr "remove");
             EvInvoke 1 (VApi 0) [VObj 0];
             EvOff 0 VUndefined VUndefined VUndefined; EvCtrlOff 0;
             EvCtrlCall 0 "playerDestroy" []].
Proof.
  edestruct (remove_fires_event_before_teardown demo_env 0
              (world_after (Api_on demo_env 0 (VStr "remove") (VFun 1) VUndefined) demo_world))
    as (w' & d & Hw' & _).
  - reflexivity.
  - reflexivity.
  - exists w'. split; [exact Hw' |].
    revert Hw'. vm_compute. intros [= <-]. reflexivity.
Defined.

(** With the debug flag set and a subscriber that throws, [remove()] ends
    before the teardown: the controller keeps its listeners. *)
Example remove_in_debug_mode_skips_teardown :
  exists w',
    Api_remove demo_env 0
      (world_after (set_debug (VBool true);;
                    Api_on demo_env 0 (VStr "remove") (VFun 7) VUndefined) demo_world)
    = Throw (VStr "boom") w'
    /\ (c_listeners <$> ctrls w' !! 0)
       = Some [("ready", ReadyStamp 0); ("all", Rebroadcast 0)].
Proof. eexists. split; reflexivity. Qed.

(** ** The instance counter *)

Lemma stable_uniqueIds (w w' : World) :
  stable w w' -> a_uniqueId <$> apis w' = a_uniqueId <$> apis w.
Proof.
  intros Hst. apply list_eq. intros i. rewrite !list_lookup_fmap.
  destruct (apis w !! i) as [s |] eqn:Hs.
  - destruct (st_fixed _ _ Hst i s Hs) as (s' & Hs' & _ & _ & Hu).
    rewrite Hs'. simpl. rewrite Hu. reflexivity.
  - apply lookup_ge_None_1 in Hs. rewrite <- (st_apis _ _ Hst) in Hs.
    apply lookup_ge_None_2 in Hs. rewrite Hs. reflexivity.
Qed.

(** C6. In every world a process can reach, the handles constructed so far,
    in the order of their construction, have the uniqueIds 0, 1, 2, ... and
    the counter equals their number; so the next construction returns a new
    handle with the next number, whatever was set up, triggered or removed
    in between, and no operation ever changes a uniqueId or gives one out
    again. *)
Theorem uniqueIds_count_the_constructions (env : Env) (w : World) :
  reachable env w ->
  instancesCreated w = length (apis w)
  /\ a_uniqueId <$> apis w = seq 0 (length (apis w))
  /\ (forall el this w',
        Api_constructor env el w = Ok this w' ->
        this = length (apis w)
        /\ (a_uniqueId <$> apis w' !! this) = Some (length (apis w))
        /\ a_uniqueId <$> apis w' = seq 0 (S (length (apis w))))
  /\ (forall w', step env w w' ->
        forall i s, apis w !! i = Some s -> (a_uniqueId <$> apis w' !! i) = Some (a_uniqueId s)).
Proof.
  intros Hreach.
  assert (instancesCreated w = length (apis w)
          /\ a_uniqueId <$> apis w = seq 0 (length (apis w))) as [Hcount Hids].
  { induction Hreach as [| w w' Hreach [IHc IHi] Hstep]; [split; reflexivity |].
    destruct (step_stable_or_construct env w w' Hstep) as [Hst | (el & Hc)].
    - rewrite (st_counter _ _ Hst), (st_apis _ _ Hst), (stable_uniqueIds _ _ Hst). tauto.
    - destruct (Api_constructor_ok env el w) as (w'' & Hok & Hn & Ha).
      rewrite Hok in Hc. injection Hc as <-.
      rewrite Hn, Ha, fmap_app, length_app, IHi, IHc.
      change (length [_]) with 1. rewrite Nat.add_1_r.
      split; [reflexivity |]. rewrite seq_S. reflexivity. }
  split; [exact Hcount |]. split; [exact Hids |]. split.
  - intros el this w' Hc.
    destruct (Api_constructor_ok env el w) as (w'' & Hok & Hn & Ha).
    rewrite Hok in Hc. injection Hc as <- <-.
    split; [reflexivity |]. rewrite Ha. split.
    + rewrite lookup_snoc. simpl. rewrite Hcount. reflexivity.
    + rewrite fmap_app, Hids, seq_S. simpl. rewrite Hcount. reflexivity.
  - intros w' Hstep i s Hs.
    destruct (step_stable_or_construct env w w' Hstep) as [Hst | (el & Hc)].
    + destruct (st_fixed _ _ Hst i s Hs) as (s' & Hs' & _ & _ & Hu).
      rewrite Hs'. simpl. rewrite Hu. reflexivity.
    + destruct (Api_constructor_ok env el w) as (w'' & Hok & Hn & Ha).
      rewrite Hok in Hc. injection Hc as <-.
      rewrite Ha, lookup_app_l by (eapply lookup_lt_Some; eauto).
      rewrite Hs. reflexivity.
Qed.

Lemma three_players_reachable : reachable demo_env three_players.
Proof.
  apply (reachable_step _ a_removed);
    [apply (reachable_step _ players_a_b);
       [apply (reachable_step _ player_a); [apply (reachable_step _ init) |] |] |].
  - apply reachable_init.
  - apply (step_construct _ _ _ {| el_id := "a" |} 0). vm_compute. reflexivity.
  - apply (step_construct _ _ _ {| el_id := "b" |} 1). vm_compute. reflexivity.
  - apply (step_call _ _ _ 0 0 "remove" (fun _ => Api_remove demo_env 0) []);
      vm_compute; reflexivity.
  - apply (step_construct _ _ _ {| el_id := "c" |} 2). vm_compute. reflexivity.
Qed.

Lemma uniqueIds_count_the_constructions_witness :
  reachable demo_env three_players
  /\ instancesCreated three_players = 3
  /\ a_uniqueId <$> apis three_players = [0; 1; 2].
Proof.
  split; [apply three_players_reachable |].
  destruct (uniqueIds_count_the_constructions demo_env three_players three_players_reachable)
    as (Hc & Hi & _).
  split; [rewrite Hc; vm_compute; reflexivity | rewrite Hi; vm_compute; reflexivity].
Defined.

(** ** Orderly replacement of controllers *)

Lemma wired_after_app (a : aid) (ws : list cid) (d1 d2 : list Event) :
  wired_after a ws (d1 ++ d2) = wired_after a (wired_after a ws d1) d2.
Proof. apply fold_left_app. Qed.

Lemma never_two_app (a : aid) (d1 d2 : list Event) (ws : list cid) :
  never_two a ws (d1 ++ d2)
  <-> never_two a ws d1 /\ never_two a (wired_after a ws d1) d2.
Proof.
  revert ws. induction d1 as [| e d1 IH]; intros ws; simpl.
  - destruct d2; simpl; tauto.
  - rewrite IH. tauto.
Qed.

Lemma never_two_length (a : aid) (ws : list cid) (d : list Event) :
  never_two a ws d -> length ws <= 1.
Proof. destruct d; simpl; tauto. Qed.

Lemma wire_step_quiet (a : aid) (ws : list cid) (e : Event) :
  wiring e = false -> wire_step a ws e = ws.
Proof. destruct e; simpl; try reflexivity; discriminate. Qed.

Lemma wired_after_quiet (a : aid) (ws : list cid) (d : list Event) :
  Forall (fun e => wiring e = false) d -> wired_after a ws d = ws.
Proof.
  intros Hd. induction Hd as [| e d He Hd IH]; simpl; [reflexivity |].
  unfold wired_after in *. simpl. rewrite wire_step_quiet by exact He. exact IH.
Qed.

Lemma never_two_quiet (a : aid) (ws : list cid) (d : list Event) :
  Forall (fun e => wiring e = false) d -> length ws <= 1 -> never_two a ws d.
Proof.
  intros Hd Hws. induction Hd as [| e d He Hd IH]; simpl; [tauto |].
  rewrite wire_step_quiet by exact He. tauto.
Qed.

Lemma held_length (a : aid) (w : World) (ws : list cid) : held a w ws -> length ws <= 1.
Proof. intros [-> | (s & _ & ->)]; simpl; lia. Qed.

Lemma calm_not_wiring (c : option nat) (e : Event) : calm c e -> wiring e = false.
Proof. destruct e; simpl; tauto. Qed.

Lemma orderly_refl (a : aid) (n : cid) (w : World) : orderly a n w w.
Proof.
  intros Hset. split; [exact Hset | reflexivity |].
  exists []. split; [symmetry; apply app_nil_r |]. split; [constructor |]. split.
  - intros ws Hws. simpl. split; [| exact Hws].
    split; [apply (held_length _ _ _ Hws) | exact I].
  - intros _. split; reflexivity.
Qed.

Lemma orderly_trans (a : aid) (n : cid) (w1 w2 w3 : World) :
  orderly a n w1 w2 -> orderly a n w2 w3 -> orderly a n w1 w3.
Proof.
  intros H12 H23 Hset.
  destruct (H12 Hset) as [Hset2 Hb2 (d1 & Ht1 & Hf1 & Hw1 & Hq1)].
  destruct (H23 Hset2) as [Hset3 Hb3 (d2 & Ht2 & Hf2 & Hw2 & Hq2)].
  split; [exact Hset3 | |].
  - intros c Hc. rewrite (Hb3 c Hc). apply (Hb2 c Hc).
  - exists (d1 ++ d2). split; [rewrite Ht2, Ht1; symmetry; apply app_assoc |].
    split; [apply Forall_app; tauto |]. split.
    + intros ws Hws. destruct (Hw1 ws Hws) as [Hn1 Hh1].
      destruct (Hw2 _ Hh1) as [Hn2 Hh2].
      rewrite never_two_app, wired_after_app. tauto.
    + intros Hq. apply Forall_app in Hq as [Hqa Hqb].
      destruct (Hq1 Hqa) as [Hc1 Ha1]. destruct (Hq2 Hqb) as [Hc2 Ha2].
      split; congruence.
Qed.

Lemma quiet_orderly (a : aid) (n : cid) (w w' : World) :
  quiet a w w' -> orderly a n w w'.
Proof.
  intros Hq (s & Hs & Hn & Hlt & Hwired).
  destruct (q_fixed _ _ _ Hq a s Hs) as (s' & Hs' & _ & _ & _ & Hc & _).
  destruct (q_trace _ _ _ Hq) as (d & Hd & Hcalm).
  assert (Forall (fun e => wiring e = false) d) as Hnw.
  { eapply Forall_impl; [exact Hcalm |]. intros e. apply calm_not_wiring. }
  split.
  - exists s'. split; [exact Hs' |]. rewrite Hc, (q_ctrls _ _ _ Hq).
    split; [exact Hn |]. split; [exact Hlt | exact Hwired].
  - intros c _. rewrite (q_ctrls _ _ _ Hq). reflexivity.
  - exists d. split; [exact Hd |]. split; [| split].
    + eapply Forall_impl; [exact Hcalm |]. intros e He. rewrite Hs in He.
      destruct e; simpl in *; try exact I; try contradiction.
      injection He as <-. exact Hn.
    + intros ws Hws. rewrite (wired_after_quiet _ _ _ Hnw).
      split; [apply never_two_quiet; [exact Hnw | apply (held_length _ _ _ Hws)] |].
      destruct Hws as [-> | (s0 & Hs0 & ->)]; [left; reflexivity |].
      right. exists s'. split; [exact Hs' |]. congruence.
    + intros _. split; [apply (q_ctrls _ _ _ Hq) |].
      rewrite Hs, Hs'. simpl. rewrite Hc. reflexivity.
Qed.

Lemma Quiet_Orderly {A} (a : aid) (n : cid) (m : M A) : Quiet a m -> Orderly a n m.
Proof.
  apply preserves_weaken; [tauto |]. intros w w'. apply quiet_orderly.
Qed.

Lemma Orderly_bind {A B} (a : aid) (n : cid) (m : M A) (k : A -> M B) :
  Orderly a n m -> (forall x, Orderly a n (k x)) -> Orderly a n (m ≫= k).
Proof. intros Hm Hk. eapply preserves_bind; eauto using orderly_trans. Qed.

Lemma Orderly_ret {A} (a : aid) (n : cid) (x : A) : Orderly a n (mret x).
Proof. apply preserves_ret, orderly_refl. Qed.

(** ** [setup], step by step *)

Section SetupSteps.

Context (env : Env) (this : aid).

Lemma setup_decompose (member : aid -> string -> option (list value -> M value))
    (options : value) (w : World) (s : ApiState) (cs : CtrlState) :
  apis w !! this = Some s ->
  ctrls w !! a_controller s = Some cs ->
  Api_setup_with env member this options w
  = match resetPlayer env this (a_controller s)
            (set_trace (trace w ++ [EvQoe this "clear" ["ready"]; EvQoe this "tick" ["setup"]]) w)
    with
    | Ok _ w2 => setup_tail env member this options (a_id s) (replaced env this s w2)
    | Throw e w2 => Throw e w2
    | Stuck why => Stuck why
    end.
Proof.
  intros Hs Hc. unfold Api_setup_with, qoe_clear, qoe_tick.
  erewrite bind_ok; [cbv beta | reflexivity].
  erewrite bind_ok; [cbv beta | reflexivity].
  erewrite bind_ok; [cbv beta | apply api_state_ok; exact Hs].
  match goal with |- (resetPlayer _ _ _ ≫= _) ?w1 = _ => set (w1' := w1) end.
  assert (w1' = set_trace (trace w ++ [EvQoe this "clear" ["ready"]; EvQoe this "tick" ["setup"]]) w)
    as Hw1.
  { subst w1'. simpl. rewrite <- app_assoc. reflexivity. }
  rewrite <- Hw1. rewrite bind_unfold.
  destruct (resetPlayer env this (a_controller s) w1') as [u w2 | e w2 | why] eqn:Hr;
    [| reflexivity | reflexivity].
  assert (world_of (resetPlayer env this (a_controller s) w1') = Some w2) as Hw2
    by (rewrite Hr; reflexivity).
  destruct (resetPlayer_effect env this (a_controller s) w1' w2 s cs) as (_ & Ha2 & _);
    [subst w1'; exact Hs | subst w1'; exact Hc | exact Hw2 |].
  erewrite bind_ok; [cbv beta | apply setupController_ok].
  erewrite bind_ok; [reflexivity |].
  erewrite update_api_ok; [reflexivity |].
  simpl. rewrite Ha2. apply list_lookup_insert_eq.
  subst w1'. simpl. eapply lookup_lt_Some; eauto.
Qed.

(** The stretch of trace from the start of [setup] to the point where the
    new controller is in place. *)
Lemma replaced_facts (w w2 : World) (s : ApiState) (cs : CtrlState) :
  apis w !! this = Some s ->
  ctrls w !! a_controller s = Some cs ->
  world_of (resetPlayer env this (a_controller s)
              (set_trace (trace w ++ [EvQoe this "clear" ["ready"];
                                      EvQoe this "tick" ["setup"]]) w)) = Some w2 ->
  trace w2 = trace w ++ [EvQoe this "clear" ["ready"]; EvQoe this "tick" ["setup"]]
                     ++ teardown env this (a_controller s)
  /\ apis w2 !! this = Some (set_a_events [] s)
  /\ ctrls w2 = <[a_controller s := {| c_element := c_element cs; c_listeners := [] |}]> (ctrls w)
  /\ heap w2 = heap w
  /\ length (ctrls w2) = length (ctrls w)
  /\ trace (replaced env this s w2)
     = trace w2 ++ [EvCtrlNew (length (ctrls w)) (a_element s);
                    EvCtrlOn (length (ctrls w)) (events env "JWPLAYER_READY") (ReadyStamp this);
                    EvCtrlOn (length (ctrls w)) "all" (Rebroadcast this)]
  /\ apis (replaced env this s w2) !! this
     = Some (set_a_controller (length (ctrls w)) (set_a_events [] s))
  /\ ctrls (replaced env this s w2)
     = ctrls w2 ++ [{| c_element := a_element s;
                       c_listeners := [(events env "JWPLAYER_READY", ReadyStamp this);
                                       ("all", Rebroadcast this)] |}]
  /\ heap (replaced env this s w2) = heap w.
Proof.
  intros Hs Hc Hw2.
  destruct (resetPlayer_effect env this (a_controller s)
              (set_trace (trace w ++ [EvQoe this "clear" ["ready"];
                                      EvQoe this "tick" ["setup"]]) w) w2 s cs Hs Hc Hw2)
    as (Ht2 & Ha2 & Hc2 & Hh2 & _).
  simpl in Ht2, Ha2, Hc2, Hh2.
  assert (length (ctrls w2) = length (ctrls w)) as Hlen by (rewrite Hc2; apply length_insert).
  split; [rewrite Ht2, <- app_assoc; reflexivity |].
  split; [rewrite Ha2; apply (lookup_insert_same _ _ _ _ Hs) |].
  split; [exact Hc2 |]. split; [exact Hh2 |]. split; [exact Hlen |].
  unfold replaced, attached. simpl. rewrite Hlen.
  split; [reflexivity |].
  split; [rewrite Ha2; apply list_lookup_insert_eq; rewrite length_insert;
          eapply lookup_lt_Some; eauto |].
  split; [reflexivity | exact Hh2].
Qed.

End SetupSteps.

(** ** [setup] and [remove] are orderly *)

Lemma teardown_replay (env : Env) (a : aid) (c : cid) (ws : list cid) :
  ws = [] \/ ws = [c] ->
  never_two a ws (teardown env a c) /\ wired_after a ws (teardown env a c) = [].
Proof.
  intros [-> | ->]; unfold teardown, wired_after;
    destruct (ctrl_member env c "playerDestroy"); simpl;
    rewrite ?bool_decide_false by tauto; simpl;
    repeat split; solve [lia | reflexivity].
Qed.

Lemma attach_replay (a : aid) (c : cid) (el : Element) (k1 k2 : string) :
  never_two a [] [EvCtrlNew c el; EvCtrlOn c k1 (ReadyStamp a); EvCtrlOn c k2 (Rebroadcast a)]
  /\ wired_after a [] [EvCtrlNew c el; EvCtrlOn c k1 (ReadyStamp a);
                       EvCtrlOn c k2 (Rebroadcast a)] = [c].
Proof.
  unfold wired_after. simpl.
  rewrite !decide_True by reflexivity.
  rewrite !decide_True by apply list_elem_of_here. simpl.
  repeat split; solve [lia | reflexivity].
Qed.

Lemma teardown_has_wiring (env : Env) (a : aid) (c : cid) (d : list Event) :
  ~ Forall (fun e => wiring e = false) (teardown env a c ++ d).
Proof.
  unfold teardown. simpl. intros H.
  apply Forall_cons in H as [_ H]. apply Forall_cons in H as [H _]. discriminate.
Qed.

Lemma teardown_above (env : Env) (a : aid) (c n : cid) :
  n <= c -> Forall (above n) (teardown env a c).
Proof.
  intros Hn. unfold teardown.
  destruct (ctrl_member env c "playerDestroy"); repeat constructor; exact Hn.
Qed.

Section OrderlySetup.

Context (env : Env) (this : aid) (n : cid).

Lemma reset_orderly (w w' : World) (s : ApiState) :
  apis w !! this = Some s ->
  world_of (resetPlayer env this (a_controller s) w) = Some w' ->
  orderly this n w w'.
Proof.
  intros Hs Hw' (s0 & Hs0 & Hn & Hlt & Hwired).
  assert (s0 = s) as -> by congruence.
  destruct (lookup_lt_is_Some_2 _ _ Hlt) as [cs Hcs].
  destruct (resetPlayer_effect env this _ w w' s cs Hs Hcs Hw') as (Ht & Ha & Hc & _).
  split.
  - exists (set_a_events [] s). split; [rewrite Ha; apply (lookup_insert_same _ _ _ _ Hs) |].
    split; [exact Hn |]. split; [rewrite Hc, length_insert; exact Hlt |].
    intros c cs' Hcs' Hw. rewrite Hc in Hcs'.
    destruct (decide (c = a_controller s)) as [-> | Hne]; [reflexivity |].
    rewrite list_lookup_insert_ne in Hcs' by congruence. apply (Hwired c cs' Hcs' Hw).
  - intros c Hlt'. rewrite Hc. apply list_lookup_insert_ne. simpl. lia.
  - exists (teardown env this (a_controller s)). split; [exact Ht |].
    split; [apply teardown_above; exact Hn |]. split.
    + intros ws Hws.
      assert (ws = [] \/ ws = [a_controller s]) as Hws'.
      { destruct Hws as [-> | (s1 & Hs1 & ->)]; [left; reflexivity |].
        right. congruence. }
      destruct (teardown_replay env this _ ws Hws') as [Hnever ->].
      split; [exact Hnever | left; reflexivity].
    + intros Hq. exfalso. apply (teardown_has_wiring env this (a_controller s) []).
      rewrite app_nil_r. exact Hq.
Qed.

Lemma replace_orderly (w w2 : World) (s : ApiState) :
  apis w !! this = Some s ->
  world_of (resetPlayer env this (a_controller s) w) = Some w2 ->
  orderly this n w (replaced env this s w2).
Proof.
  intros Hs Hw2 (s0 & Hs0 & Hn & Hlt & Hwired).
  assert (s0 = s) as -> by congruence.
  destruct (lookup_lt_is_Some_2 _ _ Hlt) as [cs Hcs].
  destruct (resetPlayer_effect env this _ w w2 s cs Hs Hcs Hw2) as (Ht & Ha & Hc & _).
  assert (length (ctrls w2) = length (ctrls w)) as Hlen by (rewrite Hc; apply length_insert).
  assert (apis (replaced env this s w2) !! this
          = Some (set_a_controller (length (ctrls w)) (set_a_events [] s))) as Hs4.
  { unfold replaced. simpl. rewrite Hlen, Ha. apply list_lookup_insert_eq.
    rewrite length_insert. eapply lookup_lt_Some; eauto. }
  assert (ctrls (replaced env this s w2)
          = <[a_controller s := {| c_element := c_element cs; c_listeners := [] |}]> (ctrls w)
            ++ [{| c_element := a_element s;
                   c_listeners := [(events env "JWPLAYER_READY", ReadyStamp this);
                                   ("all", Rebroadcast this)] |}]) as Hc4.
  { unfold replaced, attached. simpl. rewrite Hc. reflexivity. }
  split.
  - eexists. split; [exact Hs4 |].
    change (a_controller (set_a_controller (length (ctrls w)) (set_a_events [] s)))
      with (length (ctrls w)).
    split; [lia |]. split; [rewrite Hc4, length_app, length_insert; simpl; lia |].
    intros c cs' Hcs' Hw. rewrite Hc4 in Hcs'.
    destruct (decide (c < length (ctrls w))) as [Hin | Hout].
    + exfalso. rewrite lookup_app_l in Hcs' by (rewrite length_insert; exact Hin).
      destruct (decide (c = a_controller s)) as [-> | Hne].
      * rewrite (lookup_insert_same _ _ _ _ Hcs) in Hcs'. injection Hcs' as <-.
        destruct Hw as (e & He & _). simpl in He. apply not_elem_of_nil in He. exact He.
      * rewrite list_lookup_insert_ne in Hcs' by congruence.
        apply Hne, (Hwired c cs' Hcs' Hw).
    + pose proof (lookup_lt_Some _ _ _ Hcs') as Hb.
      rewrite length_app, length_insert in Hb. simpl in Hb. lia.
  - intros c Hlt'. rewrite Hc4, lookup_app_l by (rewrite length_insert; lia).
    apply list_lookup_insert_ne. simpl. lia.
  - exists (teardown env this (a_controller s)
            ++ [EvCtrlNew (length (ctrls w)) (a_element s);
                EvCtrlOn (length (ctrls w)) (events env "JWPLAYER_READY") (ReadyStamp this);
                EvCtrlOn (length (ctrls w)) "all" (Rebroadcast this)]).
    split; [unfold replaced, attached; simpl; rewrite Hlen, Ht, <- app_assoc; reflexivity |].
    split; [apply Forall_app; split; [apply teardown_above; exact Hn |];
            repeat (apply Forall_cons; split; [unfold above; simpl; lia |]); constructor |].
    split.
    + intros ws Hws.
      assert (ws = [] \/ ws = [a_controller s]) as Hws'.
      { destruct Hws as [-> | (s1 & Hs1 & ->)]; [left; reflexivity |].
        right. congruence. }
      destruct (teardown_replay env this _ ws Hws') as [Hnever Hafter].
      destruct (attach_replay this (length (ctrls w)) (a_element s)
                  (events env "JWPLAYER_READY") "all") as [Hnever' Hafter'].
      rewrite never_two_app, wired_after_app, Hafter, Hafter'.
      split; [split; assumption |].
      right. eexists. split; [exact Hs4 | reflexivity].
    + intros Hq. exfalso. apply (teardown_has_wiring env this (a_controller s) _ Hq).
Qed.

Lemma Orderly_log (e : Event) : (forall c, calm c e) -> Orderly this n (log e).
Proof. intros He. apply Quiet_Orderly, Quiet_log, He. Qed.

Lemma Orderly_invoke_current (name : string) (args : list value) :
  Orderly this n (s' ← api_state this; Controller_invoke env (a_controller s') name args).
Proof.
  apply Quiet_Orderly. intros w. rewrite bind_unfold. unfold api_state.
  destruct (apis w !! this) as [s |] eqn:Hs; [| reflexivity].
  unfold Controller_invoke.
  destruct (ctrl_member env (a_controller s) name); simpl; try apply quiet_refl.
  rewrite Controller_apply_eq.
  match goal with |- context [ctrl_result ?e ?c ?k ?l ?w'] =>
    destruct (ctrl_result e c k l w') end;
    apply quiet_set_trace; rewrite Hs; reflexivity.
Qed.

Lemma Orderly_setup_tail (member : aid -> string -> option (list value -> M value))
    (options : value) (id : string) :
  (forall name fn args, member this name = Some fn -> Orderly this n (fn args)) ->
  Orderly this n (setup_tail env member this options id).
Proof.
  intros Hmem. unfold setup_tail.
  apply Orderly_bind; [apply Quiet_Orderly, Quiet_get_member |]. intros evs.
  apply Orderly_bind.
  { unfold utils_foreach. destruct evs; try apply Orderly_ret.
    all: apply Orderly_bind;
      [first [apply Quiet_Orderly, Quiet_read_obj | apply Quiet_Orderly, Quiet_gets] |].
    all: intros o.
    all: apply preserves_foreach_fields; [apply orderly_refl | apply orderly_trans |].
    all: intros k v; destruct (member this k) as [fn |] eqn:Hfn; [| apply Orderly_ret].
    all: apply Orderly_bind; [apply Orderly_log; intros c; exact I |]; intros _.
    all: apply Orderly_bind; [apply (Hmem _ _ _ Hfn) |]; intros _; apply Orderly_ret. }
  intros _. apply Orderly_bind; [apply Quiet_Orderly, Quiet_set_member |]. intros _.
  pose proof (Orderly_invoke_current "setup" [options; VApi this]) as Hinv.
  intros w. specialize (Hinv w). rewrite bind_unfold in *.
  destruct (api_state this w) as [s' w1 | e w1 | why]; [| exact Hinv | exact I].
  rewrite bind_unfold.
  destruct (Controller_invoke env (a_controller s') "setup" [options; VApi this] w1);
    exact Hinv.
Qed.

Lemma Orderly_Api_setup_with (member : aid -> string -> option (list value -> M value))
    (options : value) :
  (forall name fn args, member this name = Some fn -> Orderly this n (fn args)) ->
  Orderly this n (Api_setup_with env member this options).
Proof.
  intros Hmem w.
  destruct (apis w !! this) as [s |] eqn:Hs.
  2: { unfold Api_setup_with, qoe_clear, qoe_tick.
       erewrite bind_ok; [cbv beta | reflexivity].
       erewrite bind_ok; [cbv beta | reflexivity].
       rewrite bind_unfold. unfold api_state. cbn [apis set_trace]. rewrite Hs. exact I. }
  destruct (ctrls w !! a_controller s) as [cs |] eqn:Hcs.
  2: { assert (forall A (r : Result A),
                 match r with Ok _ w' | Throw _ w' => orderly this n w w' | Stuck _ => True end)
         as Hany.
       { intros A r. destruct r; try exact I; intros (s0 & Hs0 & _ & Hlt & _);
           exfalso; assert (s0 = s) as -> by congruence;
           apply lookup_ge_None_1 in Hcs; lia. }
       apply Hany. }
  rewrite (setup_decompose env this member options w s cs Hs Hcs).
  set (w1 := set_trace _ w).
  assert (orderly this n w w1) as H01.
  { apply quiet_orderly. split; simpl; try reflexivity.
    - intros b sb Hb. exists sb. tauto.
    - eexists. split; [reflexivity |]. repeat constructor. }
  destruct (resetPlayer env this (a_controller s) w1) as [u w2 | e w2 | why] eqn:Hr;
    [| | exact I].
  - assert (orderly this n w (replaced env this s w2)) as H04.
    { eapply orderly_trans; [exact H01 |].
      apply (replace_orderly w1 w2 s Hs). rewrite Hr. reflexivity. }
    pose proof (Orderly_setup_tail member options (a_id s) Hmem (replaced env this s w2)) as Htail.
    destruct (setup_tail env member this options (a_id s) (replaced env this s w2));
      try exact I; eapply orderly_trans; eauto.
  - eapply orderly_trans; [exact H01 |].
    apply (reset_orderly w1 w2 s Hs). rewrite Hr. reflexivity.
Qed.

Lemma Orderly_Api_remove : Orderly this n (Api_remove env this).
Proof.
  unfold Api_remove.
  apply Orderly_bind.
  { intros w. unfold removePlayer. rewrite bind_unfold. unfold api_state.
    destruct (apis w !! this) as [s |]; [| exact I]. simpl.
    intros Hset. split; [exact Hset | reflexivity |].
    exists []. split; [symmetry; apply app_nil_r |]. split; [constructor |]. split.
    - intros ws Hws. simpl. split; [| exact Hws].
      split; [apply (held_length _ _ _ Hws) | exact I].
    - intros _. split; reflexivity. }
  intros _. apply Orderly_bind; [apply Quiet_Orderly, Quiet_Api_trigger |]. intros _.
  intros w. rewrite bind_unfold. unfold api_state.
  destruct (apis w !! this) as [s |] eqn:Hs; [| exact I].
  rewrite bind_unfold.
  destruct (resetPlayer env this (a_controller s) w) as [u w' | e w' | why] eqn:Hr;
    try exact I; simpl; apply (reset_orderly w w' s Hs); rewrite Hr; reflexivity.
Qed.

End OrderlySetup.

Lemma Orderly_Api_member (env : Env) (n : cid) (fuel : nat) (this : aid) (name : string)
    (fn : list value -> M value) (args : list value) :
  Api_member env fuel this name = Some fn -> Orderly this n (fn args).
Proof.
  revert this name fn args. induction fuel as [| fuel IH]; intros this name fn args Hfn.
  all: apply Api_member_cases in Hfn
    as [[-> ->] | [[-> ->] | [[-> ->] | [(method & Hm & ->) | [[-> ->] | (v & Hv)]]]]].
  all: try (apply Quiet_Orderly; apply (Quiet_Api_callInternal env this)).
  all: try apply Orderly_Api_remove.
  all: try (apply Quiet_Orderly; apply (Quiet_method env this name method args Hm)).
  all: try (apply preserves_throw, orderly_refl).
  all: try (destruct v; simpl in Hv; try discriminate; injection Hv as <-;
            apply Quiet_Orderly, Quiet_call_value).
  - intros w. exact I.
  - apply Orderly_Api_setup_with. intros name' fn' args'. apply IH.
Qed.

Lemma Orderly_Api_setup (env : Env) (n : cid) (fuel : nat) (this : aid) (options : value) :
  Orderly this n (Api_setup env fuel this options).
Proof.
  unfold Api_setup. apply Orderly_Api_setup_with.
  intros name fn args. apply Orderly_Api_member.
Qed.

(** ** The invariant holds in every reachable world *)

Lemma keeps_refl (w : World) : keeps w w.
Proof. intros H. exact H. Qed.

Lemma keeps_trans (w1 w2 w3 : World) : keeps w1 w2 -> keeps w2 w3 -> keeps w1 w3.
Proof. unfold keeps. tauto. Qed.

Lemma keeps_same (w w' : World) : apis w' = apis w -> ctrls w' = ctrls w -> keeps w w'.
Proof.
  intros Ha Hc [Ht Hb]. split.
  - intros a s. rewrite Ha, Hc. apply Ht.
  - intros c cs e. rewrite Ha, Hc. apply Hb.
Qed.

Lemma quiet_keeps (a : aid) (w w' : World) : quiet a w w' -> keeps w w'.
Proof.
  intros Hq [Ht Hb]. split.
  - intros b s' Hs'. rewrite (q_ctrls _ _ _ Hq).
    pose proof (lookup_lt_Some _ _ _ Hs') as Hlt. rewrite (q_apis _ _ _ Hq) in Hlt.
    destruct (lookup_lt_is_Some_2 _ _ Hlt) as [s Hs].
    destruct (q_fixed _ _ _ Hq b s Hs) as (s'' & Hs'' & _ & _ & _ & Hc & _).
    assert (s'' = s') as -> by congruence. rewrite Hc. apply (Ht b s Hs).
  - intros c cs e. rewrite (q_ctrls _ _ _ Hq), (q_apis _ _ _ Hq). apply Hb.
Qed.

Lemma Quiet_Keeps {A} (a : aid) (m : M A) : Quiet a m -> Keeps m.
Proof.
  apply preserves_weaken; [tauto |]. intros w w'. apply quiet_keeps.
Qed.

Lemma Keeps_bind {A B} (m : M A) (k : A -> M B) :
  Keeps m -> (forall x, Keeps (k x)) -> Keeps (m ≫= k).
Proof. intros Hm Hk. eapply preserves_bind; eauto using keeps_trans. Qed.

Lemma Keeps_ret {A} (x : A) : Keeps (mret x).
Proof. apply preserves_ret, keeps_refl. Qed.

Section KeepsSetup.

Context (env : Env) (this : aid).

Lemma reset_keeps (c : cid) (w w' : World) (s : ApiState) :
  apis w !! this = Some s ->
  world_of (resetPlayer env this c w) = Some w' ->
  keeps w w'.
Proof.
  intros Hs Hw'.
  destruct (ctrls w !! c) as [cs |] eqn:Hcs.
  2: { exfalso. revert Hw'. unfold resetPlayer, Api_off.
       rewrite (bind_ok _ _ _ _ _ (Events_off_all_ok env _ _ _ Hs)). cbv beta.
       rewrite bind_unfold. unfold Controller_off. rewrite bind_unfold.
       unfold ctrl_state. cbn [ctrls set_trace set_apis]. rewrite Hcs. discriminate. }
  destruct (resetPlayer_effect env this c w w' s cs Hs Hcs Hw') as (_ & Ha & Hc & _).
  intros [Ht Hb]. split.
  - intros a sa Hsa. rewrite Hc, length_insert.
    assert (exists sa0, apis w !! a = Some sa0 /\ a_controller sa = a_controller sa0)
      as (sa0 & Hsa0 & Hca).
    { rewrite Ha in Hsa. destruct (decide (a = this)) as [-> | Hne].
      - rewrite (lookup_insert_same _ _ _ _ Hs) in Hsa. injection Hsa as <-.
        exists s. split; [exact Hs | reflexivity].
      - rewrite list_lookup_insert_ne in Hsa by congruence. exists sa. tauto. }
    rewrite Hca. destruct (Ht a sa0 Hsa0) as [Hlt Hw]. split; [exact Hlt |].
    intros c' cs' Hcs' Hwired.
    destruct (decide (c' = c)) as [-> | Hne].
    + rewrite (lookup_insert_same _ _ _ _ Hcs) in Hcs'. injection Hcs' as <-.
      destruct Hwired as (e & He & _). simpl in He. apply not_elem_of_nil in He. contradiction.
    + rewrite list_lookup_insert_ne in Hcs' by congruence. apply (Hw c' cs' Hcs' Hwired).
  - intros c' cs' e Hcs' He. rewrite Ha, length_insert. rewrite Hc in Hcs'.
    destruct (decide (c' = c)) as [-> | Hne].
    + rewrite (lookup_insert_same _ _ _ _ Hcs) in Hcs'. injection Hcs' as <-.
      simpl in He. apply not_elem_of_nil in He. contradiction.
    + rewrite list_lookup_insert_ne in Hcs' by congruence. apply (Hb c' cs' e Hcs' He).
Qed.

Lemma replace_keeps (w w2 : World) (s : ApiState) :
  apis w !! this = Some s ->
  world_of (resetPlayer env this (a_controller s) w) = Some w2 ->
  keeps w (replaced env this s w2).
Proof.
  intros Hs Hw2 Hkept.
  pose proof (reset_keeps _ _ _ _ Hs Hw2 Hkept) as [Ht2 Hb2].
  destruct Hkept as [Ht Hb].
  destruct (Ht this s Hs) as [Hlt _].
  destruct (lookup_lt_is_Some_2 _ _ Hlt) as [cs Hcs].
  destruct (resetPlayer_effect env this _ w w2 s cs Hs Hcs Hw2) as (_ & Ha & Hc & _).
  assert (apis w2 !! this = Some (set_a_events [] s)) as Hs2.
  { rewrite Ha. apply (lookup_insert_same _ _ _ _ Hs). }
  assert (ctrls w2 !! a_controller s
          = Some {| c_element := c_element cs; c_listeners := [] |}) as Hcs2.
  { rewrite Hc. apply (lookup_insert_same _ _ _ _ Hcs). }
  unfold replaced, attached. split.
  - intros a sa Hsa. cbn [apis ctrls set_apis set_ctrls set_trace] in *.
    rewrite length_app. cbn [length].
    destruct (decide (a = this)) as [-> | Hne].
    + rewrite (lookup_insert_same _ _ _ _ Hs2) in Hsa. injection Hsa as <-.
      cbn [a_controller set_a_controller]. split; [lia |].
      intros c' cs' Hcs' Hwired.
      destruct (decide (c' < length (ctrls w2))) as [Hin | Hout].
      * exfalso. rewrite lookup_app_l in Hcs' by exact Hin.
        destruct (Ht2 this _ Hs2) as [_ Hw2'].
        pose proof (Hw2' c' cs' Hcs' Hwired) as Hc'. simpl in Hc'. subst c'.
        rewrite Hcs2 in Hcs'. injection Hcs' as <-.
        destruct Hwired as (e & He & _). simpl in He. apply not_elem_of_nil in He. exact He.
      * pose proof (lookup_lt_Some _ _ _ Hcs') as Hb'.
        rewrite length_app in Hb'. simpl in Hb'. lia.
    + rewrite list_lookup_insert_ne in Hsa by congruence.
      destruct (Ht2 a sa Hsa) as [Hlt2 Hw2']. split; [lia |].
      intros c' cs' Hcs' Hwired.
      destruct (decide (c' < length (ctrls w2))) as [Hin | Hout].
      * rewrite lookup_app_l in Hcs' by exact Hin. apply (Hw2' c' cs' Hcs' Hwired).
      * exfalso. pose proof (lookup_lt_Some _ _ _ Hcs') as Hb'.
        rewrite length_app in Hb'. simpl in Hb'.
        assert (c' = length (ctrls w2)) as -> by lia.
        rewrite lookup_snoc in Hcs'. injection Hcs' as <-.
        destruct Hwired as (e & He & Hapi). simpl in He.
        apply elem_of_cons in He as [-> | He]; [simpl in Hapi; congruence |].
        apply list_elem_of_singleton in He as ->. simpl in Hapi. congruence.
  - intros c' cs' e Hcs' He. cbn [apis ctrls set_apis set_ctrls set_trace] in *.
    rewrite length_insert.
    destruct (decide (c' < length (ctrls w2))) as [Hin | Hout].
    + rewrite lookup_app_l in Hcs' by exact Hin. apply (Hb2 c' cs' e Hcs' He).
    + pose proof (lookup_lt_Some _ _ _ Hcs') as Hb'.
      rewrite length_app in Hb'. simpl in Hb'.
      assert (c' = length (ctrls w2)) as -> by lia.
      rewrite lookup_snoc in Hcs'. injection Hcs' as <-.
      pose proof (lookup_lt_Some _ _ _ Hs2) as Hthis.
      simpl in He.
      apply elem_of_cons in He as [-> | He]; [exact Hthis |].
      apply list_elem_of_singleton in He as ->. exact Hthis.
Qed.

Lemma Keeps_invoke_current (name : string) (args : list value) :
  Keeps (s' ← api_state this; Controller_invoke env (a_controller s') name args).
Proof.
  intros w. rewrite bind_unfold. unfold api_state.
  destruct (apis w !! this) as [s |]; [| exact I].
  unfold Controller_invoke.
  destruct (ctrl_member env (a_controller s) name); simpl; try apply keeps_refl.
  rewrite Controller_apply_eq.
  match goal with |- context [ctrl_result ?e ?c ?k ?l ?w'] =>
    destruct (ctrl_result e c k l w') end; apply keeps_same; reflexivity.
Qed.

Lemma Keeps_setup_tail (member : nat -> string -> option (list value -> M value))
    (options : value) (id : string) :
  (forall name fn args, member this name = Some fn -> Keeps (fn args)) ->
  Keeps (setup_tail env member this options id).
Proof.
  intros Hmem. unfold setup_tail.
  apply Keeps_bind; [apply (Quiet_Keeps this), Quiet_get_member |]. intros evs.
  apply Keeps_bind.
  { unfold utils_foreach. destruct evs; try apply Keeps_ret.
    all: apply Keeps_bind;
      [first [apply (Quiet_Keeps this), Quiet_read_obj
             | apply (Quiet_Keeps this), Quiet_gets] |].
    all: intros o.
    all: apply preserves_foreach_fields; [apply keeps_refl | apply keeps_trans |].
    all: intros k v; destruct (member this k) as [fn |] eqn:Hfn; [| apply Keeps_ret].
    all: apply Keeps_bind; [apply (Quiet_Keeps this), Quiet_log; intros c; exact I |];
      intros _.
    all: apply Keeps_bind; [apply (Hmem _ _ _ Hfn) |]; intros _; apply Keeps_ret. }
  intros _. apply Keeps_bind; [apply (Quiet_Keeps this), Quiet_set_member |]. intros _.
  pose proof (Keeps_invoke_current "setup" [options; VApi this]) as Hinv.
  intros w. specialize (Hinv w). rewrite bind_unfold in *.
  destruct (api_state this w) as [s' w1 | e w1 | why]; [| exact Hinv | exact I].
  rewrite bind_unfold.
  destruct (Controller_invoke env (a_controller s') "setup" [options; VApi this] w1);
    exact Hinv.
Qed.

Lemma Keeps_Api_setup_with (member : nat -> string -> option (list value -> M value))
    (options : value) :
  (forall name fn args, member this name = Some fn -> Keeps (fn args)) ->
  Keeps (Api_setup_with env member this options).
Proof.
  intros Hmem w.
  destruct (apis w !! this) as [s |] eqn:Hs.
  2: { unfold Api_setup_with, qoe_clear, qoe_tick.
       erewrite bind_ok; [cbv beta | reflexivity].
       erewrite bind_ok; [cbv beta | reflexivity].
       rewrite bind_unfold. unfold api_state. cbn [apis set_trace]. rewrite Hs. exact I. }
  destruct (ctrls w !! a_controller s) as [cs |] eqn:Hcs.
  2: { assert (forall A (r : Result A),
                 match r with Ok _ w' | Throw _ w' => keeps w w' | Stuck _ => True end)
         as Hany.
       { intros A r. destruct r; try exact I; intros [Ht _];
           exfalso; destruct (Ht this s Hs) as [Hlt _];
           apply lookup_ge_None_1 in Hcs; lia. }
       apply Hany. }
  rewrite (setup_decompose env this member options w s cs Hs Hcs).
  set (w1 := set_trace _ w).
  assert (keeps w w1) as H01 by (apply keeps_same; reflexivity).
  destruct (resetPlayer env this (a_controller s) w1) as [u w2 | e w2 | why] eqn:Hr;
    [| | exact I].
  - assert (keeps w (replaced env this s w2)) as H04.
    { eapply keeps_trans; [exact H01 |].
      apply (replace_keeps w1 w2 s Hs). rewrite Hr. reflexivity. }
    pose proof (Keeps_setup_tail member options (a_id s) Hmem (replaced env this s w2)) as Htail.
    destruct (setup_tail env member this options (a_id s) (replaced env this s w2));
      try exact I; eapply keeps_trans; eauto.
  - eapply keeps_trans; [exact H01 |].
    apply (reset_keeps (a_controller s) w1 w2 s Hs). rewrite Hr. reflexivity.
Qed.

Lemma Keeps_Api_remove : Keeps (Api_remove env this).
Proof.
  unfold Api_remove.
  apply Keeps_bind.
  { intros w. unfold removePlayer. rewrite bind_unfold. unfold api_state.
    destruct (apis w !! this) as [s |]; [| exact I]. apply keeps_same; reflexivity. }
  intros _. apply Keeps_bind; [apply (Quiet_Keeps this), Quiet_Api_trigger |]. intros _.
  intros w. rewrite bind_unfold. unfold api_state.
  destruct (apis w !! this) as [s |] eqn:Hs; [| exact I].
  rewrite bind_unfold.
  destruct (resetPlayer env this (a_controller s) w) as [u w' | e w' | why] eqn:Hr;
    try exact I; simpl; apply (reset_keeps (a_controller s) w w' s Hs); rewrite Hr; reflexivity.
Qed.

End KeepsSetup.

Lemma Keeps_Api_member (env : Env) (fuel : nat) (this : aid) (name : string)
    (fn : list value -> M value) (args : list value) :
  Api_member env fuel this name = Some fn -> Keeps (fn args).
Proof.
  revert this name fn args. induction fuel as [| fuel IH]; intros this name fn args Hfn.
  all: apply Api_member_cases in Hfn
    as [[-> ->] | [[-> ->] | [[-> ->] | [(method & Hm & ->) | [[-> ->] | (v & Hv)]]]]].
  all: try (apply (Quiet_Keeps this); apply (Quiet_Api_callInternal env this)).
  all: try apply Keeps_Api_remove.
  all: try (apply (Quiet_Keeps this); apply (Quiet_method env this name method args Hm)).
  all: try (apply preserves_throw, keeps_refl).
  all: try (destruct v; simpl in Hv; try discriminate; injection Hv as <-;
            apply (Quiet_Keeps this), Quiet_call_value).
  - intros w. exact I.
  - apply Keeps_Api_setup_with. intros name' fn' args'. apply IH.
Qed.

Lemma Keeps_Controller_trigger (env : Env) (c : cid) (type event : value) :
  Keeps (Controller_trigger env c type event).
Proof.
  assert (forall h args, Keeps (run_listener env h args)) as Hone.
  { intros [api | api] args; simpl.
    - apply (Quiet_Keeps api). unfold qoe_tick. quiet_go.
    - apply (Quiet_Keeps api). quiet_go. }
  assert (forall args l, Keeps (run_listeners env args l)) as Hall.
  { intros args l. induction l as [| [k h] l IH]; simpl; [apply Keeps_ret |].
    apply Keeps_bind; [apply Hone | intros _; exact IH]. }
  unfold Controller_trigger.
  apply Keeps_bind; [apply preserves_ctrl_state; [apply keeps_refl | exact I] |].
  intros s. apply Keeps_bind; [apply Hall | intros _; apply Hall].
Qed.

Lemma constructor_keeps (env : Env) (el : Element) (w w' : World) (this : aid) :
  Api_constructor env el w = Ok this w' -> keeps w w'.
Proof.
  intros Hc [Ht Hb].
  assert (apis w' = apis w ++ [{| a_element := el; a_id := el_id el;
                                  a_uniqueId := instancesCreated w; a_plugins := [];
                                  a_events := []; a_controller := length (ctrls w) |}]
          /\ ctrls w' = ctrls w ++ [{| c_element := el;
                                       c_listeners := [(events env "JWPLAYER_READY",
                                                        ReadyStamp (length (apis w)));
                                                       ("all", Rebroadcast (length (apis w)))] |}])
    as [Ha Hcs].
  { revert Hc. unfold Api_constructor, qoe_tick.
    repeat (erewrite bind_ok; [cbv beta | first [apply setupController_ok | reflexivity]]).
    intros [= <- <-]. split; reflexivity. }
  split.
  - intros a sa Hsa. rewrite Hcs, length_app. cbn [length]. rewrite Ha in Hsa.
    destruct (decide (a < length (apis w))) as [Hin | Hout].
    + rewrite lookup_app_l in Hsa by exact Hin.
      destruct (Ht a sa Hsa) as [Hlt Hw]. split; [lia |].
      intros c cs Hc' Hwired.
      destruct (decide (c < length (ctrls w))) as [Hcin | Hcout].
      * rewrite lookup_app_l in Hc' by exact Hcin. apply (Hw c cs Hc' Hwired).
      * exfalso. pose proof (lookup_lt_Some _ _ _ Hc') as Hb'.
        rewrite length_app in Hb'. simpl in Hb'.
        assert (c = length (ctrls w)) as -> by lia.
        rewrite lookup_snoc in Hc'. injection Hc' as <-.
        destruct Hwired as (e & He & Hapi). simpl in He.
        apply elem_of_cons in He as [-> | He]; [simpl in Hapi; lia |].
        apply list_elem_of_singleton in He as ->. simpl in Hapi. lia.
    + pose proof (lookup_lt_Some _ _ _ Hsa) as Hb'.
      rewrite length_app in Hb'. simpl in Hb'.
      assert (a = length (apis w)) as -> by lia.
      rewrite lookup_snoc in Hsa. injection Hsa as <-. simpl. split; [lia |].
      intros c cs Hc' Hwired.
      destruct (decide (c < length (ctrls w))) as [Hcin | Hcout].
      * exfalso. rewrite lookup_app_l in Hc' by exact Hcin.
        destruct Hwired as (e & He & Hapi).
        pose proof (Hb c cs e Hc' He) as Hlt. lia.
      * pose proof (lookup_lt_Some _ _ _ Hc') as Hb''.
        rewrite length_app in Hb''. simpl in Hb''. lia.
  - intros c cs e Hc' He. rewrite Ha, length_app. cbn [length]. rewrite Hcs in Hc'.
    destruct (decide (c < length (ctrls w))) as [Hcin | Hcout].
    + rewrite lookup_app_l in Hc' by exact Hcin. pose proof (Hb c cs e Hc' He). lia.
    + pose proof (lookup_lt_Some _ _ _ Hc') as Hb'.
      rewrite length_app in Hb'. simpl in Hb'.
      assert (c = length (ctrls w)) as -> by lia.
      rewrite lookup_snoc in Hc'. injection Hc' as <-. simpl in He.
      apply elem_of_cons in He as [-> | He]; [simpl; lia |].
      apply list_elem_of_singleton in He as ->. simpl. lia.
Qed.

Lemma step_keeps (env : Env) (w w' : World) : step env w w' -> keeps w w'.
Proof.
  intros [el this Hc | api Hr | fuel this name fn args Hfn Hw | c type event Hw | d Hd | o l Ha].
  - apply (constructor_keeps env el w w' this Hc).
  - injection Hr as <-. apply keeps_same; reflexivity.
  - pose proof (Keeps_Api_member env fuel this name fn args Hfn w) as H.
    destruct (fn args w); simpl in Hw; try discriminate; injection Hw as <-; exact H.
  - pose proof (Keeps_Controller_trigger env c type event w) as H.
    destruct (Controller_trigger env c type event w); simpl in Hw; try discriminate;
      injection Hw as <-; exact H.
  - injection Hd as <-. apply keeps_same; reflexivity.
  - pose proof (Quiet_Keeps 0 _ (Quiet_alloc 0 o) w) as H. rewrite Ha in H. exact H.
Qed.

Lemma reachable_well_kept (env : Env) (w : World) : reachable env w -> well_kept w.
Proof.
  induction 1 as [| w w' _ IH Hstep].
  - split.
    + intros a s Hs. discriminate.
    + intros c cs e Hc. discriminate.
  - apply (step_keeps env w w' Hstep IH).
Qed.

(** In a reachable world a handle is settled. *)
Lemma reachable_settled (env : Env) (w : World) (this : aid) (s : ApiState) :
  reachable env w -> apis w !! this = Some s ->
  (exists cs, ctrls w !! a_controller s = Some cs)
  /\ (forall c cs', ctrls w !! c = Some cs' -> wired_to this cs' -> c = a_controller s).
Proof.
  intros Hreach Hs. destruct (reachable_well_kept env w Hreach) as [Ht _].
  destruct (Ht this s Hs) as [Hlt Hw]. split; [| exact Hw].
  apply lookup_lt_is_Some_2. exact Hlt.
Qed.

(** ** Replacing the controller *)

Lemma bind_Ok_inv {A B} (m : M A) (k : A -> M B) (w w' : World) (y : B) :
  (m ≫= k) w = Ok y w' -> exists x w1, m w = Ok x w1 /\ k x w1 = Ok y w'.
Proof.
  rewrite bind_unfold. destruct (m w) as [x w1 | e w1 | why]; try discriminate.
  intros H. exists x, w1. split; [reflexivity | exact H].
Qed.

Lemma setup_tail_value (env : Env) (member : nat -> string -> option (list value -> M value))
    (this : aid) (options : value) (id : string) (w w' : World) (v : value) :
  setup_tail env member this options id w = Ok v w' -> v = VApi this.
Proof.
  unfold setup_tail. intros H.
  apply bind_Ok_inv in H as (evs & w1 & _ & H).
  apply bind_Ok_inv in H as (u1 & w2 & _ & H).
  apply bind_Ok_inv in H as (u2 & w3 & _ & H).
  apply bind_Ok_inv in H as (s' & w4 & _ & H).
  apply bind_Ok_inv in H as (r & w5 & _ & H).
  injection H as <- _. reflexivity.
Qed.

Lemma settled_bound (a : aid) (n m : cid) (w : World) :
  settled a n w ->
  (forall s, apis w !! a = Some s -> m <= a_controller s) ->
  settled a m w.
Proof.
  intros (s & Hs & _ & Hlt & Hw) Hm. exists s.
  split; [exact Hs |]. split; [apply (Hm s Hs) |]. split; assumption.
Qed.

Lemma Controller_trigger_unwired (env : Env) (c : cid) (type event : value) (w : World)
    (cs : CtrlState) :
  ctrls w !! c = Some cs -> c_listeners cs = [] ->
  Controller_trigger env c type event w = Ok tt w.
Proof.
  intros Hc Hl. unfold Controller_trigger.
  rewrite (bind_ok _ _ _ _ _ (ctrl_state_ok _ _ _ Hc)). rewrite Hl. reflexivity.
Qed.

(** A call of [setup] that starts in a world where the handle's controller
    exists and no other controller is wired to the handle.  Every reachable
    world is such a world, and so are the worlds in which a binding of the
    options calls [setup] again. *)
Lemma setup_replaces_controller
    (env : Env) (fuel : nat) (this : aid) (options : value) (w w' : World)
    (s : ApiState) (cs : CtrlState) :
  apis w !! this = Some s ->
  ctrls w !! a_controller s = Some cs ->
  (forall c cs', ctrls w !! c = Some cs' -> wired_to this cs' -> c = a_controller s) ->
  world_of (Api_setup env fuel this options w) = Some w' ->
  replaces_in_order env fuel this options s w w'.
Proof.
  intros Hs Hcs Hwired Hw'. cbv beta delta [replaces_in_order]. intros old new start attach.
  assert (old < new) as Hlt by (eapply lookup_lt_Some; eauto).
  assert (settled this old w) as Hset.
  { exists s. split; [exact Hs |]. split; [reflexivity |]. split; [exact Hlt | exact Hwired]. }
  unfold Api_setup in *.
  rewrite (setup_decompose env this _ options w s cs Hs Hcs) in *.
  set (w1 := set_trace (trace w ++ [EvQoe this "clear" ["ready"];
                                    EvQoe this "tick" ["setup"]]) w) in *.
  assert (never_two this [old] start /\ wired_after this [old] start = [old]) as [Hn0 Ha0].
  { unfold wired_after. simpl. repeat split; solve [lia | reflexivity]. }
  destruct (resetPlayer env this (a_controller s) w1) as [u w2 | e w2 | why] eqn:Hr;
    [| | simpl in Hw'; discriminate].
  - (* the old controller is torn down, the new one is put in place *)
    assert (world_of (resetPlayer env this (a_controller s) w1) = Some w2) as Hw2 by (rewrite Hr; reflexivity).
    destruct (replaced_facts env this w w2 s cs Hs Hcs Hw2)
      as (Ht2 & Ha2 & Hc2 & Hh2 & Hlen & Ht4 & Ha4 & Hc4 & Hh4).
    set (w4 := replaced env this s w2) in *.
    assert (settled this new w4) as Hset4.
    { apply (settled_bound this old).
      - apply (replace_orderly env this old w1 w2 s Hs Hw2). exact Hset.
      - intros s4 Hs4. rewrite Ha4 in Hs4. injection Hs4 as <-. simpl. lia. }
    pose proof (Orderly_setup_tail env this new (Api_member env fuel) options (a_id s)
                  (fun name fn args => Orderly_Api_member env new fuel this name fn args) w4)
      as Htail.
    assert (orderly_post this new w4 w') as [Hset' Hbelow (rest' & Ht' & Habove & Hreplay & Hcalm)].
    { destruct (setup_tail env (Api_member env fuel) this options (a_id s) w4);
        simpl in Hw'; try discriminate; injection Hw' as <-; apply Htail; exact Hset4. }
    assert (ctrls w' !! old = Some {| c_element := c_element cs; c_listeners := [] |}) as Hold.
    { rewrite (Hbelow old Hlt), Hc4, lookup_app_l by (rewrite Hlen; exact Hlt).
      rewrite Hc2. apply (lookup_insert_same _ _ _ _ Hcs). }
    exists (attach ++ rest'). split.
    { rewrite Ht', Ht4, Ht2, <- !app_assoc. reflexivity. }
    split; [right; exists rest'; reflexivity |].
    split.
    { apply Forall_app. split; [| exact Habove].
      repeat (apply Forall_cons; split; [unfold above; simpl; lia |]). constructor. }
    split.
    { destruct (teardown_replay env this old [old] (or_intror eq_refl)) as [Hn1 Ha1].
      destruct (attach_replay this new (a_element s) (events env "JWPLAYER_READY") "all")
        as [Hn2 Ha2'].
      change (never_two this [] attach) in Hn2.
      change (wired_after this [] attach = [new]) in Ha2'.
      destruct (Hreplay [new]) as [Hn3 _].
      { right. eexists. split; [exact Ha4 | reflexivity]. }
      apply never_two_app. split; [exact Hn0 |]. rewrite Ha0.
      apply never_two_app. split; [exact Hn1 |]. rewrite Ha1.
      apply never_two_app. split; [exact Hn2 |]. rewrite Ha2'. exact Hn3. }
    split; [rewrite Hold; reflexivity |].
    split; [intros type event; apply (Controller_trigger_unwired env old _ _ _ _ Hold eq_refl) |].
    split; [apply (settled_bound this new); [exact Hset' | intros s' Hs'; destruct Hset'
              as (s0 & Hs0 & Hge & _); assert (s0 = s') as -> by congruence; lia] |].
    intros v Hv. split; [apply (setup_tail_value _ _ _ _ _ _ _ _ Hv) |].
    exists rest'. split; [reflexivity |]. split; [exact Hset' |].
    intros Hq. destruct (Hcalm Hq) as [Hc' Ha']. split.
    + rewrite Ha', Ha4. reflexivity.
    + rewrite Hc', Hc4. replace new with (length (ctrls w2) + 0) by lia.
      rewrite lookup_app_r by lia. replace (length (ctrls w2) + 0 - length (ctrls w2)) with 0 by lia.
      reflexivity.
  - (* the destroy hook failed: the call ends there *)
    simpl in Hw'. injection Hw' as <-.
    assert (world_of (resetPlayer env this (a_controller s) w1) = Some w2) as Hw2 by (rewrite Hr; reflexivity).
    destruct (replaced_facts env this w w2 s cs Hs Hcs Hw2) as (Ht2 & Ha2 & Hc2 & _).
    assert (ctrls w2 !! old = Some {| c_element := c_element cs; c_listeners := [] |}) as Hold.
    { rewrite Hc2. apply (lookup_insert_same _ _ _ _ Hcs). }
    exists []. split; [rewrite Ht2, app_nil_r; reflexivity |].
    split; [left; reflexivity |]. split; [constructor |]. split.
    { destruct (teardown_replay env this old [old] (or_intror eq_refl)) as [Hn1 Ha1].
      rewrite app_nil_r. apply never_two_app. split; [exact Hn0 |]. rewrite Ha0. exact Hn1. }
    split; [rewrite Hold; reflexivity |].
    split; [intros type event; apply (Controller_trigger_unwired env old _ _ _ _ Hold eq_refl) |].
    split; [| discriminate].
    apply (reset_orderly env this old w1 w2 s Hs Hw2). exact Hset.
Qed.

(** *** Live controllers *)

Lemma reports_to_wired (a : aid) (cs : CtrlState) :
  reports_to a cs = true <-> wired_to a cs.
Proof.
  unfold reports_to, wired_to. rewrite existsb_exists. split.
  - intros (e & He & Hb). exists e. split; [apply list_elem_of_In; exact He |].
    apply bool_decide_eq_true in Hb. exact Hb.
  - intros (e & He & Hb). exists e. split; [apply list_elem_of_In; exact He |].
    apply bool_decide_eq_true. exact Hb.
Qed.

Lemma filter_seq_at_most_one (P : nat -> bool) (m n : nat) :
  (forall c, c < n -> P c = true -> c = m) ->
  List.filter P (seq 0 n) = if Nat.ltb m n && P m then [m] else [].
Proof.
  induction n as [| n IH]; intros H; [reflexivity |].
  rewrite seq_S, List.filter_app, IH by (intros c Hc; apply H; lia).
  cbn [List.filter Nat.add]. destruct (P n) eqn:Hn.
  - assert (n = m) as <- by (apply H; [lia | exact Hn]).
    rewrite Hn, Nat.ltb_irrefl. replace (Nat.ltb n (S n)) with true
      by (symmetry; apply Nat.ltb_lt; lia). reflexivity.
  - destruct (Nat.ltb_spec m n) as [Hlt | Hge].
    + replace (Nat.ltb m (S n)) with true by (symmetry; apply Nat.ltb_lt; lia).
      apply app_nil_r.
    + destruct (Nat.ltb_spec m (S n)) as [Hlt' | Hge']; [| reflexivity].
      assert (m = n) as -> by lia. rewrite Hn. reflexivity.
Qed.

(** When only the controller a handle holds may be wired to it, at most
    that one is live. *)
Lemma live_held (a : aid) (w : World) (s : ApiState) :
  (forall c cs, ctrls w !! c = Some cs -> wired_to a cs -> c = a_controller s) ->
  live a w = [] \/ live a w = [a_controller s].
Proof.
  intros Hw. unfold live. rewrite (filter_seq_at_most_one _ (a_controller s)).
  - destruct (_ && _); tauto.
  - intros c _ Hc. destruct (ctrls w !! c) as [cs |] eqn:E; [| discriminate].
    apply (Hw c cs E). apply reports_to_wired. exact Hc.
Qed.

Lemma live_wired (a : aid) (w : World) (s : ApiState) (cs : CtrlState) :
  (forall c cs, ctrls w !! c = Some cs -> wired_to a cs -> c = a_controller s) ->
  ctrls w !! a_controller s = Some cs ->
  reports_to a cs = true ->
  live a w = [a_controller s].
Proof.
  intros Hw Hcs Hr. unfold live. rewrite (filter_seq_at_most_one _ (a_controller s)).
  - rewrite Hcs, Hr. replace (Nat.ltb (a_controller s) (length (ctrls w))) with true; [reflexivity |].
    symmetry. apply Nat.ltb_lt. eapply lookup_lt_Some. exact Hcs.
  - intros c _ Hc. destruct (ctrls w !! c) as [cs' |] eqn:E; [| discriminate].
    apply (Hw c cs' E). apply reports_to_wired. exact Hc.
Qed.

(** C1. In every world a process can reach, [setup(options)] first tears the
    handle's controller down: the handle's listeners are detached, then the
    controller's, then its destroy hook runs, once, if it has one.  Only
    then, and only if the hook did not fail, is the replacement created and
    wired.  Nothing later in the call concerns the old controller.  At no
    point of the call are two controllers live for the handle: at most the
    old one is before the call, none is once it is torn down, the
    replacement alone is once it is wired, and when the call ends at most
    the controller the handle holds is.  The old controller then has no
    listener left, so an event it emits reaches nobody.  When [setup]
    returns, and no binding of the options detached or replaced the
    controller again, exactly one controller is live: the replacement, which
    the handle holds, wired with its two listeners. *)
Theorem setup_tears_down_before_replacing
    (env : Env) (fuel : nat) (this : aid) (options : value) (w w' : World)
    (s : ApiState) :
  reachable env w ->
  apis w !! this = Some s ->
  world_of (Api_setup env fuel this options w) = Some w' ->
  let old := a_controller s in
  let new := length (ctrls w) in
  let start := [EvQoe this "clear" ["ready"]; EvQoe this "tick" ["setup"]] in
  let attach := [EvCtrlNew new (a_element s);
                 EvCtrlOn new (events env "JWPLAYER_READY") (ReadyStamp this);
                 EvCtrlOn new "all" (Rebroadcast this)] in
  exists rest,
    trace w' = trace w ++ start ++ teardown env this old ++ rest
    /\ (rest = [] \/ exists rest', rest = attach ++ rest')
    /\ Forall (above new) rest
    /\ never_two this [old] (start ++ teardown env this old ++ rest)
    /\ wired_after this [old] (start ++ teardown env this old) = []
    /\ wired_after this [old] (start ++ teardown env this old ++ attach) = [new]
    /\ (live this w = [] \/ live this w = [old])
    /\ (live this w' = []
        \/ exists s', apis w' !! this = Some s' /\ live this w' = [a_controller s'])
    /\ (c_listeners <$> ctrls w' !! old) = Some []
    /\ (forall type event, Controller_trigger env old type event w' = Ok tt w')
    /\ settled this old w'
    /\ (forall v, Api_setup env fuel this options w = Ok v w' ->
          v = VApi this
          /\ exists rest', rest = attach ++ rest'
             /\ settled this new w'
             /\ (Forall (fun e => wiring e = false) rest' ->
                   (a_controller <$> apis w' !! this) = Some new
                   /\ (c_listeners <$> ctrls w' !! new)
                      = Some [(events env "JWPLAYER_READY", ReadyStamp this);
                              ("all", Rebroadcast this)]
                   /\ live this w' = [new])).
Proof.
  intros Hreach Hs Hw' old new start attach.
  destruct (reachable_settled env w this s Hreach Hs) as [[cs Hcs] Hwired].
  destruct (setup_replaces_controller env fuel this options w w' s cs Hs Hcs Hwired Hw')
    as (rest & Htrace & Hrest & Habove & Hnever & Hold & Hsilent & Hset & Hok).
  assert (wired_after this [old] (start ++ teardown env this old) = []) as Hdown.
  { rewrite wired_after_app.
    replace (wired_after this [old] start) with [old] by reflexivity.
    apply (teardown_replay env this old [old]). right. reflexivity. }
  exists rest. split; [exact Htrace |]. split; [exact Hrest |]. split; [exact Habove |].
  split; [exact Hnever |]. split; [exact Hdown |].
  split.
  { rewrite app_assoc, wired_after_app, Hdown.
    apply (attach_replay this new (a_element s) (events env "JWPLAYER_READY") "all"). }
  split; [apply (live_held this w s Hwired) |].
  split.
  { destruct Hset as (s' & Hs' & _ & _ & Hw1).
    destruct (live_held this w' s' Hw1) as [Hl | Hl]; [left; exact Hl |].
    right. exists s'. split; [exact Hs' | exact Hl]. }
  split; [exact Hold |]. split; [exact Hsilent |]. split; [exact Hset |].
  intros v Hv. destruct (Hok v Hv) as (Hval & rest' & Hrest' & Hset' & Hcalm).
  split; [exact Hval |]. exists rest'. split; [exact Hrest' |]. split; [exact Hset' |].
  intros Hq. destruct (Hcalm Hq) as [Hheld Hlisten].
  split; [exact Hheld |]. split; [exact Hlisten |].
  destruct Hset' as (s' & Hs' & _ & _ & Hw1).
  assert (a_controller s' = new) as Hnew.
  { rewrite Hs' in Hheld. injection Hheld as Hh. exact Hh. }
  assert (exists cs', ctrls w' !! new = Some cs'
            /\ c_listeners cs' = [(events env "JWPLAYER_READY", ReadyStamp this);
                                  ("all", Rebroadcast this)]) as (cs' & Hcs' & Hl).
  { destruct (ctrls w' !! new) as [cs' |] eqn:E; unfold new in E; rewrite E in Hlisten.
    - exists cs'. split; [reflexivity |]. injection Hlisten as Hl. exact Hl.
    - discriminate Hlisten. }
  rewrite <- Hnew. apply (live_wired this w' s' cs' Hw1).
  - rewrite Hnew. exact Hcs'.
  - unfold reports_to. rewrite Hl. simpl.
    rewrite bool_decide_true by reflexivity. reflexivity.
Qed.

Lemma demo_world_options_reachable : reachable demo_env demo_world_options.
Proof.
  apply (reachable_step _ (world_after (alloc [("setVolume", VNum 50)]) demo_world));
    [apply (reachable_step _ demo_world); [apply (reachable_step _ init) |] |].
  - apply reachable_init.
  - apply (step_construct _ _ _ {| el_id := "player" |} 0). vm_compute. reflexivity.
  - apply (step_alloc _ _ _ [("setVolume", VNum 50)] 0). vm_compute. reflexivity.
  - apply (step_alloc _ _ _ [("events", VObj 0)] 1). vm_compute. reflexivity.
Qed.

Lemma setup_tears_down_before_replacing_witness :
  Api_setup demo_env 0 0 (VObj 1) demo_world_options = Ok (VApi 0) demo_world_setup
  /\ trace demo_world_setup
     = trace demo_world_options
       ++ [EvQoe 0 "clear" ["ready"]; EvQoe 0 "tick" ["setup"];
           EvOff 0 VUndefined VUndefined VUndefined; EvCtrlOff 0;
           EvCtrlCall 0 "playerDestroy" [];
           EvCtrlNew 1 {| el_id := "player" |};
           EvCtrlOn 1 "ready" (ReadyStamp 0); EvCtrlOn 1 "all" (Rebroadcast 0);
           EvApiCall 0 "setVolume" [VNum 50]; EvCtrlCall 1 "setVolume" [VNum 50];
           EvWrite 1 "id" (VStr "player"); EvCtrlCall 1 "setup" [VObj 1; VApi 0]]
  /\ (c_listeners <$> ctrls demo_world_setup !! 0) = Some []
  /\ live 0 demo_world_options = [0]
  /\ live 0 demo_world_setup = [1].
Proof.
  assert (Api_setup demo_env 0 0 (VObj 1) demo_world_options = Ok (VApi 0) demo_world_setup)
    as Hrun by (vm_compute; reflexivity).
  split; [exact Hrun |].
  destruct (setup_tears_down_before_replacing demo_env 0 0 (VObj 1) demo_world_options
              demo_world_setup demo_handle)
    as (rest & Ht & _ & _ & _ & _ & _ & _ & _ & Hold & _ & _ & Hok).
  - apply demo_world_options_reachable.
  - vm_compute. reflexivity.
  - rewrite Hrun. reflexivity.
  - split; [vm_compute; reflexivity |]. split; [exact Hold |].
    split; [vm_compute; reflexivity |].
    destruct (Hok (VApi 0) Hrun) as (_ & rest' & Hrest & _ & Hcalm).
    apply Hcalm. rewrite Hrest in Ht.
    apply (f_equal (drop (length (trace demo_world_options) + 8))) in Ht.
    vm_compute in Ht. rewrite <- Ht. repeat constructor.
Defined.

(** A second [setup] in succession: the first replacement is torn down in
    turn, each destroy hook has run once, and one controller is wired. *)
Example setup_twice :
  Api_setup demo_env 0 0 (VObj 1) demo_world_setup = Ok (VApi 0) demo_world_setup_twice
  /\ List.filter (fun e => bool_decide (event_ctrl e <> None))
       (drop (length (trace demo_world_options)) (trace demo_world_setup_twice))
     = [EvCtrlOff 0; EvCtrlCall 0 "playerDestroy" [];
        EvCtrlNew 1 {| el_id := "player" |};
        EvCtrlOn 1 "ready" (ReadyStamp 0); EvCtrlOn 1 "all" (Rebroadcast 0);
        EvCtrlCall 1 "setVolume" [VNum 50]; EvCtrlCall 1 "setup" [VObj 1; VApi 0];
        EvCtrlOff 1; EvCtrlCall 1 "playerDestroy" [];
        EvCtrlNew 2 {| el_id := "player" |};
        EvCtrlOn 2 "ready" (ReadyStamp 0); EvCtrlOn 2 "all" (Rebroadcast 0);
        EvCtrlCall 2 "setVolume" [VNum 50]; EvCtrlCall 2 "setup" [VObj 1; VApi 0]]
  /\ (c_listeners <$> ctrls demo_world_setup_twice)
     = [[]; []; [("ready", ReadyStamp 0); ("all", Rebroadcast 0)]].
Proof. split; [| split]; vm_compute; reflexivity. Qed.

(** A binding that names [remove] detaches the replacement again: [setup]
    returns, and the handle is left without a live controller, where it had
    one before the call. *)
Lemma setup_can_leave_no_live_controller :
  reachable demo_env demo_world_remove_binding
  /\ live 0 demo_world_remove_binding = [0]
  /\ Api_setup demo_env 0 0 (VObj 1) demo_world_remove_binding
     = Ok (VApi 0) demo_world_setup_remove
  /\ live 0 demo_world_setup_remove = []
  /\ (c_listeners <$> ctrls demo_world_setup_remove) = [[]; []].
Proof.
  split.
  { apply (reachable_step _ (world_after (alloc [("remove", VNull)]) demo_world));
      [apply (reachable_step _ demo_world); [apply (reachable_step _ init) |] |].
    - apply reachable_init.
    - apply (step_construct _ _ _ {| el_id := "player" |} 0). vm_compute. reflexivity.
    - apply (step_alloc _ _ _ [("remove", VNull)] 0). vm_compute. reflexivity.
    - apply (step_alloc _ _ _ [("events", VObj 0)] 1). vm_compute. reflexivity. }
  split; [| split; [| split]]; vm_compute; reflexivity.
Qed.

(** A destroy hook that raises ends [setup] before the replacement is
    created: the handle keeps the controller it had, which is no longer
    live. *)
Example setup_after_failed_teardown :
  exists w',
    Api_setup failing_env 0 0 (VObj 0) failing_world = Throw (VStr "destroy failed") w'
    /\ live 0 failing_world = [0]
    /\ live 0 w' = []
    /\ length (ctrls w') = 1
    /\ (a_controller <$> apis w' !! 0) = Some 0.
Proof. eexists. split; [| split; [| split; [| split]]]; vm_compute; reflexivity. Qed.

(** ** Declarative bindings *)

Lemma foreach_bound_calls (env : Env) (fuel : nat) (this : aid)
    (evs : list (string * value)) :
  forall w w',
  foreach_fields
    (fun evt val =>
       match Api_member env fuel this evt with
       | Some fn => log (EvApiCall this evt [val]);; fn [val];; mret tt
       | None => mret tt
       end) evs w = Ok tt w' ->
  exists d, trace w' = trace w ++ d /\ bound_calls env fuel this evs `sublist_of` d.
Proof.
  induction evs as [| [k val] evs IH]; intros w w' Hrun; simpl in Hrun.
  - injection Hrun as <-. exists []. split; [symmetry; apply app_nil_r | reflexivity].
  - apply bind_Ok_inv in Hrun as ([] & w1 & Hfirst & Hrest).
    destruct (IH _ _ Hrest) as (d2 & Ht2 & Hsub2).
    unfold bound_calls. simpl.
    destruct (Api_member env fuel this k) as [fn |] eqn:Hfn.
    + apply bind_Ok_inv in Hfirst as ([] & w0 & Hlog & Hcall).
      injection Hlog as <-.
      apply bind_Ok_inv in Hcall as (r & w0' & Hcall & Hret).
      injection Hret as <-.
      pose proof (Stable_Api_member env fuel this k fn [val] Hfn
                    (set_trace (trace w ++ [EvApiCall this k [val]]) w)) as Hst.
      rewrite Hcall in Hst. destruct (st_trace _ _ Hst) as (d1 & Ht1). simpl in Ht1.
      exists (EvApiCall this k [val] :: d1 ++ d2). split.
      * rewrite Ht2, Ht1, <- !app_assoc. reflexivity.
      * simpl. apply sublist_skip. apply sublist_inserts_l. exact Hsub2.
    + injection Hfirst as <-. exists d2. split; [exact Ht2 | exact Hsub2].
Qed.

Lemma Api_member_setVolume (env : Env) (fuel : nat) (this : aid) :
  Api_member env fuel this "setVolume"
  = Some (fun args => Api_setVolume env this (arg 0 args)).
Proof. destruct fuel; reflexivity. Qed.

Lemma setup_needs_controller (env : Env) (fuel : nat) (this : aid) (options : value)
    (w : World) (s : ApiState) :
  apis w !! this = Some s ->
  ctrls w !! a_controller s = None ->
  world_of (Api_setup env fuel this options w) = None.
Proof.
  intros Hs Hcs. unfold Api_setup, Api_setup_with, qoe_clear, qoe_tick.
  erewrite bind_ok; [cbv beta | reflexivity].
  erewrite bind_ok; [cbv beta | reflexivity].
  erewrite bind_ok; [cbv beta | apply api_state_ok; exact Hs].
  rewrite bind_unfold. unfold resetPlayer, Api_off.
  erewrite bind_ok; [cbv beta | apply (Events_off_all_ok env _ _ s); exact Hs].
  rewrite bind_unfold. unfold Controller_off. rewrite bind_unfold.
  unfold ctrl_state. cbn [ctrls set_trace set_apis]. rewrite Hcs. reflexivity.
Qed.

(** C8. When [setup(options)] returns, with options a record whose [events]
    member is a record, then for every key of that events map under which
    the handle has a function, the function was called on the handle with
    the key's value as its only argument, in the order of the keys, after
    the new controller was put in place and before the handle's id was
    written into the options; that write comes immediately before the call
    of the controller's [setup] with the options and the handle, which ends
    the call.  For the events map [{setVolume: val}] and a controller with a
    [setVolume] operation, the binding is exactly one call of that operation
    on the new controller with [val]. *)
Theorem setup_applies_event_bindings
    (env : Env) (fuel : nat) (this : aid) (l le : loc) (o evs : list (string * value))
    (w w' : World) (s : ApiState) (v : value) :
  apis w !! this = Some s ->
  heap w !! l = Some o ->
  field "events" o = Some (VObj le) ->
  heap w !! le = Some evs ->
  Api_setup env fuel this (VObj l) w = Ok v w' ->
  let new := length (ctrls w) in
  let head :=
    [EvQoe this "clear" ["ready"]; EvQoe this "tick" ["setup"]]
    ++ teardown env this (a_controller s)
    ++ [EvCtrlNew new (a_element s);
        EvCtrlOn new (events env "JWPLAYER_READY") (ReadyStamp this);
        EvCtrlOn new "all" (Rebroadcast this)] in
  exists bindings c,
    trace w' = trace w ++ head ++ bindings
                       ++ [EvWrite l "id" (VStr (a_id s));
                           EvCtrlCall c "setup" [VObj l; VApi this]]
    /\ bound_calls env fuel this evs `sublist_of` bindings
    /\ (a_controller <$> apis w' !! this) = Some c
    /\ (field "id" <$> heap w' !! l) = Some (Some (VStr (a_id s)))
    /\ (forall val, evs = [("setVolume", val)] ->
          ctrl_member env new "setVolume" = Callable ->
          c = new
          /\ bindings = [EvApiCall this "setVolume" [val]; EvCtrlCall new "setVolume" [val]]).
Proof.
  intros Hs Hl Hevents Hle Hrun new head.
  destruct (ctrls w !! a_controller s) as [cs |] eqn:Hcs.
  2: { pose proof (setup_needs_controller env fuel this (VObj l) w s Hs Hcs) as Hno.
       rewrite Hrun in Hno. discriminate. }
  unfold Api_setup in Hrun.
  rewrite (setup_decompose env this _ (VObj l) w s cs Hs Hcs) in Hrun.
  set (w1 := set_trace (trace w ++ [EvQoe this "clear" ["ready"];
                                    EvQoe this "tick" ["setup"]]) w) in *.
  destruct (resetPlayer env this (a_controller s) w1) as [u w2 | e w2 | why] eqn:Hr;
    try discriminate.
  assert (world_of (resetPlayer env this (a_controller s) w1) = Some w2) as Hw2
    by (rewrite Hr; reflexivity).
  destruct (replaced_facts env this w w2 s cs Hs Hcs Hw2)
    as (Ht2 & Ha2 & Hc2 & Hh2 & Hlen & Ht4 & Ha4 & Hc4 & Hh4).
  set (w4 := replaced env this s w2) in *.
  assert (trace w4 = trace w ++ head) as Hhead.
  { rewrite Ht4, Ht2, <- !app_assoc. reflexivity. }
  unfold setup_tail in Hrun.
  (* options.events *)
  assert (get_member (VObj l) "events" w4 = Ok (VObj le) w4) as Hget.
  { rewrite (get_member_obj_ok l "events" w4 o) by (rewrite Hh4; exact Hl).
    rewrite Hevents. reflexivity. }
  rewrite (bind_ok _ _ _ _ _ Hget) in Hrun. cbv beta in Hrun.
  (* the bindings *)
  apply bind_Ok_inv in Hrun as ([] & w5 & Hforeach & Hrun).
  unfold utils_foreach in Hforeach.
  rewrite (bind_ok _ _ _ _ _ (read_obj_ok le evs w4 ltac:(rewrite Hh4; exact Hle))) in Hforeach.
  cbv beta in Hforeach.
  destruct (foreach_bound_calls env fuel this evs w4 w5 Hforeach) as (bindings & Ht5 & Hsub).
  (* options.id = this.id *)
  apply bind_Ok_inv in Hrun as ([] & w6 & Hset & Hrun).
  unfold set_member in Hset.
  apply bind_Ok_inv in Hset as (o5 & w5' & Hread & Hset).
  unfold read_obj in Hread. destruct (heap w5 !! l) as [o5' |] eqn:Hl5; try discriminate.
  injection Hread as <- <-.
  apply bind_Ok_inv in Hset as ([] & w5' & Hmod & Hlog).
  injection Hmod as <-. injection Hlog as <-.
  (* _controller.setup(options, this) *)
  apply bind_Ok_inv in Hrun as (s6 & w6 & Hstate & Hrun).
  unfold api_state in Hstate. simpl in Hstate.
  destruct (apis w5 !! this) as [s5 |] eqn:Hs5; try discriminate.
  injection Hstate as <- <-.
  apply bind_Ok_inv in Hrun as (r & w7 & Hinvoke & Hret).
  injection Hret as <- <-.
  unfold Controller_invoke in Hinvoke.
  destruct (ctrl_member env (a_controller s5) "setup"); try discriminate.
  rewrite Controller_apply_eq in Hinvoke.
  match type of Hinvoke with context [ctrl_result ?e ?c ?k ?a ?x] =>
    destruct (ctrl_result e c k a x) end; try discriminate.
  injection Hinvoke as <- <-.
  exists bindings, (a_controller s5). cbn [trace apis heap set_trace set_heap].
  split; [rewrite Ht5, Hhead, <- !app_assoc; reflexivity |].
  split; [exact Hsub |].
  split; [rewrite Hs5; reflexivity |].
  split.
  { rewrite (lookup_insert_same _ _ _ _ Hl5). cbn [fmap option_fmap option_map].
    rewrite field_set_field_eq. reflexivity. }
  intros val -> Hcallable.
  simpl in Hforeach. rewrite Api_member_setVolume in Hforeach.
  apply bind_Ok_inv in Hforeach as ([] & w8 & Hfirst & Hlast).
  injection Hlast as <-.
  apply bind_Ok_inv in Hfirst as ([] & w9 & Hlog & Hcall).
  injection Hlog as <-.
  apply bind_Ok_inv in Hcall as (r' & w10 & Hcall & Hret).
  injection Hret as <-.
  unfold Api_setVolume, forward_this, Api_callInternal in Hcall.
  apply bind_Ok_inv in Hcall as (r'' & w11 & Hcall & Hret).
  injection Hret as _ <-.
  rewrite bind_unfold in Hcall. unfold api_state in Hcall.
  cbn [apis set_trace] in Hcall. rewrite Ha4 in Hcall.
  cbn [a_controller set_a_controller to_key] in Hcall.
  fold new in Hcall. rewrite Hcallable in Hcall.
  rewrite Controller_apply_eq in Hcall.
  match type of Hcall with context [ctrl_result ?e ?c ?k ?a ?x] =>
    destruct (ctrl_result e c k a x) end; try discriminate.
  injection Hcall as _ <-.
  cbn [apis set_trace] in Hs5. rewrite Ha4 in Hs5. injection Hs5 as <-.
  split; [reflexivity |].
  cbn [trace set_trace] in Ht5. rewrite <- app_assoc in Ht5.
  apply app_inv_head in Ht5. symmetry. exact Ht5.
Qed.

Lemma setup_applies_event_bindings_witness :
  Api_setup demo_env 0 0 (VObj 1) demo_world_options = Ok (VApi 0) demo_world_setup
  /\ (exists before after,
        trace demo_world_setup
        = before ++ [EvApiCall 0 "setVolume" [VNum 50]; EvCtrlCall 1 "setVolume" [VNum 50]]
                 ++ after
        /\ after = [EvWrite 1 "id" (VStr "player"); EvCtrlCall 1 "setup" [VObj 1; VApi 0]])
  /\ (field "id" <$> heap demo_world_setup !! 1) = Some (Some (VStr "player")).
Proof.
  assert (Api_setup demo_env 0 0 (VObj 1) demo_world_options = Ok (VApi 0) demo_world_setup)
    as Hrun by (vm_compute; reflexivity).
  split; [exact Hrun |].
  destruct (setup_applies_event_bindings demo_env 0 0 1 0
              [("events", VObj 0)] [("setVolume", VNum 50)]
              demo_world_options demo_world_setup demo_handle (VApi 0))
    as (bindings & c & Ht & _ & _ & Hid & Hvol).
  - vm_compute. reflexivity.
  - vm_compute. reflexivity.
  - reflexivity.
  - vm_compute. reflexivity.
  - exact Hrun.
  - destruct (Hvol (VNum 50) eq_refl eq_refl) as [-> ->]. split; [| exact Hid].
    eexists _, _. split; [| reflexivity].
    rewrite Ht, app_assoc. reflexivity.
Defined.

(** Keys under which the handle has no function are skipped; the others are
    served in the order of the map. *)
Example bindings_in_order :
  bound_calls demo_env 0 0
    [("setMute", VBool true); ("autostart", VBool true); ("id", VStr "x");
     ("setVolume", VNum 50)]
  = [EvApiCall 0 "setMute" [VBool true]; EvApiCall 0 "setVolume" [VNum 50]].
Proof. vm_compute. reflexivity. Qed.

(** * Further properties of the facade *)

(** ** What the methods of the class leave alone *)





(** ** Records handed to the facade *)

Lemma grows_refl (w : World) : grows w w.
Proof. unfold grows. reflexivity. Qed.

Lemma grows_trans (w1 w2 w3 : World) : grows w1 w2 -> grows w2 w3 -> grows w1 w3.
Proof. unfold grows. intros H1 H2. etrans; eauto. Qed.

Lemma grows_same (w w' : World) : heap w' = heap w -> grows w w'.
Proof. unfold grows. intros ->. reflexivity. Qed.

Create HintDb grows.

Section GrowsOps.

Context (env : Env).

Lemma Grows_bind {A B} (m : M A) (k : A -> M B) :
  Grows m -> (forall x, Grows (k x)) -> Grows (m ≫= k).
Proof. intros Hm Hk. eapply preserves_bind; eauto using grows_trans. Qed.

Lemma Grows_ret {A} (x : A) : Grows (mret x).
Proof. apply preserves_ret, grows_refl. Qed.

Lemma Grows_throw {A} (e : value) : Grows (throw (A := A) e).
Proof. apply preserves_throw, grows_refl. Qed.

Lemma Grows_gets {A} (f : World -> A) : Grows (gets f).
Proof. apply preserves_gets, grows_refl. Qed.

Lemma Grows_answer (o : World -> outcome) : Grows (answer o).
Proof. apply preserves_answer, grows_refl. Qed.

Lemma Grows_api_state (b : aid) : Grows (api_state b).
Proof. apply preserves_api_state; [apply grows_refl | exact I]. Qed.

Lemma Grows_ctrl_state (c : cid) : Grows (ctrl_state c).
Proof. apply preserves_ctrl_state; [apply grows_refl | exact I]. Qed.

Lemma Grows_read_obj (l : loc) : Grows (read_obj l).
Proof. apply preserves_read_obj; [apply grows_refl | exact I]. Qed.

Lemma Grows_modify (f : World -> World) :
  (forall w, heap (f w) = heap w) -> Grows (modify f).
Proof. intros Hf. apply preserves_modify. intros w. apply grows_same, Hf. Qed.

Lemma Grows_log (e : Event) : Grows (log e).
Proof. apply Grows_modify. reflexivity. Qed.

Lemma Grows_update_api (a : aid) (f : ApiState -> ApiState) : Grows (update_api a f).
Proof.
  unfold update_api. apply Grows_bind; [apply Grows_api_state |].
  intros s. apply Grows_modify. reflexivity.
Qed.

Lemma Grows_alloc (o : obj) : Grows (alloc o).
Proof.
  intros w. unfold alloc. rewrite !bind_unfold. simpl.
  unfold grows. simpl. apply prefix_app_r. reflexivity.
Qed.

End GrowsOps.

#[global] Hint Resolve Grows_ret Grows_throw Grows_gets Grows_answer Grows_api_state
  Grows_ctrl_state Grows_read_obj Grows_log Grows_update_api Grows_alloc : grows.
#[global] Hint Extern 1 (Grows (modify _)) => (apply Grows_modify; reflexivity) : grows.

Ltac grows_go :=
  repeat
    match goal with
    | |- Grows (_ ≫= _) => apply Grows_bind; [| intros]
    | |- Grows (if ?b then _ else _) => destruct b
    | |- Grows (match ?v with _ => _ end) => destruct v
    | |- Grows _ => solve [auto with grows]
    end.

Section GrowsEvents.

Context (env : Env).

Lemma Grows_get_member (v : value) (k : string) : Grows (get_member v k).
Proof. unfold get_member. grows_go. Qed.

Lemma Grows_call_value (fn this : value) (args : list value) :
  Grows (call_value env fn this args).
Proof. unfold call_value. grows_go. Qed.

Hint Resolve Grows_get_member Grows_call_value : grows.

Lemma Grows_call_member (v : value) (k : string) (args : list value) :
  Grows (call_member env v k args).
Proof. unfold call_member. grows_go. Qed.

Lemma Grows_subscribe (once : bool) (a : aid) (name callback context : value) :
  Grows (subscribe env once a name callback context).
Proof. unfold subscribe. grows_go. Qed.

Lemma Grows_Events_off (a : aid) (name callback context : value) :
  Grows (Events_off env a name callback context).
Proof. unfold Events_off. grows_go. Qed.

Lemma Grows_invoke_sub (a : aid) (args : list value) (e : string * sub) :
  Grows (invoke_sub env a args e).
Proof. unfold invoke_sub. grows_go. Qed.

Lemma Grows_deliver (a : aid) (args : list value) (subs : list (string * sub)) :
  Grows (deliver env a args subs).
Proof.
  induction subs as [| e rest IH]; simpl; [apply Grows_ret |].
  apply Grows_bind; [apply Grows_invoke_sub | intros _; exact IH].
Qed.

Lemma Grows_deliverSafe (a : aid) (args : list value) (subs : list (string * sub)) :
  Grows (deliverSafe env a args subs).
Proof.
  induction subs as [| e rest IH]; simpl; [apply Grows_ret |].
  apply Grows_bind; [| intros _; exact IH].
  apply preserves_contained; [apply grows_trans | apply Grows_invoke_sub |].
  intros x. apply Grows_log.
Qed.

Hint Resolve Grows_deliver Grows_deliverSafe : grows.

Lemma Grows_Events_trigger (a : aid) (name payload : value) :
  Grows (Events_trigger env a name payload).
Proof. unfold Events_trigger. grows_go. Qed.

Lemma Grows_Events_triggerSafe (a : aid) (name payload : value) :
  Grows (Events_triggerSafe env a name payload).
Proof. unfold Events_triggerSafe. grows_go. Qed.

(** The one write of [trigger] goes to the record it has just created. *)
Lemma Grows_normalize_payload (name args : value) : Grows (normalize_payload name args).
Proof.
  intros w.
  assert ((forall l, args = VObj l -> is_Some (heap w !! l))
          \/ exists l, args = VObj l /\ heap w !! l = None) as [Hargs | (l & -> & Ho)].
  { destruct args as [| | | | | l | | |]; try solve [left; intros l' [=]].
    destruct (heap w !! l) as [o |] eqn:Ho; [left | right; eauto].
    intros l' [= <-]. rewrite Ho. eauto. }
  - rewrite (normalize_payload_spec name args w Hargs).
    unfold grows, normalized. simpl. apply prefix_app_r. reflexivity.
  - unfold normalize_payload. rewrite bind_unfold. simpl.
    unfold read_obj. rewrite Ho. exact I.
Qed.

Hint Resolve Grows_Events_trigger Grows_Events_triggerSafe Grows_normalize_payload : grows.

Lemma Grows_Api_trigger (a : aid) (name args : value) : Grows (Api_trigger env a name args).
Proof. unfold Api_trigger. grows_go. Qed.

Lemma Grows_Controller_apply (c : cid) (name : string) (args : list value) :
  Grows (Controller_apply env c name args).
Proof. unfold Controller_apply. grows_go. Qed.

Hint Resolve Grows_Controller_apply : grows.

Lemma Grows_Api_callInternal (a : aid) (name : value) (args : list value) :
  Grows (Api_callInternal env a name args).
Proof. unfold Api_callInternal. grows_go. Qed.

Lemma Grows_qoe_between_call (a : aid) (l1 l2 : string) :
  Grows (qoe_between_call env a l1 l2).
Proof. unfold qoe_between_call. grows_go. Qed.

Lemma Grows_qoe_dump_call (a : aid) : Grows (qoe_dump_call env a).
Proof. unfold qoe_dump_call. grows_go. Qed.

Lemma Grows_resetPlayer (a : aid) (c : cid) : Grows (resetPlayer env a c).
Proof.
  unfold resetPlayer, Api_off, Controller_off.
  pose proof Grows_Events_off. grows_go.
Qed.

Lemma Grows_Api_remove (a : aid) : Grows (Api_remove env a).
Proof.
  unfold Api_remove, removePlayer.
  pose proof Grows_Api_trigger. pose proof Grows_resetPlayer. grows_go.
Qed.

End GrowsEvents.

#[global] Hint Resolve Grows_get_member Grows_call_value Grows_call_member Grows_subscribe
  Grows_Events_off Grows_Events_trigger Grows_Events_triggerSafe Grows_Api_trigger
  Grows_Api_callInternal Grows_qoe_between_call Grows_qoe_dump_call : grows.

Ltac grows_method :=
  repeat
    match goal with
    | |- Grows _ => solve [auto with grows]
    | |- Grows (_ ≫= _) => apply Grows_bind; [| intros]
    | |- Grows (let _ := _ in _) => cbv zeta
    | |- Grows (if ?b then _ else _) => destruct b
    | |- Grows (match ?v with _ => _ end) => destruct v
    | |- Grows ?m => let f := head_of m in progress unfold f
    end.

Lemma Grows_prototype (env : Env) (a : aid) :
  Forall (fun entry => forall args, Grows (entry.2 a args)) (Api_prototype env).
Proof.
  unfold Api_prototype.
  repeat (apply Forall_cons; split; [intros args; cbn [snd]; grows_method |]).
  constructor.
Qed.



(** ** Accessors with a fallback *)

(** X4. [getItemMeta()], and [getMeta()] with it, never returns a falsy
    value: what the controller answers to [get("itemMeta")] is returned when
    it is truthy, and otherwise (undefined, null, or no such operation) the
    result is a new empty record. *)
Theorem getItemMeta_falls_back_to_an_empty_record
    (env : Env) (this : aid) (w w1 : World) (meta : value) :
  Api_callInternal env this (VStr "get") [VStr "itemMeta"] w = Ok meta w1 ->
  exists v w',
    Api_getItemMeta env this w = Ok v w'
    /\ Api_getMeta env this w = Ok v w'
    /\ truthy v = true
    /\ (truthy meta = true -> v = meta /\ w' = w1)
    /\ (truthy meta = false ->
          v = VObj (length (heap w1)) /\ heap w' = heap w1 ++ [[]]).
Proof.
  intros Hget. unfold Api_getMeta, Api_getItemMeta, forward.
  rewrite (bind_ok _ _ _ _ _ Hget).
  destruct (truthy meta) eqn:Hm.
  - exists meta, w1. repeat split; try reflexivity; try assumption; discriminate.
  - eexists _, _. split; [reflexivity |]. split; [reflexivity |].
    split; [reflexivity |]. split; [discriminate |]. intros _. split; reflexivity.
Qed.

Lemma getItemMeta_falls_back_to_an_empty_record_witness :
  exists w', Api_getItemMeta demo_env 0 demo_world = Ok (VObj 0) w' /\ heap w' = [[]].
Proof.
  destruct (getItemMeta_falls_back_to_an_empty_record demo_env 0 demo_world demo_world VNull)
    as (v & w' & Hrun & _ & _ & _ & Hfalsy).
  - reflexivity.
  - destruct (Hfalsy eq_refl) as [-> Hheap]. exists w'. split; [exact Hrun | exact Hheap].
Defined.

(** X5. [getPlaylistItem(index)] with an index that exists asks the
    controller for the playlist and reads the entry: it answers null when
    the controller has no playlist, and undefined, without raising, when
    the playlist has no entry under that index; the index is used as a
    property key. *)
Theorem getPlaylistItem_reads_the_playlist
    (env : Env) (this : aid) (index : value) (w w1 : World) (playlist : value) :
  utils_exists env index = true ->
  Api_callInternal env this (VStr "get") [VStr "playlist"] w = Ok playlist w1 ->
  (truthy playlist = false -> Api_getPlaylistItem env this index w = Ok VNull w1)
  /\ (forall l o, playlist = VObj l -> heap w1 !! l = Some o ->
        Api_getPlaylistItem env this index w
        = Ok (default VUndefined (field (to_key env index) o)) w1
        /\ (field (to_key env index) o = None ->
              Api_getPlaylistItem env this index w = Ok VUndefined w1)).
Proof.
  intros Hex Hget. unfold Api_getPlaylistItem, Api_getPlaylist, forward.
  rewrite Hex. cbn [negb].
  rewrite (bind_ok _ _ _ _ _ Hget). split.
  - intros ->. reflexivity.
  - intros l o -> Ho. cbn [truthy].
    unfold get_member. rewrite (bind_ok _ _ _ _ _ (read_obj_ok l o w1 Ho)).
    split; [reflexivity |]. intros ->. reflexivity.
Qed.

Lemma getPlaylistItem_reads_the_playlist_witness :
  (exists w', Api_getPlaylistItem player_env 0 (VNum 1) player_world
              = Ok (VStr "second.mp4") w')
  /\ (exists w', Api_getPlaylistItem player_env 0 (VNum 7) player_world = Ok VUndefined w').
Proof.
  assert (exists w1, Api_callInternal player_env 0 (VStr "get") [VStr "playlist"] player_world
                     = Ok (VObj 0) w1
                     /\ heap w1 !! 0 = Some [("0", VStr "first.mp4"); ("1", VStr "second.mp4")])
    as (w1 & Hget & Hheap) by (eexists; split; vm_compute; reflexivity).
  split.
  - destruct (getPlaylistItem_reads_the_playlist player_env 0 (VNum 1) player_world w1
                (VObj 0) eq_refl Hget) as [_ Hrec].
    destruct (Hrec 0 _ eq_refl Hheap) as [Hrun _]. exists w1. exact Hrun.
  - destruct (getPlaylistItem_reads_the_playlist player_env 0 (VNum 7) player_world w1
                (VObj 0) eq_refl Hget) as [_ Hrec].
    destruct (Hrec 0 _ eq_refl Hheap) as [_ Hmiss]. exists w1. apply Hmiss. reflexivity.
Defined.

(** X6. [qoe()] needs the item QoE of the controller: when [getItemQoe]
    answers null or undefined, or the controller has no such operation,
    [qoe()] raises a TypeError, after it has asked the timer for the setup
    time, and builds no record. *)
Theorem qoe_needs_the_item_qoe
    (env : Env) (this : aid) (w w1 : World) (qoeItem : value) :
  Api_callInternal env this (VStr "getItemQoe") [] w = Ok qoeItem w1 ->
  qoeItem = VNull \/ qoeItem = VUndefined ->
  Api_qoe env this w
  = Throw TypeError (set_trace (trace w1 ++ [EvQoe this "between" ["setup"; "ready"]]) w1).
Proof.
  intros Hget Hq. unfold Api_qoe.
  rewrite (bind_ok _ _ _ _ _ Hget).
  unfold qoe_between_call, call_member. rewrite !bind_unfold. simpl.
  destruct Hq as [-> | ->]; reflexivity.
Qed.

Lemma qoe_needs_the_item_qoe_witness :
  exists w', Api_qoe demo_env 0 demo_world = Throw TypeError w'
             /\ heap w' = heap demo_world.
Proof.
  eexists. split.
  - apply (qoe_needs_the_item_qoe demo_env 0 demo_world demo_world VNull);
      [reflexivity | left; reflexivity].
  - reflexivity.
Defined.

(** ** Play and pause *)

Lemma callInternal_callable (env : Env) (this : aid) (op : string) (args : list value)
    (w : World) (s : ApiState) :
  apis w !! this = Some s ->
  ctrl_member env (a_controller s) op = Callable ->
  Api_callInternal env this (VStr op) args w
  = match ctrl_result env (a_controller s) op args
            (set_trace (trace w ++ [EvCtrlCall (a_controller s) op args]) w) with
    | Returns v => Ok v (set_trace (trace w ++ [EvCtrlCall (a_controller s) op args]) w)
    | Throws e => Throw e (set_trace (trace w ++ [EvCtrlCall (a_controller s) op args]) w)
    end.
Proof.
  intros Hs Hm. unfold Api_callInternal.
  rewrite (bind_ok _ _ _ _ _ (api_state_ok _ _ _ Hs)). cbn [to_key].
  rewrite Hm. apply Controller_apply_eq.
Qed.

(** X7. [pause(x)] with a first argument that is not a boolean, [pause()]
    included, is a toggle, and the argument is ignored: with the default
    meta [{reason: "external"}] it asks the controller for its state and
    calls the controller's [pause] when the state is playing or buffering,
    and its [play] otherwise.  So pausing an idle player starts it. *)
Theorem pause_without_flag_toggles
    (env : Env) (this : aid) (x st : value) (w : World) (s : ApiState) :
  apis w !! this = Some s ->
  isBoolean x = false ->
  let c := a_controller s in
  let p := length (heap w) in
  let w1 :=
    set_trace (trace w ++ [EvAlloc p [("reason", VStr "external")];
                           EvCtrlCall c "getState" []])
      (set_heap (heap w ++ [[("reason", VStr "external")]]) w) in
  let op :=
    if bool_decide (st = VStr (states env "PLAYING") \/ st = VStr (states env "BUFFERING"))
    then "pause" else "play" in
  let w2 := set_trace (trace w1 ++ [EvCtrlCall c op [VObj p]]) w1 in
  ctrl_member env c "getState" = Callable ->
  ctrl_member env c "play" = Callable ->
  ctrl_member env c "pause" = Callable ->
  ctrl_result env c "getState" [] w1 = Returns st ->
  Api_pause env this x VUndefined w
  = match ctrl_result env c op [VObj p] w2 with
    | Returns _ => Ok (VApi this) w2
    | Throws e => Throw e w2
    end.
Proof.
  intros Hs Hx c p w1 op w2 Hget Hplay Hpause Hst.
  assert (Api_pause env this x VUndefined w = Api_play env this VUndefined VUndefined w) as ->.
  { destruct x; try reflexivity. discriminate. }
  set (w0 := set_trace (trace w ++ [EvAlloc p [("reason", VStr "external")]])
               (set_heap (heap w ++ [[("reason", VStr "external")]]) w)).
  assert (apis w0 !! this = Some s) as Hs0 by exact Hs.
  assert (set_trace (trace w0 ++ [EvCtrlCall c "getState" []]) w0 = w1) as Hw1.
  { unfold w1, w0, set_trace, set_heap. simpl. rewrite <- app_assoc. reflexivity. }
  assert (apis w1 !! this = Some s) as Hs1 by exact Hs.
  unfold Api_play. cbn [isObject truthy andb].
  erewrite bind_ok; [cbv beta | reflexivity].
  erewrite (bind_ok external_reason _ w w0 (VObj p)); [cbv beta | reflexivity].
  destruct (decide (VUndefined = VBool true)); [discriminate |].
  destruct (decide (VUndefined = VBool false)); [discriminate |].
  assert (Api_getState env this w0 = Ok st w1) as Hstate.
  { unfold Api_getState, forward.
    rewrite (callInternal_callable env this "getState" [] w0 s Hs0 Hget).
    fold c. rewrite Hw1, Hst. reflexivity. }
  rewrite (bind_ok _ _ _ _ _ Hstate). unfold forward.
  assert (forall k, ctrl_member env c k = Callable ->
            (Api_callInternal env this (VStr k) [VObj p] ≫= (fun _ => mret (VApi this))) w1
            = match ctrl_result env c k [VObj p]
                      (set_trace (trace w1 ++ [EvCtrlCall c k [VObj p]]) w1) with
              | Returns _ => Ok (VApi this) (set_trace (trace w1 ++ [EvCtrlCall c k [VObj p]]) w1)
              | Throws e => Throw e (set_trace (trace w1 ++ [EvCtrlCall c k [VObj p]]) w1)
              end) as Hcall.
  { intros k Hk. rewrite bind_unfold.
    rewrite (callInternal_callable env this k [VObj p] w1 s Hs1 Hk). fold c.
    destruct (ctrl_result env c k [VObj p] _); reflexivity. }
  subst w2 op.
  destruct (decide (st = VStr (states env "PLAYING"))) as [Hp | Hp].
  - rewrite bool_decide_true by (left; exact Hp). apply (Hcall "pause" Hpause).
  - destruct (decide (st = VStr (states env "BUFFERING"))) as [Hb | Hb].
    + rewrite bool_decide_true by (right; exact Hb). apply (Hcall "pause" Hpause).
    + rewrite bool_decide_false by tauto. apply (Hcall "play" Hplay).
Qed.

Lemma pause_without_flag_toggles_witness :
  Api_pause player_env 0 VUndefined VUndefined
    (world_after (Api_constructor player_env {| el_id := "player" |}) init)
  = Ok (VApi 0)
       (set_trace
          (trace (world_after (Api_constructor player_env {| el_id := "player" |}) init)
           ++ [EvAlloc 0 [("reason", VStr "external")]; EvCtrlCall 0 "getState" [];
               EvCtrlCall 0 "play" [VObj 0]])
          (set_heap [[("reason", VStr "external")]]
             (world_after (Api_constructor player_env {| el_id := "player" |}) init))).
Proof.
  rewrite (pause_without_flag_toggles player_env 0 VUndefined (VStr "idle")
             (world_after (Api_constructor player_env {| el_id := "player" |}) init)
             {| a_element := {| el_id := "player" |}; a_id := "player"; a_uniqueId := 0;
                a_plugins := []; a_events := []; a_controller := 0 |}
             eq_refl eq_refl eq_refl eq_refl eq_refl eq_refl).
  vm_compute. reflexivity.
Defined.

(** X8. [pause(flag, meta)] with a boolean flag does not ask the controller
    for its state: it is [play(!flag, meta)], one call of the controller's
    [pause] when the flag is true and of its [play] when the flag is false,
    with the caller's meta, and it returns the handle.  So [pause(false)]
    starts playback. *)
Theorem pause_with_flag_is_forced
    (env : Env) (this : aid) (flag : bool) (meta : value) (w : World) (s : ApiState) :
  apis w !! this = Some s ->
  truthy meta = true ->
  let c := a_controller s in
  let op := if flag then "pause" else "play" in
  let w1 := set_trace (trace w ++ [EvCtrlCall c op [meta]]) w in
  ctrl_member env c op = Callable ->
  Api_pause env this (VBool flag) meta w
  = match ctrl_result env c op [meta] w1 with
    | Returns _ => Ok (VApi this) w1
    | Throws e => Throw e w1
    end.
Proof.
  intros Hs Hmeta c op w1 Hop.
  cbn [Api_pause]. unfold Api_play. cbn [isObject andb].
  erewrite bind_ok; [cbv beta | reflexivity].
  rewrite Hmeta.
  erewrite bind_ok; [cbv beta | reflexivity].
  assert ((Api_callInternal env this (VStr op) [meta] ≫= (fun _ => mret (VApi this))) w
          = match ctrl_result env c op [meta] w1 with
            | Returns _ => Ok (VApi this) w1
            | Throws e => Throw e w1
            end) as Hcall.
  { rewrite bind_unfold, (callInternal_callable env this op [meta] w s Hs Hop).
    fold c. fold w1. destruct (ctrl_result env c op [meta] w1); reflexivity. }
  subst op. destruct flag; cbn [negb].
  - destruct (decide (VBool false = VBool true)); [discriminate |].
    destruct (decide (VBool false = VBool false)); [| congruence].
    exact Hcall.
  - destruct (decide (VBool true = VBool true)); [| congruence].
    exact Hcall.
Qed.

Lemma pause_with_flag_is_forced_witness :
  exists w',
    Api_pause player_env 0 (VBool false) (VStr "interaction")
      (world_after (Api_constructor player_env {| el_id := "player" |}) init)
    = Ok (VApi 0) w'
    /\ drop 5 (trace w') = [EvCtrlCall 0 "play" [VStr "interaction"]].
Proof.
  rewrite (pause_with_flag_is_forced player_env 0 false (VStr "interaction")
             (world_after (Api_constructor player_env {| el_id := "player" |}) init)
             {| a_element := {| el_id := "player" |}; a_id := "player"; a_uniqueId := 0;
                a_plugins := []; a_events := []; a_controller := 0 |}
             eq_refl eq_refl eq_refl).
  eexists. split; vm_compute; reflexivity.
Defined.

(** ** [setup] at the edges *)

Lemma reset_total (env : Env) (this : aid) (c : cid) (w : World) (s : ApiState)
    (cs : CtrlState) :
  apis w !! this = Some s -> ctrls w !! c = Some cs ->
  exists w2, world_of (resetPlayer env this c w) = Some w2.
Proof.
  intros Hs Hc. rewrite (resetPlayer_spec env this c w s cs Hs Hc).
  destruct (ctrl_member env c "playerDestroy"); try (eexists; reflexivity).
  match goal with |- context [ctrl_result ?e ?c' ?k ?l ?x] =>
    destruct (ctrl_result e c' k l x) end; eexists; reflexivity.
Qed.

Lemma set_member_obj_ok (l : loc) (k : string) (x : value) (w : World)
    (o : list (string * value)) :
  heap w !! l = Some o ->
  set_member (VObj l) k x w
  = Ok tt (set_trace (trace w ++ [EvWrite l k x])
             (set_heap (<[l := set_field k x o]> (heap w)) w)).
Proof.
  intros Ho. unfold set_member.
  rewrite (bind_ok _ _ _ _ _ (read_obj_ok l o w Ho)). reflexivity.
Qed.

(** X9. [setup(options)] with options that carry no event bindings (no
    [events] member, or one that is not an object) drops every subscription
    the handle had, those made by [addPlugin] included, and leaves the
    plugin map, the id, the instance registry, the instance counter and all
    other handles as they were, however the call ends. *)
Theorem setup_drops_subscriptions_and_keeps_plugins
    (env : Env) (fuel : nat) (this : aid) (l : loc) (o : list (string * value))
    (w w' : World) (s : ApiState) :
  apis w !! this = Some s ->
  heap w !! l = Some o ->
  isObject (default VUndefined (field "events" o)) = false ->
  world_of (Api_setup env fuel this (VObj l) w) = Some w' ->
  (exists s', apis w' !! this = Some s'
     /\ a_events s' = []
     /\ a_plugins s' = a_plugins s
     /\ a_id s' = a_id s /\ a_uniqueId s' = a_uniqueId s)
  /\ instances w' = instances w
  /\ instancesCreated w' = instancesCreated w
  /\ (forall b, b <> this -> apis w' !! b = apis w !! b).
Proof.
  intros Hs Hl Hev Hw'.
  destruct (ctrls w !! a_controller s) as [cs |] eqn:Hcs.
  2: { rewrite (setup_needs_controller env fuel this (VObj l) w s Hs Hcs) in Hw'.
       discriminate. }
  unfold Api_setup in Hw'.
  rewrite (setup_decompose env this _ (VObj l) w s cs Hs Hcs) in Hw'.
  set (w1 := set_trace (trace w ++ [EvQoe this "clear" ["ready"];
                                    EvQoe this "tick" ["setup"]]) w) in *.
  destruct (reset_total env this (a_controller s) w1 s cs Hs Hcs) as (w2 & Hw2).
  destruct (resetPlayer_effect env this (a_controller s) w1 w2 s cs Hs Hcs Hw2)
    as (_ & Ha2 & _ & Hh2 & Hi2 & Hn2 & _).
  assert (forall w3, apis w3 = apis w2 \/
                     apis w3 = <[this := set_a_controller (length (ctrls w2))
                                           (set_a_events [] s)]> (apis w2) ->
            instances w3 = instances w -> instancesCreated w3 = instancesCreated w ->
            (exists s', apis w3 !! this = Some s'
               /\ a_events s' = [] /\ a_plugins s' = a_plugins s
               /\ a_id s' = a_id s /\ a_uniqueId s' = a_uniqueId s)
            /\ instances w3 = instances w
            /\ instancesCreated w3 = instancesCreated w
            /\ (forall b, b <> this -> apis w3 !! b = apis w !! b)) as Hfinish.
  { intros w3 Ha3 Hi3 Hn3.
    assert (this < length (apis w)) as Hlt by (eapply lookup_lt_Some; eauto).
    split; [| split; [exact Hi3 | split; [exact Hn3 |]]].
    - destruct Ha3 as [-> | ->]; rewrite Ha2.
      + rewrite list_lookup_insert_eq by exact Hlt. eexists. repeat split.
      + rewrite list_lookup_insert_eq by (rewrite length_insert; exact Hlt).
        eexists. repeat split.
    - intros b Hb. destruct Ha3 as [-> | ->]; rewrite Ha2;
        rewrite ?list_lookup_insert_ne by congruence; reflexivity. }
  destruct (resetPlayer env this (a_controller s) w1) as [u w2' | e w2' | why] eqn:Hr;
    simpl in Hw2; try discriminate; injection Hw2 as ->.
  2: { simpl in Hw'. injection Hw' as <-. apply Hfinish; [left; reflexivity | exact Hi2 | exact Hn2]. }
  set (w4 := replaced env this s w2) in *.
  assert (heap w4 !! l = Some o) as Hl4 by (unfold w4, replaced, attached; simpl; rewrite Hh2; exact Hl).
  assert (apis w4 = <[this := set_a_controller (length (ctrls w2)) (set_a_events [] s)]> (apis w2))
    as Ha4 by reflexivity.
  unfold setup_tail in Hw'.
  rewrite (bind_ok _ _ _ _ _ (get_member_obj_ok l "events" w4 o Hl4)) in Hw'.
  assert (utils_foreach (default VUndefined (field "events" o))
            (fun evt val =>
               match Api_member env fuel this evt with
               | Some fn => log (EvApiCall this evt [val]);; fn [val];; mret tt
               | None => mret tt
               end) w4 = Ok tt w4) as Hfor.
  { destruct (default VUndefined (field "events" o)); try reflexivity; discriminate. }
  rewrite (bind_ok _ _ _ _ _ Hfor) in Hw'.
  rewrite (bind_ok _ _ _ _ _ (set_member_obj_ok l "id" _ w4 o Hl4)) in Hw'.
  rewrite bind_unfold in Hw'.
  unfold api_state in Hw'. cbn [apis set_trace set_heap] in Hw'.
  destruct (apis w4 !! this) as [s4 |]; [| discriminate].
  rewrite bind_unfold in Hw'. unfold Controller_invoke in Hw'.
  destruct (ctrl_member env (a_controller s4) "setup").
  1,3: simpl in Hw'; injection Hw' as <-; apply Hfinish;
    [right; exact Ha4 | exact Hi2 | exact Hn2].
  rewrite Controller_apply_eq in Hw'.
  match type of Hw' with context [ctrl_result ?e ?c ?k ?a ?x] =>
    destruct (ctrl_result e c k a x) end;
    simpl in Hw'; injection Hw' as <-; apply Hfinish;
    solve [right; exact Ha4 | exact Hi2 | exact Hn2].
Qed.

Lemma setup_drops_subscriptions_and_keeps_plugins_witness :
  apis demo_world_plugged !! 0 = Some demo_handle_plugged
  /\ exists s',
       apis (world_after (Api_setup demo_env 0 0 (VObj 2)) demo_world_plugged) !! 0 = Some s'
       /\ a_events s' = [] /\ a_plugins s' = [("foo", VObj 0)].
Proof.
  split; [vm_compute; reflexivity |].
  destruct (setup_drops_subscriptions_and_keeps_plugins demo_env 0 0 2 []
              demo_world_plugged
              (world_after (Api_setup demo_env 0 0 (VObj 2)) demo_world_plugged)
              demo_handle_plugged)
    as ((s' & Hs' & He & Hp & _) & _).
  - vm_compute. reflexivity.
  - vm_compute. reflexivity.
  - reflexivity.
  - vm_compute. reflexivity.
  - exists s'. split; [exact Hs' |]. split; [exact He | exact Hp].
Defined.

(** X10. [setup()] called without options (undefined or null) never
    returns.  It first tears the controller down as any [setup] does; if
    the destroy hook raises, that exception ends the call; otherwise the
    replacement is created and wired, and only then does reading
    [options.events] raise a TypeError: the handle is left holding a wired
    controller whose [setup] was never called. *)
Theorem setup_without_options_raises_after_replacing
    (env : Env) (fuel : nat) (this : aid) (options : value) (w : World)
    (s : ApiState) (cs : CtrlState) :
  apis w !! this = Some s ->
  ctrls w !! a_controller s = Some cs ->
  options = VUndefined \/ options = VNull ->
  let new := length (ctrls w) in
  let start := [EvQoe this "clear" ["ready"]; EvQoe this "tick" ["setup"]] in
  let attach := [EvCtrlNew new (a_element s);
                 EvCtrlOn new (events env "JWPLAYER_READY") (ReadyStamp this);
                 EvCtrlOn new "all" (Rebroadcast this)] in
  exists e w',
    Api_setup env fuel this options w = Throw e w'
    /\ ((trace w' = trace w ++ start ++ teardown env this (a_controller s)
         /\ (a_controller <$> apis w' !! this) = Some (a_controller s))
        \/ (e = TypeError
            /\ trace w' = trace w ++ start ++ teardown env this (a_controller s) ++ attach
            /\ (a_controller <$> apis w' !! this) = Some new
            /\ (c_listeners <$> ctrls w' !! new)
               = Some [(events env "JWPLAYER_READY", ReadyStamp this);
                       ("all", Rebroadcast this)])).
Proof.
  intros Hs Hcs Hopt new start attach.
  unfold Api_setup. rewrite (setup_decompose env this _ options w s cs Hs Hcs).
  set (w1 := set_trace (trace w ++ [EvQoe this "clear" ["ready"];
                                    EvQoe this "tick" ["setup"]]) w) in *.
  destruct (reset_total env this (a_controller s) w1 s cs Hs Hcs) as (w2 & Hw2).
  destruct (replaced_facts env this w w2 s cs Hs Hcs Hw2)
    as (Ht2 & Ha2 & Hc2 & Hh2 & Hlen & Ht4 & Ha4 & Hc4 & Hh4).
  destruct (resetPlayer env this (a_controller s) w1) as [u w2' | e w2' | why] eqn:Hr;
    simpl in Hw2; try discriminate; injection Hw2 as ->.
  - exists TypeError, (replaced env this s w2). split.
    + unfold setup_tail. destruct Hopt as [-> | ->]; reflexivity.
    + right. split; [reflexivity |]. split.
      * rewrite Ht4, Ht2, <- !app_assoc. reflexivity.
      * split; [rewrite Ha4; reflexivity |].
        rewrite Hc4. subst new. rewrite <- Hlen, lookup_snoc. reflexivity.
  - exists e, w2. split; [reflexivity |]. left.
    split; [exact Ht2 | rewrite Ha2; reflexivity].
Qed.

Lemma setup_without_options_raises_after_replacing_witness :
  exists w',
    Api_setup demo_env 0 0 VUndefined demo_world = Throw TypeError w'
    /\ (c_listeners <$> ctrls w')
       = [[]; [("ready", ReadyStamp 0); ("all", Rebroadcast 0)]].
Proof.
  destruct (setup_without_options_raises_after_replacing demo_env 0 0 VUndefined demo_world
              demo_handle
              {| c_element := {| el_id := "player" |};
                 c_listeners := [("ready", ReadyStamp 0); ("all", Rebroadcast 0)] |})
    as (e & w' & Hrun & _).
  - reflexivity.
  - reflexivity.
  - left. reflexivity.
  - exists w'. revert Hrun. vm_compute. intros [= <- <-]. split; reflexivity.
Defined.

(** ** The controller's events on the handle's bus *)

Lemma bind_assoc_at {A B C} (m : M A) (k : A -> M B) (k' : B -> M C) (w : World) :
  ((m ≫= k) ≫= k') w = (m ≫= fun x => k x ≫= k') w.
Proof.
  rewrite (bind_unfold (m ≫= k) k' w), (bind_unfold m k w), (bind_unfold m _ w).
  destruct (m w); reflexivity.
Qed.

Lemma bind_ret_at {A} (m : M A) (w : World) : (m ≫= fun _ => mret tt) w
  = match m w with Ok _ w' => Ok tt w' | Throw e w' => Throw e w' | Stuck why => Stuck why end.
Proof. rewrite bind_unfold. destruct (m w); reflexivity. Qed.

Section Bridge.

Context (env : Env) (this : aid) (c : cid) (w : World) (cs : CtrlState).

Hypothesis wired_c : ctrls w !! c = Some cs.
Hypothesis listeners_c :
  c_listeners cs = [(events env "JWPLAYER_READY", ReadyStamp this); ("all", Rebroadcast this)].
Hypothesis ready_is_not_all : events env "JWPLAYER_READY" <> "all".

Lemma Controller_trigger_other (type event : value) :
  to_key env type <> events env "JWPLAYER_READY" ->
  to_key env type <> "all" ->
  Controller_trigger env c type event w
  = (Api_trigger env this type event ≫= fun _ => mret tt) w.
Proof.
  intros Hready Hall. unfold Controller_trigger.
  rewrite (bind_ok _ _ _ _ _ (ctrl_state_ok _ _ _ wired_c)). rewrite listeners_c.
  cbn [List.filter fst].
  rewrite (bool_decide_false (_ = to_key env type)) by congruence.
  rewrite (bool_decide_false ("all" = to_key env type)) by congruence.
  rewrite (bool_decide_false (_ = "all")) by exact ready_is_not_all.
  rewrite (bool_decide_true ("all" = "all")) by reflexivity.
  cbn [run_listeners]. erewrite bind_ok; [cbv beta | reflexivity].
  cbn [run_listener arg nth]. rewrite !bind_unfold.
  destruct (Api_trigger env this type event w); reflexivity.
Qed.

Lemma Controller_trigger_ready (event : value) :
  Controller_trigger env c (VStr (events env "JWPLAYER_READY")) event w
  = (run_listener env (ReadyStamp this) [event]
     ≫= fun _ => Api_trigger env this (VStr (events env "JWPLAYER_READY")) event
     ≫= fun _ => mret tt) w.
Proof.
  unfold Controller_trigger.
  rewrite (bind_ok _ _ _ _ _ (ctrl_state_ok _ _ _ wired_c)). rewrite listeners_c.
  cbn [List.filter fst to_key].
  rewrite (bool_decide_true (events env "JWPLAYER_READY" = events env "JWPLAYER_READY"))
    by reflexivity.
  rewrite (bool_decide_false ("all" = events env "JWPLAYER_READY"))
    by (intros H; apply ready_is_not_all; symmetry; exact H).
  rewrite (bool_decide_false (events env "JWPLAYER_READY" = "all")) by exact ready_is_not_all.
  rewrite (bool_decide_true ("all" = "all")) by reflexivity.
  cbn [run_listeners]. rewrite bind_assoc_at.
  rewrite (bind_unfold (run_listener env (ReadyStamp this) [event]) _ w).
  rewrite (bind_unfold (run_listener env (ReadyStamp this) [event]) _ w).
  destruct (run_listener env (ReadyStamp this) [event] w) as [u w1 | e w1 | why];
    try reflexivity.
  erewrite bind_ok; [cbv beta | reflexivity].
  cbn [run_listener arg nth]. rewrite bind_assoc_at. reflexivity.
Qed.

End Bridge.

Lemma ReadyStamp_ok (env : Env) (this : aid) (l : loc) (o : list (string * value))
    (w : World) :
  heap w !! l = Some o ->
  let w0 := set_trace (trace w ++ [EvQoe this "tick" ["ready"];
                                   EvQoe this "between" ["setup"; "ready"]]) w in
  let t := qoe_between env this "setup" "ready" w0 in
  run_listener env (ReadyStamp this) [VObj l] w
  = Ok tt (set_trace (trace w0 ++ [EvWrite l "setupTime" t])
             (set_heap (<[l := set_field "setupTime" t o]> (heap w)) w0)).
Proof.
  intros Ho w0 t.
  cbn [run_listener arg nth]. unfold qoe_tick, qoe_between_call.
  erewrite bind_ok; [cbv beta | reflexivity].
  erewrite bind_ok; [cbv beta |].
  2: { erewrite bind_ok; [cbv beta | reflexivity]. reflexivity. }
  cbn [trace set_trace]. rewrite <- app_assoc. cbn [app].
  change (set_member (VObj l) "setupTime" t w0
          = Ok tt (set_trace (trace w0 ++ [EvWrite l "setupTime" t])
                     (set_heap (<[l := set_field "setupTime" t o]> (heap w)) w0))).
  rewrite (set_member_obj_ok l "setupTime" t w0 o Ho). reflexivity.
Qed.

(** X11. An event that the controller wired to a handle emits, other than
    the ready event, does to the world exactly what [trigger(type, event)]
    on the handle does: the handle's subscribers of that type, then those of
    "all", receive a copy of the payload, under the fault isolation the
    debug flag selects. *)
Theorem controller_events_are_rebroadcast
    (env : Env) (this : aid) (c : cid) (type event : value) (w : World) (cs : CtrlState) :
  ctrls w !! c = Some cs ->
  c_listeners cs = [(events env "JWPLAYER_READY", ReadyStamp this); ("all", Rebroadcast this)] ->
  events env "JWPLAYER_READY" <> "all" ->
  to_key env type <> events env "JWPLAYER_READY" ->
  to_key env type <> "all" ->
  Controller_trigger env c type event w
  = match Api_trigger env this type event w with
    | Ok _ w' => Ok tt w'
    | Throw e w' => Throw e w'
    | Stuck why => Stuck why
    end.
Proof.
  intros Hc Hl Hra Hready Hall.
  rewrite (Controller_trigger_other env this c w cs Hc Hl Hra type event Hready Hall).
  rewrite bind_unfold. destruct (Api_trigger env this type event w); reflexivity.
Qed.

Lemma controller_events_are_rebroadcast_witness :
  exists w',
    Controller_trigger demo_env 0 (VStr "x") (VObj 0) demo_world_subscribed = Ok tt w'
    /\ invocations (drop (length (trace demo_world_subscribed)) (trace w'))
       = [EvInvoke 1 (VApi 0) [VObj 1]; EvInvoke 7 (VApi 0) [VObj 1];
          EvInvoke 2 (VApi 0) [VObj 1]].
Proof.
  pose proof (controller_events_are_rebroadcast demo_env 0 0 (VStr "x") (VObj 0)
                demo_world_subscribed
                {| c_element := {| el_id := "player" |};
                   c_listeners := [("ready", ReadyStamp 0); ("all", Rebroadcast 0)] |}) as H.
  rewrite H; [| reflexivity | reflexivity | discriminate | discriminate | discriminate].
  eexists. split; vm_compute; reflexivity.
Defined.

(** X12. When the controller wired to a handle emits its ready event with a
    record as payload, the timer is ticked, the time between "setup" and
    "ready" is written into that record as [setupTime], and only then is
    the event re-broadcast: the copy the handle's subscribers receive holds
    the setup time. *)
Theorem ready_event_carries_the_setup_time
    (env : Env) (this : aid) (c : cid) (l : loc) (o : list (string * value))
    (w : World) (cs : CtrlState) :
  ctrls w !! c = Some cs ->
  c_listeners cs = [(events env "JWPLAYER_READY", ReadyStamp this); ("all", Rebroadcast this)] ->
  events env "JWPLAYER_READY" <> "all" ->
  heap w !! l = Some o ->
  let ready := VStr (events env "JWPLAYER_READY") in
  let w0 := set_trace (trace w ++ [EvQoe this "tick" ["ready"];
                                   EvQoe this "between" ["setup"; "ready"]]) w in
  let t := qoe_between env this "setup" "ready" w0 in
  let w1 := set_trace (trace w0 ++ [EvWrite l "setupTime" t])
              (set_heap (<[l := set_field "setupTime" t o]> (heap w)) w0) in
  Controller_trigger env c ready (VObj l) w
  = match Api_trigger env this ready (VObj l) w1 with
    | Ok _ w' => Ok tt w'
    | Throw e w' => Throw e w'
    | Stuck why => Stuck why
    end
  /\ heap (normalized ready (VObj l) w1) !! length (heap w)
     = Some (set_field "type" ready (set_field "setupTime" t o)).
Proof.
  intros Hc Hl Hra Ho ready w0 t w1. split.
  - subst ready. rewrite (Controller_trigger_ready env this c w cs Hc Hl Hra (VObj l)).
    pose proof (ReadyStamp_ok env this l o w Ho) as Hstamp. cbv zeta in Hstamp.
    fold w0 in Hstamp. fold t in Hstamp. fold w1 in Hstamp.
    rewrite (bind_ok _ _ _ _ _ Hstamp). rewrite bind_unfold.
    destruct (Api_trigger env this (VStr (events env "JWPLAYER_READY")) (VObj l) w1);
      reflexivity.
  - assert (length (heap w1) = length (heap w)) as Hlen by apply length_insert.
    assert (heap w1 !! l = Some (set_field "setupTime" t o)) as Hl1.
    { apply (lookup_insert_same _ _ _ _ Ho). }
    unfold normalized. cbn [heap set_trace set_heap]. rewrite <- Hlen, lookup_snoc.
    unfold payload_fields. rewrite Hl1. reflexivity.
Qed.

Lemma ready_event_carries_the_setup_time_witness :
  exists w',
    Controller_trigger demo_env 0 (VStr "ready") (VObj 0) demo_world_subscribed = Ok tt w'
    /\ heap w' = [[("a", VNum 1); ("setupTime", VNum 5)];
                  [("a", VNum 1); ("setupTime", VNum 5); ("type", VStr "ready")]].
Proof.
  destruct (ready_event_carries_the_setup_time demo_env 0 0 0 [("a", VNum 1)]
              demo_world_subscribed
              {| c_element := {| el_id := "player" |};
                 c_listeners := [("ready", ReadyStamp 0); ("all", Rebroadcast 0)] |})
    as [Hrun _].
  - reflexivity.
  - reflexivity.
  - discriminate.
  - reflexivity.
  - change (VStr (events demo_env "JWPLAYER_READY")) with (VStr "ready") in Hrun.
    rewrite Hrun. eexists. split; vm_compute; reflexivity.
Defined.

(** X13. When the controller emits its ready event with a payload that is
    not an object, the listener that stamps the setup time raises a
    TypeError on writing [setupTime], after it has ticked the timer, and the
    event is not re-broadcast: the handle's subscribers are not called. *)
Theorem ready_without_payload_is_not_rebroadcast
    (env : Env) (this : aid) (c : cid) (event : value) (w : World) (cs : CtrlState) :
  ctrls w !! c = Some cs ->
  c_listeners cs = [(events env "JWPLAYER_READY", ReadyStamp this); ("all", Rebroadcast this)] ->
  events env "JWPLAYER_READY" <> "all" ->
  isObject event = false ->
  Controller_trigger env c (VStr (events env "JWPLAYER_READY")) event w
  = Throw TypeError
      (set_trace (trace w ++ [EvQoe this "tick" ["ready"];
                              EvQoe this "between" ["setup"; "ready"]]) w).
Proof.
  intros Hc Hl Hra Hev.
  rewrite (Controller_trigger_ready env this c w cs Hc Hl Hra event).
  assert (run_listener env (ReadyStamp this) [event] w
          = Throw TypeError
              (set_trace (trace w ++ [EvQoe this "tick" ["ready"];
                                      EvQoe this "between" ["setup"; "ready"]]) w)) as Hstamp.
  { cbn [run_listener arg nth]. unfold qoe_tick, qoe_between_call.
    erewrite bind_ok; [cbv beta | reflexivity].
    erewrite bind_ok; [cbv beta |].
    2: { erewrite bind_ok; [cbv beta | reflexivity]. reflexivity. }
    cbn [trace set_trace]. rewrite <- app_assoc. cbn [app].
    destruct event; try discriminate; reflexivity. }
  rewrite bind_unfold, Hstamp. reflexivity.
Qed.

Lemma ready_without_payload_is_not_rebroadcast_witness :
  Controller_trigger demo_env 0 (VStr "ready") VUndefined demo_world_subscribed
  = Throw TypeError
      (set_trace (trace demo_world_subscribed
                  ++ [EvQoe 0 "tick" ["ready"]; EvQoe 0 "between" ["setup"; "ready"]])
         demo_world_subscribed).
Proof.
  apply (ready_without_payload_is_not_rebroadcast demo_env 0 0 VUndefined
           demo_world_subscribed
           {| c_element := {| el_id := "player" |};
              c_listeners := [("ready", ReadyStamp 0); ("all", Rebroadcast 0)] |}).
  - reflexivity.
  - reflexivity.
  - discriminate.
  - reflexivity.
Defined.

(** X18. A callback registered with [onReady(callback)] is called when the
    controller wired to the handle emits its ready event: with the debug
    flag off the emission returns normally, and the callback has been
    called on the handle with the copy of the payload that [trigger]
    builds, which holds the setup time and the event name as [type]. *)
Theorem onReady_callback_receives_the_setup_time
    (env : Env) (this : aid) (c : cid) (f : fid) (l : loc) (o : list (string * value))
    (w : World) (s : ApiState) (cs : CtrlState) :
  apis w !! this = Some s ->
  ctrls w !! c = Some cs ->
  c_listeners cs = [(events env "JWPLAYER_READY", ReadyStamp this); ("all", Rebroadcast this)] ->
  events env "JWPLAYER_READY" <> "all" ->
  heap w !! l = Some o ->
  debug_enabled w = false ->
  let ready := VStr (events env "JWPLAYER_READY") in
  let p := length (heap w) in
  exists w1 w2 d t,
    Api_onReady env this (VFun f) w = Ok VUndefined w1
    /\ Controller_trigger env c ready (VObj l) w1 = Ok tt w2
    /\ trace w2 = trace w1 ++ d
    /\ EvInvoke f (VApi this) [VObj p] ∈ d
    /\ t = qoe_between env this "setup" "ready"
            (set_trace (trace w1 ++ [EvQoe this "tick" ["ready"];
                                     EvQoe this "between" ["setup"; "ready"]]) w1)
    /\ heap w2 !! l = Some (set_field "setupTime" t o)
    /\ heap w2 !! p = Some (set_field "type" ready (set_field "setupTime" t o)).
Proof.
  intros Hs Hc Hl Hra Ho Hdebug ready p.
  set (e := (events env "JWPLAYER_READY",
             {| s_callback := VFun f; s_context := VUndefined; s_once := false |})).
  set (s1 := set_a_events (a_events s ++ [e]) s).
  set (w1 := set_trace (trace w ++ [EvOn this e.1 e.2])
               (set_apis (<[this := s1]> (apis w)) w)).
  assert (Api_onReady env this (VFun f) w = Ok VUndefined w1) as Hon.
  { unfold Api_onReady, on_event, Api_on, Events_on.
    rewrite (bind_ok _ _ _ _ _ (subscribe_ok env false this _ (VFun f) VUndefined w s Hs)).
    reflexivity. }
  assert (apis w1 !! this = Some s1) as Hs1 by (apply (lookup_insert_same _ _ _ _ Hs)).
  assert (ctrls w1 !! c = Some cs) as Hc1 by exact Hc.
  assert (heap w1 !! l = Some o) as Ho1 by exact Ho.
  pose proof (ReadyStamp_ok env this l o w1 Ho1) as Hstamp. cbv zeta in Hstamp.
  set (w0 := set_trace (trace w1 ++ [EvQoe this "tick" ["ready"];
                                     EvQoe this "between" ["setup"; "ready"]]) w1) in *.
  set (t := qoe_between env this "setup" "ready" w0) in *.
  set (w3 := set_trace (trace w0 ++ [EvWrite l "setupTime" t])
               (set_heap (<[l := set_field "setupTime" t o]> (heap w1)) w0)) in *.
  assert (heap w3 !! l = Some (set_field "setupTime" t o)) as Hl3
    by (apply (lookup_insert_same _ _ _ _ Ho)).
  assert (length (heap w3) = p) as Hlen by apply length_insert.
  assert (apis w3 !! this = Some s1) as Hs3 by exact Hs1.
  assert (forall l', VObj l = VObj l' -> is_Some (heap w3 !! l')) as Hargs.
  { intros l' [= <-]. rewrite Hl3. eauto. }
  pose proof (Api_trigger_dispatch env this ready (VObj l) w3 Hargs) as Hdispatch.
  change (debug_enabled w3) with (debug_enabled w) in Hdispatch.
  rewrite Hdebug in Hdispatch.
  set (w4 := normalized ready (VObj l) w3) in *.
  assert (apis w4 !! this = Some s1) as Hs4 by exact Hs1.
  destruct (Events_triggerSafe_spec env this ready (VObj (length (heap w3))) w4 s1 Hs4)
    as (w2 & d & Hrun & Hd & Hi).
  rewrite <- Hdispatch in Hrun.
  destruct Hd as ((_ & _ & _ & Hheap & _) & Htr & _).
  exists w1, w2,
    ([EvQoe this "tick" ["ready"]; EvQoe this "between" ["setup"; "ready"];
      EvWrite l "setupTime" t;
      EvAlloc (length (heap w3)) (payload_fields w3 (VObj l));
      EvWrite (length (heap w3)) "type" ready] ++ d), t.
  split; [exact Hon |]. split.
  { subst ready. rewrite (Controller_trigger_ready env this c w1 cs Hc1 Hl Hra (VObj l)).
    rewrite (bind_ok _ _ _ _ _ Hstamp). rewrite bind_unfold, Hrun. reflexivity. }
  split.
  { rewrite Htr. unfold w4, normalized, w3, w0. cbn [trace set_trace set_heap].
    rewrite <- !app_assoc. reflexivity. }
  split.
  { apply elem_of_app. right.
    assert (EvInvoke f (VApi this) [VObj p] ∈ invocations d) as Hin.
    { rewrite Hi, Hlen. apply elem_of_app. left.
      unfold calls_of. apply list_elem_of_In, in_flat_map. exists e. split.
      - unfold subscribers. apply filter_In. split.
        + subst s1. cbn [a_events set_a_events]. apply in_or_app. right. left. reflexivity.
        + subst ready. cbn [to_key fst]. apply bool_decide_eq_true. reflexivity.
      - left. reflexivity. }
    unfold invocations in Hin. apply list_elem_of_In, filter_In in Hin as [Hin _].
    apply list_elem_of_In. exact Hin. }
  split; [reflexivity |].
  rewrite Hheap. unfold w4, normalized. cbn [heap set_trace set_heap].
  split.
  - rewrite lookup_app_l by (rewrite Hlen; eapply lookup_lt_Some; eauto). exact Hl3.
  - rewrite <- Hlen, lookup_snoc. unfold payload_fields. rewrite Hl3. reflexivity.
Qed.

Lemma onReady_callback_receives_the_setup_time_witness :
  exists w1 w2,
    Api_onReady demo_env 0 (VFun 3) demo_world_subscribed = Ok VUndefined w1
    /\ Controller_trigger demo_env 0 (VStr "ready") (VObj 0) w1 = Ok tt w2
    /\ EvInvoke 3 (VApi 0) [VObj 1] ∈ drop (length (trace w1)) (trace w2)
    /\ heap w2 !! 1 = Some [("a", VNum 1); ("setupTime", VNum 5); ("type", VStr "ready")].
Proof.
  destruct (onReady_callback_receives_the_setup_time demo_env 0 0 3 0 [("a", VNum 1)]
              demo_world_subscribed
              {| a_element := {| el_id := "player" |}; a_id := "player"; a_uniqueId := 0;
                 a_plugins := [];
                 a_events :=
                   [("x", {| s_callback := VFun 1; s_context := VUndefined; s_once := false |});
                    ("x", {| s_callback := VFun 7; s_context := VUndefined; s_once := false |});
                    ("x", {| s_callback := VFun 2; s_context := VUndefined; s_once := false |})];
                 a_controller := 0 |}
              {| c_element := {| el_id := "player" |};
                 c_listeners := [("ready", ReadyStamp 0); ("all", Rebroadcast 0)] |})
    as (w1 & w2 & d & t & Hon & Hrun & Htr & Hin & _ & _ & Hcopy).
  - vm_compute. reflexivity.
  - reflexivity.
  - reflexivity.
  - discriminate.
  - reflexivity.
  - reflexivity.
  - exists w1, w2. split; [exact Hon |]. split; [exact Hrun |]. split.
    + rewrite Htr, drop_app_length. exact Hin.
    + clear Htr Hin Hcopy. vm_compute in Hon. injection Hon as <-.
      vm_compute in Hrun. injection Hrun as <-. reflexivity.
Defined.

(** ** The plugin map and the event methods at the edges *)



Lemma inherited_frame (env : Env) (proto : option value) (k : string) (w w' : World) :
  heap w' = heap w -> props w' = props w ->
  inherited env proto k w'
  = match inherited env proto k w with
    | Ok v _ => Ok v w'
    | Throw e _ => Throw e w'
    | Stuck why => Stuck why
    end.
Proof.
  intros Hh Hp. destruct proto as [[| | | | | l | f | a | a] |]; try reflexivity.
  - unfold inherited, read_obj. rewrite !bind_unfold, Hh.
    destruct (heap w !! l); reflexivity.
  - unfold inherited, gets, own_props. rewrite Hp. reflexivity.
  - unfold inherited, gets, own_props. rewrite Hp. reflexivity.
  - unfold inherited, gets, own_props. rewrite Hp. reflexivity.
Qed.

(** X15. [addPlugin] under one name leaves what [getPlugin] finds under
    every other name as it was: the instance stored there, or what the map
    inherits when nothing is stored.  The names are primitives, compared as
    the property keys JavaScript makes of them (so the number 10^21 and the
    string 1e+21 are one name); the name [__proto__] is excepted, since an
    assignment under it re-parents the map. *)
Theorem addPlugin_leaves_other_plugins
    (env : Env) (this : aid) (name other : value) (l : loc) (o : list (string * value))
    (w : World) (s : ApiState) :
  apis w !! this = Some s ->
  heap w !! l = Some o ->
  isObject name = false ->
  isObject other = false ->
  to_key env other <> to_key env name ->
  to_key env name <> "__proto__" ->
  exists w',
    Api_addPlugin env this name (VObj l) w = Ok VUndefined w'
    /\ Api_getPlugin env this other w'
       = match Api_getPlugin env this other w with
         | Ok v _ => Ok v w'
         | Throw e _ => Throw e w'
         | Stuck why => Stuck why
         end
    /\ (forall v, to_key env other <> "__proto__" ->
          field (to_key env other) (a_plugins s) = Some v ->
          Api_getPlugin env this other w = Ok v w
          /\ Api_getPlugin env this other w' = Ok v w').
Proof.
  intros Hs Ho _ _ Hne Hproto.
  set (s1 := set_a_plugins (set_field (to_key env name) (VObj l) (a_plugins s)) s).
  set (w1 := set_apis (<[this := s1]> (apis w)) w).
  set (on_ready := ("ready", {| s_callback := default VUndefined (field "addToPlayer" o);
                                s_context := VUndefined; s_once := false |})).
  set (on_resize := ("resize", {| s_callback := default VUndefined (field "resizeHandler" o);
                                  s_context := VUndefined; s_once := false |})).
  set (s2 := set_a_events (a_events s1 ++ [on_ready]) s1).
  set (w2 := set_trace (trace w1 ++ [EvOn this "ready" on_ready.2])
               (set_apis (<[this := s2]> (apis w1)) w1)).
  set (s3 := set_a_events (a_events s2 ++ [on_resize]) s2).
  set (w3 := set_trace (trace w2 ++ [EvOn this "resize" on_resize.2])
               (set_apis (<[this := s3]> (apis w2)) w2)).
  assert (apis w1 !! this = Some s1) as Hs1 by (apply (lookup_insert_same _ _ _ _ Hs)).
  assert (apis w2 !! this = Some s2) as Hs2 by (apply (lookup_insert_same _ _ _ _ Hs1)).
  assert (apis w3 !! this = Some s3) as Hs3 by (apply (lookup_insert_same _ _ _ _ Hs2)).
  assert (exists w' s', Api_addPlugin env this name (VObj l) w = Ok VUndefined w'
                        /\ apis w' !! this = Some s' /\ a_plugins s' = a_plugins s1
                        /\ heap w' = heap w /\ props w' = props w)
    as (w' & s' & Hrun & Hs' & Hp & Hheap & Hprops).
  { unfold Api_addPlugin, Api_on, Events_on.
    rewrite (bind_ok _ _ _ _ _ (update_api_ok _ _ _ _ Hs)). cbv beta.
    erewrite bind_ok; [cbv beta | apply get_member_obj_ok; exact Ho].
    erewrite bind_ok; [cbv beta | apply subscribe_ok; exact Hs1].
    erewrite bind_ok; [cbv beta | apply get_member_obj_ok; exact Ho].
    destruct (truthy (default VUndefined (field "resize" o))).
    - exists w3, s3. split; [| split; [exact Hs3 | repeat split]].
      erewrite bind_ok; [reflexivity |].
      erewrite bind_ok; [cbv beta | apply get_member_obj_ok; exact Ho].
      erewrite bind_ok; [reflexivity | apply subscribe_ok; exact Hs2].
    - exists w2, s2. split; [reflexivity | split; [exact Hs2 | repeat split]]. }
  assert (field "__proto__" (a_plugins s') = field "__proto__" (a_plugins s)) as Hfp.
  { rewrite Hp. unfold s1. cbn [a_plugins set_a_plugins].
    apply field_set_field_ne. congruence. }
  assert (field (to_key env other) (a_plugins s') = field (to_key env other) (a_plugins s))
    as Hfo.
  { rewrite Hp. unfold s1. cbn [a_plugins set_a_plugins].
    apply field_set_field_ne. exact Hne. }
  assert (Api_getPlugin env this other w'
          = match Api_getPlugin env this other w with
            | Ok v _ => Ok v w'
            | Throw e _ => Throw e w'
            | Stuck why => Stuck why
            end) as Hsame.
  { unfold Api_getPlugin.
    rewrite (bind_ok _ _ _ _ _ (api_state_ok _ _ _ Hs)).
    rewrite (bind_ok _ _ _ _ _ (api_state_ok _ _ _ Hs')). cbv zeta.
    rewrite Hfp, Hfo.
    destruct (decide (to_key env other = "__proto__")).
    - destruct (field "__proto__" (a_plugins s)) as [[| | | | | | | |] |]; reflexivity.
    - destruct (field (to_key env other) (a_plugins s)); [reflexivity |].
      apply inherited_frame; assumption. }
  exists w'. split; [exact Hrun |]. split; [exact Hsame |].
  intros v Hk Hv.
  assert (Api_getPlugin env this other w = Ok v w) as Hw.
  { unfold Api_getPlugin. rewrite (bind_ok _ _ _ _ _ (api_state_ok _ _ _ Hs)). cbv zeta.
    rewrite decide_False by exact Hk. rewrite Hv. reflexivity. }
  split; [exact Hw |]. rewrite Hsame, Hw. reflexivity.
Qed.

Lemma addPlugin_leaves_other_plugins_witness :
  exists w',
    Api_addPlugin demo_env 0 (VNum (10 ^ 21)) (VObj 1) demo_world_plugged = Ok VUndefined w'
    /\ Api_getPlugin demo_env 0 (VStr "foo") w' = Ok (VObj 0) w'
    /\ Api_getPlugin demo_env 0 (VStr "1e+21") w' = Ok (VObj 1) w'.
Proof.
  destruct (addPlugin_leaves_other_plugins demo_env 0 (VNum (10 ^ 21)) (VStr "foo") 1
              [("addToPlayer", VFun 6)] demo_world_plugged demo_handle_plugged)
    as (w' & Hrun & _ & Hfoo).
  - vm_compute. reflexivity.
  - vm_compute. reflexivity.
  - reflexivity.
  - reflexivity.
  - vm_compute. discriminate.
  - vm_compute. discriminate.
  - exists w'. split; [exact Hrun |]. split.
    + apply (Hfoo (VObj 0)); [discriminate | vm_compute; reflexivity].
    + assert (w' = world_after (Api_addPlugin demo_env 0 (VNum (10 ^ 21)) (VObj 1))
                     demo_world_plugged) as ->
        by (unfold world_after; rewrite Hrun; reflexivity).
      vm_compute. reflexivity.
Defined.



(** ** Chaining *)

Lemma returns_only_bind {A} (v : value) (m : M A) (k : A -> M value) :
  (forall x, returns_only v (k x)) -> returns_only v (m ≫= k).
Proof.
  intros Hk w x w' H. apply bind_Ok_inv in H as (y & w1 & _ & H). apply (Hk y w1 x w' H).
Qed.

Lemma returns_only_ret (v : value) : returns_only v (mret v).
Proof. intros w x w' [= <- _]. reflexivity. Qed.

Ltac returns_go :=
  repeat
    match goal with
    | |- returns_only ?v (mret ?v) => apply returns_only_ret
    | |- returns_only _ (_ ≫= _) => apply returns_only_bind; intros
    | |- returns_only _ (let _ := _ in _) => cbv zeta
    | |- returns_only _ (if ?b then _ else _) => destruct b
    | |- returns_only _ (match ?v with _ => _ end) => destruct v
    | |- returns_only _ ?m => let f := head_of m in progress unfold f
    end.

(** X17. Each of the twenty-four methods that forward to the controller and
    end in [return this] (the setters, [load], [play], [pause], [seek],
    the playlist steps, [stop], [resize], the button and media calls)
    returns, whenever it returns, the handle it was called on, whatever the
    controller answered and also when the controller has no such operation;
    the three setters [setCurrentAudioTrack], [setCurrentCaptions] and
    [setCurrentQuality] return undefined instead, so a call cannot be
    chained on them. *)
Theorem forwarding_methods_return_the_handle (env : Env) (this : aid) :
  Forall (fun name =>
            exists method, assoc name (Api_prototype env) = Some method
              /\ forall args, returns_only (VApi this) (method this args)) chainable
  /\ Forall (fun name =>
               exists method, assoc name (Api_prototype env) = Some method
                 /\ forall args, returns_only VUndefined (method this args)) unchained_setters.
Proof.
  split.
  - unfold chainable.
    repeat (apply Forall_cons; split;
            [eexists; split; [reflexivity | intros args; cbv beta; solve [returns_go]] |]).
    constructor.
  - unfold unchained_setters.
    repeat (apply Forall_cons; split;
            [eexists; split; [reflexivity | intros args; cbv beta; solve [returns_go]] |]).
    constructor.
Qed.

(** The controller of the fixture has no [setMute]: the call does nothing
    and still returns the handle; [setCurrentQuality] returns undefined. *)
Example chaining_on_a_missing_operation :
  Api_setMute demo_env 0 (VBool true) demo_world = Ok (VApi 0) demo_world
  /\ Api_setCurrentQuality demo_env 0 (VNum 1) demo_world = Ok VUndefined demo_world.
Proof. split; reflexivity. Qed.

(** ** After [remove], and bindings that subscribe *)

(** X19. Once [remove()] has returned, the handle is silent: it has no
    subscription left, so a later [trigger] on it calls nobody, and the
    controller it still holds has no listener left, so nothing that
    controller emits changes anything. *)
Theorem removed_handle_is_silent
    (env : Env) (this : aid) (w w' : World) (v : value) (s : ApiState) :
  apis w !! this = Some s ->
  Api_remove env this w = Ok v w' ->
  v = VApi this
  /\ (a_events <$> apis w' !! this) = Some []
  /\ (a_controller <$> apis w' !! this) = Some (a_controller s)
  /\ (forall type event,
        Controller_trigger env (a_controller s) type event w' = Ok tt w')
  /\ (forall name args,
        (forall l, args = VObj l -> is_Some (heap w' !! l)) ->
        exists w'',
          Api_trigger env this name args w' = Ok (VApi this) w''
          /\ invocations (drop (length (trace w')) (trace w'')) = []).
Proof.
  intros Hs Hrun. unfold Api_remove in Hrun.
  rewrite (bind_ok _ _ _ _ _ (removePlayer_ok _ _ _ Hs)) in Hrun. cbv beta in Hrun.
  set (w1 := set_instances _ w) in Hrun.
  assert (apis w1 !! this = Some s) as Hs1 by exact Hs.
  apply bind_Ok_inv in Hrun as (r & w2 & Htrig & Hrun).
  pose proof (Quiet_Api_trigger env this (VStr "remove") VUndefined w1) as Hq.
  rewrite Htrig in Hq.
  destruct (q_fixed _ _ _ Hq this s Hs1) as (s2 & Hs2 & _ & _ & _ & Hc2 & _).
  pose proof (q_ctrls _ _ _ Hq) as Hctrls.
  rewrite (bind_ok _ _ _ _ _ (api_state_ok _ _ _ Hs2)) in Hrun.
  apply bind_Ok_inv in Hrun as ([] & w3 & Hreset & Hret).
  injection Hret as <- <-.
  destruct (ctrls w2 !! a_controller s2) as [cs |] eqn:Hcs.
  2: { exfalso. revert Hreset. unfold resetPlayer, Api_off.
       rewrite (bind_ok _ _ _ _ _ (Events_off_all_ok env _ _ _ Hs2)). cbv beta.
       rewrite bind_unfold. unfold Controller_off. rewrite bind_unfold.
       unfold ctrl_state. cbn [ctrls set_trace set_apis]. rewrite Hcs. discriminate. }
  assert (world_of (resetPlayer env this (a_controller s2) w2) = Some w3) as Hw3
    by (rewrite Hreset; reflexivity).
  destruct (resetPlayer_effect env this _ w2 w3 s2 cs Hs2 Hcs Hw3) as (_ & Ha3 & Hc3 & _).
  assert (apis w3 !! this = Some (set_a_events [] s2)) as Hs3.
  { rewrite Ha3. apply (lookup_insert_same _ _ _ _ Hs2). }
  split; [reflexivity |]. split; [rewrite Hs3; reflexivity |].
  split; [rewrite Hs3; simpl; rewrite Hc2; reflexivity |]. split.
  - intros type event. rewrite <- Hc2.
    apply (Controller_trigger_unwired env _ type event w3
             {| c_element := c_element cs; c_listeners := [] |}); [| reflexivity].
    rewrite Hc3. apply (lookup_insert_same _ _ _ _ Hcs).
  - intros name args Hargs.
    rewrite (Api_trigger_dispatch env this name args w3 Hargs).
    set (w0 := normalized name args w3).
    assert (apis w0 !! this = Some (set_a_events [] s2)) as Hs0 by exact Hs3.
    exists w0. split.
    + unfold Events_trigger, Events_triggerSafe.
      rewrite !(bind_ok _ _ _ _ _ (api_state_ok _ _ _ Hs0)).
      destruct (debug_enabled w3); reflexivity.
    + unfold w0, normalized. cbn [trace set_trace set_heap].
      rewrite drop_app_length. reflexivity.
Qed.

Lemma removed_handle_is_silent_witness :
  exists w',
    Api_remove demo_env 0 demo_world_subscribed = Ok (VApi 0) w'
    /\ (a_events <$> apis w' !! 0) = Some []
    /\ Controller_trigger demo_env 0 (VStr "x") VUndefined w' = Ok tt w'.
Proof.
  destruct (Api_remove demo_env 0 demo_world_subscribed) as [v w' | e w' | why] eqn:Hrun;
    [| vm_compute in Hrun; discriminate ..].
  destruct (removed_handle_is_silent demo_env 0 demo_world_subscribed w' v
              {| a_element := {| el_id := "player" |}; a_id := "player"; a_uniqueId := 0;
                 a_plugins := [];
                 a_events :=
                   [("x", {| s_callback := VFun 1; s_context := VUndefined; s_once := false |});
                    ("x", {| s_callback := VFun 7; s_context := VUndefined; s_once := false |});
                    ("x", {| s_callback := VFun 2; s_context := VUndefined; s_once := false |})];
                 a_controller := 0 |})
    as (-> & He & _ & Hsilent & _).
  - vm_compute. reflexivity.
  - exact Hrun.
  - exists w'. split; [reflexivity |]. split; [exact He | apply Hsilent].
Defined.

Lemma Api_member_onReady (env : Env) (fuel : nat) (this : aid) :
  Api_member env fuel this "onReady"
  = Some (fun args => Api_onReady env this (arg 0 args)).
Proof. destruct fuel; reflexivity. Qed.

(** X20. A binding [{events: {onReady: callback}}] in the options of
    [setup] subscribes the callback after the teardown.  Unless the destroy
    hook of the old controller raises, which ends the call with no
    subscription at all, the handle's subscriptions are, however the call
    ends, exactly that one, persistent, to the ready event: what was
    subscribed before the call is gone, what the binding subscribes stays. *)
Theorem setup_binding_subscribes_after_teardown
    (env : Env) (fuel : nat) (this : aid) (l le : loc) (o : list (string * value))
    (callback : value) (w w' : World) (s : ApiState) (cs : CtrlState) :
  apis w !! this = Some s ->
  ctrls w !! a_controller s = Some cs ->
  heap w !! l = Some o ->
  field "events" o = Some (VObj le) ->
  heap w !! le = Some [("onReady", callback)] ->
  world_of (Api_setup env fuel this (VObj l) w) = Some w' ->
  (a_events <$> apis w' !! this)
  = Some [(events env "JWPLAYER_READY",
           {| s_callback := callback; s_context := VUndefined; s_once := false |})]
  \/ ((exists e, Api_setup env fuel this (VObj l) w = Throw e w')
      /\ trace w' = trace w ++ [EvQoe this "clear" ["ready"]; EvQoe this "tick" ["setup"]]
                            ++ teardown env this (a_controller s)
      /\ (a_events <$> apis w' !! this) = Some []).
Proof.
  intros Hs Hcs Hl Hevents Hle Hw'.
  destruct (reset_total env this (a_controller s)
              (set_trace (trace w ++ [EvQoe this "clear" ["ready"];
                                      EvQoe this "tick" ["setup"]]) w) s cs Hs Hcs)
    as (w2 & Hw2).
  pose proof (replaced_facts env this w w2 s cs Hs Hcs Hw2) as Hfacts.
  unfold Api_setup in *.
  rewrite (setup_decompose env this _ (VObj l) w s cs Hs Hcs) in *.
  destruct (resetPlayer env this (a_controller s)
              (set_trace (trace w ++ [EvQoe this "clear" ["ready"];
                                      EvQoe this "tick" ["setup"]]) w))
    as [u w2' | ex w2' | why] eqn:Hreset; simpl in Hw2; try discriminate;
    injection Hw2 as ->.
  2: { right. simpl in Hw'. injection Hw' as <-.
       destruct Hfacts as (Ht2 & Ha2 & _).
       split; [exists ex; reflexivity |]. split; [exact Ht2 | rewrite Ha2; reflexivity]. }
  left.
  assert (world_of (Ok u w2) = Some w2) as Hw2 by reflexivity.
  rewrite <- Hreset in Hw2.
  destruct (replaced_facts env this w w2 s cs Hs Hcs Hw2)
    as (_ & _ & _ & _ & _ & _ & Ha4 & _ & Hh4).
  set (w4 := replaced env this s w2) in *.
  set (s4 := set_a_controller (length (ctrls w)) (set_a_events [] s)) in *.
  set (e := (events env "JWPLAYER_READY",
             {| s_callback := callback; s_context := VUndefined; s_once := false |})).
  unfold setup_tail in Hw'.
  rewrite (bind_ok _ _ _ _ _ (get_member_obj_ok l "events" w4 o
                                 ltac:(rewrite Hh4; exact Hl))) in Hw'.
  rewrite Hevents in Hw'. cbn [default] in Hw'.
  set (w5 := set_trace (trace w4 ++ [EvApiCall this "onReady" [callback]]) w4).
  set (w6 := set_trace (trace w5 ++ [EvOn this e.1 e.2])
               (set_apis (<[this := set_a_events (a_events s4 ++ [e]) s4]> (apis w5)) w5)).
  assert (utils_foreach (VObj le)
            (fun evt val =>
               match Api_member env fuel this evt with
               | Some fn => log (EvApiCall this evt [val]);; fn [val];; mret tt
               | None => mret tt
               end) w4 = Ok tt w6) as Hfor.
  { assert (Api_onReady env this callback w5 = Ok VUndefined w6) as Hsub.
    { unfold Api_onReady, on_event, Api_on, Events_on.
      rewrite (bind_ok _ _ _ _ _ (subscribe_ok env false this _ callback VUndefined w5 s4 Ha4)).
      reflexivity. }
    unfold utils_foreach.
    rewrite (bind_ok _ _ _ _ _ (read_obj_ok le _ w4 ltac:(rewrite Hh4; exact Hle))).
    cbn [foreach_fields]. rewrite Api_member_onReady.
    rewrite bind_assoc_at.
    erewrite (bind_ok (log _) _ w4 w5 tt); [cbv beta | reflexivity].
    rewrite bind_assoc_at. cbn [arg nth].
    rewrite (bind_ok _ _ _ _ _ Hsub). reflexivity. }
  rewrite (bind_ok _ _ _ _ _ Hfor) in Hw'.
  assert (apis w6 !! this = Some (set_a_events (a_events s4 ++ [e]) s4)) as Hs6.
  { apply (lookup_insert_same _ _ _ _ Ha4). }
  assert (heap w6 !! l = Some o) as Hl6 by (change (heap w4 !! l = Some o); rewrite Hh4; exact Hl).
  rewrite (bind_ok _ _ _ _ _ (set_member_obj_ok l "id" _ w6 o Hl6)) in Hw'.
  rewrite bind_unfold in Hw'. unfold api_state in Hw'.
  cbn [apis set_trace set_heap] in Hw'.
  change (apis w6) with (<[this := set_a_events (a_events s4 ++ [e]) s4]> (apis w5)) in Hs6.
  cbn [apis set_trace set_heap] in Hs6. 
  match type of Hw' with context [match ?x with Some _ => _ | None => _ end] =>
    replace x with (Some (set_a_events (a_events s4 ++ [e]) s4)) in Hw' by (symmetry; exact Hs6)
  end.
  rewrite bind_unfold in Hw'. unfold Controller_invoke in Hw'.
  assert (forall t h, (a_events <$> apis (set_trace t (set_heap h w6)) !! this) = Some [e])
    as Hdone.
  { intros t h. change ((a_events <$> apis w6 !! this) = Some [e]).
    change (apis w6) with (<[this := set_a_events (a_events s4 ++ [e]) s4]> (apis w5)).
    cbn [apis set_trace set_heap]. rewrite Hs6. reflexivity. }
  destruct (ctrl_member env _ "setup").
  1,3: simpl in Hw'; injection Hw' as <-; apply Hdone.
  rewrite Controller_apply_eq in Hw'.
  match type of Hw' with context [ctrl_result ?e' ?c ?k ?a ?x] =>
    destruct (ctrl_result e' c k a x) end;
    simpl in Hw'; injection Hw' as <-; apply Hdone.
Qed.

Lemma setup_binding_subscribes_after_teardown_witness :
  apis demo_world_binding !! 0 = Some demo_handle_subscribed
  /\ (a_events <$> apis (world_after (Api_setup demo_env 0 0 (VObj 2)) demo_world_binding) !! 0)
     = Some [("ready", {| s_callback := VFun 9; s_context := VUndefined; s_once := false |})].
Proof.
  split; [vm_compute; reflexivity |].
  destruct (setup_binding_subscribes_after_teardown demo_env 0 0 2 1
              [("events", VObj 1)] (VFun 9) demo_world_binding
              (world_after (Api_setup demo_env 0 0 (VObj 2)) demo_world_binding)
              demo_handle_subscribed
              {| c_element := {| el_id := "player" |};
                 c_listeners := [("ready", ReadyStamp 0); ("all", Rebroadcast 0)] |})
    as [Hsub | ((e & Hthrow) & _)].
  - vm_compute. reflexivity.
  - vm_compute. reflexivity.
  - vm_compute. reflexivity.
  - reflexivity.
  - vm_compute. reflexivity.
  - vm_compute. reflexivity.
  - exact Hsub.
  - vm_compute in Hthrow. discriminate.
Defined.

(** ** The invariant of the wiring *)

(** X21. In every world a process can reach by constructing handles and
    calling their methods, [setup] and [remove] included, with the
    controllers emitting events in between: every handle holds a controller
    that exists; a controller with a listener that reports to a handle is
    the controller that handle holds, so at most one controller reaches a
    handle; and listeners report only to handles that exist. *)
Theorem reachable_worlds_are_wired_one_to_one (env : Env) (w : World) :
  reachable env w ->
  (forall a s, apis w !! a = Some s ->
     (exists cs, ctrls w !! a_controller s = Some cs)
     /\ forall c cs, ctrls w !! c = Some cs ->
          (exists e, e ∈ c_listeners cs /\ listener_api e.2 = a) -> c = a_controller s)
  /\ (forall c cs e, ctrls w !! c = Some cs -> e ∈ c_listeners cs ->
        exists s, apis w !! listener_api e.2 = Some s).
Proof.
  intros Hreach. destruct (reachable_well_kept env w Hreach) as [Ht Hb]. split.
  - intros a s Hs. destruct (Ht a s Hs) as [Hlt Hw]. split; [| exact Hw].
    apply lookup_lt_is_Some_2. exact Hlt.
  - intros c cs e Hc He. apply lookup_lt_is_Some_2. apply (Hb c cs e Hc He).
Qed.

Lemma setup_twice_reachable : reachable demo_env demo_world_setup_twice.
Proof.
  apply (reachable_step _ demo_world_setup);
    [apply (reachable_step _ demo_world_options); [apply demo_world_options_reachable |] |].
  - apply (step_call _ _ _ 1 0 "setup"
             (fun args => Api_setup_with demo_env (Api_member demo_env 0) 0 (arg 0 args))
             [VObj 1]); [reflexivity | vm_compute; reflexivity].
  - apply (step_call _ _ _ 1 0 "setup"
             (fun args => Api_setup_with demo_env (Api_member demo_env 0) 0 (arg 0 args))
             [VObj 1]); [reflexivity | vm_compute; reflexivity].
Qed.

Lemma reachable_worlds_are_wired_one_to_one_witness :
  reachable demo_env demo_world_setup_twice
  /\ apis demo_world_setup_twice !! 0 = Some (set_a_controller 2 demo_handle)
  /\ exists cs, ctrls demo_world_setup_twice !! 2 = Some cs.
Proof.
  split; [apply setup_twice_reachable |].
  assert (apis demo_world_setup_twice !! 0 = Some (set_a_controller 2 demo_handle)) as Hs
    by (vm_compute; reflexivity).
  split; [exact Hs |].
  destruct (reachable_worlds_are_wired_one_to_one demo_env demo_world_setup_twice
              setup_twice_reachable) as [Hone _].
  destruct (Hone 0 (set_a_controller 2 demo_handle) Hs) as [Hex _]. exact Hex.
Defined.

(** ** Unregistering, whatever follows *)

Lemma reachable_counts (env : Env) (w : World) :
  reachable env w ->
  instancesCreated w = length (apis w)
  /\ a_uniqueId <$> apis w = seq 0 (length (apis w)).
Proof.
  induction 1 as [| w w' Hreach [IHc IHi] Hstep]; [split; reflexivity |].
  destruct (step_stable_or_construct env w w' Hstep) as [Hst | (el & Hc)].
  - rewrite (st_counter _ _ Hst), (st_apis _ _ Hst), (stable_uniqueIds _ _ Hst). tauto.
  - destruct (Api_constructor_ok env el w) as (w'' & Hok & Hn & Ha).
    rewrite Hok in Hc. injection Hc as <-.
    rewrite Hn, Ha, fmap_app, length_app, IHi, IHc.
    change (length [_]) with 1. rewrite Nat.add_1_r.
    split; [reflexivity |]. rewrite seq_S. reflexivity.
Qed.

Lemma reachable_uniqueId_is_index (env : Env) (w : World) (a : aid) (s : ApiState) :
  reachable env w -> apis w !! a = Some s -> a_uniqueId s = a.
Proof.
  intros Hreach Hs. destruct (reachable_counts env w Hreach) as [_ Hids].
  assert ((a_uniqueId <$> apis w) !! a = Some (a_uniqueId s)) as Hl
    by (rewrite list_lookup_fmap, Hs; reflexivity).
  rewrite Hids in Hl. apply lookup_seq in Hl as [Hl _]. simpl in Hl. congruence.
Qed.

(** X22. In every reachable world, [remove()] takes the last entry of the
    handle out of the instance registry before anything else, so the entry
    is gone however the call ends: also when a subscriber of "remove"
    raises with the debug flag set, or the destroy hook raises.  A handle
    that was registered once is then in the registry no more. *)
Theorem remove_unregisters_whatever_follows
    (env : Env) (this : aid) (w w' : World) (s : ApiState) (l1 l2 : list aid) :
  reachable env w ->
  apis w !! this = Some s ->
  instances w = l1 ++ this :: l2 ->
  this ∉ l2 ->
  world_of (Api_remove env this w) = Some w' ->
  instances w' = l1 ++ l2
  /\ (this ∉ l1 -> this ∉ instances w').
Proof.
  intros Hreach Hs Hinst Hnot Hw'.
  assert (instances w' = l1 ++ l2) as Hres.
  { rewrite (Api_remove_instances env this w w' s Hs Hw'), Hinst.
    rewrite (removePlayer_loop_found (uniqueId_of w) (a_uniqueId s) (l1 ++ this :: l2)
               (length (l1 ++ this :: l2)) (length l1) this).
    - rewrite delete_middle. reflexivity.
    - rewrite length_app. simpl. lia.
    - apply list_lookup_middle. reflexivity.
    - unfold uniqueId_of. rewrite Hs. reflexivity.
    - intros k y Hk1 Hk2 Hy Huid.
      rewrite lookup_app_r in Hy by lia.
      destruct (k - length l1) as [| k'] eqn:Hk; [lia |]. simpl in Hy.
      unfold uniqueId_of in Huid.
      destruct (apis w !! y) as [sy |] eqn:Hsy; [| discriminate].
      injection Huid as Huid.
      rewrite (reachable_uniqueId_is_index env w y sy Hreach Hsy) in Huid.
      rewrite (reachable_uniqueId_is_index env w this s Hreach Hs) in Huid.
      subst y. apply Hnot. apply list_elem_of_lookup. exists k'. exact Hy. }
  split; [exact Hres |].
  intros Hnot1. rewrite Hres. intros Hin. apply elem_of_app in Hin as [Hin | Hin]; tauto.
Qed.

Lemma demo_world_remove_throws_reachable : reachable demo_env demo_world_remove_throws.
Proof.
  apply (reachable_step _ demo_world_registered_debug);
    [apply (reachable_step _ demo_world_registered);
       [apply (reachable_step _ demo_world); [apply (reachable_step _ init) |] |] |].
  - apply reachable_init.
  - apply (step_construct _ _ _ {| el_id := "player" |} 0). vm_compute. reflexivity.
  - apply (step_register _ _ _ 0). vm_compute. reflexivity.
  - apply (step_debug _ _ _ (VBool true)). vm_compute. reflexivity.
  - apply (step_call _ _ _ 0 0 "on"
             (fun args => Api_on demo_env 0 (arg 0 args) (arg 1 args) (arg 2 args))
             [VStr "remove"; VFun 7]); [reflexivity | vm_compute; reflexivity].
Qed.

Lemma remove_unregisters_whatever_follows_witness :
  instances demo_world_remove_throws = [0]
  /\ exists w', Api_remove demo_env 0 demo_world_remove_throws = Throw (VStr "boom") w'
                /\ instances w' = [].
Proof.
  split; [vm_compute; reflexivity |].
  destruct (Api_remove demo_env 0 demo_world_remove_throws) as [v w' | e w' | why] eqn:Hrun;
    [vm_compute in Hrun; discriminate | | vm_compute in Hrun; discriminate].
  exists w'. split.
  - revert Hrun. vm_compute. intros [= <- <-]. reflexivity.
  - destruct (remove_unregisters_whatever_follows demo_env 0 demo_world_remove_throws w'
                {| a_element := {| el_id := "player" |}; a_id := "player"; a_uniqueId := 0;
                   a_plugins := [];
                   a_events :=
                     [("remove",
                       {| s_callback := VFun 7; s_context := VUndefined; s_once := false |})];
                   a_controller := 0 |} [] [])
      as [Hres _].
    + apply demo_world_remove_throws_reachable.
    + vm_compute. reflexivity.
    + vm_compute. reflexivity.
    + apply not_elem_of_nil.
    + rewrite Hrun. reflexivity.
    + exact Hres.
Defined.

(** ** Groups of one-line methods *)

(** X23. Each of the forty-one legacy [onX(callback)] wrappers adds exactly
    one subscription to the handle: of the callback it is given, under one
    event name, persistent, with no context, after the subscriptions
    already there.  It returns undefined, not the handle, and does nothing
    else. *)
Theorem legacy_listeners_subscribe_once
    (env : Env) (this : aid) (w : World) (s : ApiState) :
  apis w !! this = Some s ->
  Forall (fun name =>
            exists method, assoc name (Api_prototype env) = Some method
              /\ exists event, forall callback rest,
                   method this (callback :: rest) w
                   = Ok VUndefined (subscribed this s event callback w)) legacy_listeners.
Proof.
  intros Hs. unfold legacy_listeners.
  repeat (apply Forall_cons; split;
          [eexists; split; [reflexivity |]; eexists; intros callback rest; cbv beta;
           cbn [arg nth];
           match goal with |- ?m w = _ => let f := head_of m in unfold f end;
           unfold on_event, Api_on, Events_on;
           rewrite (bind_ok _ _ _ _ _ (subscribe_ok env false this _ callback VUndefined w s Hs));
           cbn [fst snd to_key]; reflexivity |]).
  constructor.
Qed.

Lemma legacy_listeners_subscribe_once_witness :
  exists event,
    Api_onPlay demo_env 0 (VFun 1) demo_world
    = Ok VUndefined (subscribed 0 demo_handle event (VFun 1) demo_world).
Proof.
  pose proof (legacy_listeners_subscribe_once demo_env 0 demo_world demo_handle eq_refl) as H.
  rewrite Forall_forall in H.
  destruct (H "onPlay") as (method & Hm & event & Hrun).
  - apply list_elem_of_In. simpl. tauto.
  - injection Hm as <-. exists event. apply (Hrun (VFun 1) []).
Defined.

(** X24. On a controller that has none of the operations, as before its
    setup has given it any, each of the twenty-nine plain getters returns
    null and changes nothing: none raises, none returns undefined. *)
Theorem getters_return_null_without_operations
    (env : Env) (this : aid) (w : World) (s : ApiState) :
  apis w !! this = Some s ->
  (forall op, ctrl_member env (a_controller s) op = Falsy) ->
  Forall (fun name =>
            exists method, assoc name (Api_prototype env) = Some method
              /\ forall args, method this args w = Ok VNull w) plain_getters.
Proof.
  intros Hs Hnone.
  assert (forall op args, Api_callInternal env this (VStr op) args w = Ok VNull w) as Hcall.
  { intros op args. unfold Api_callInternal.
    rewrite (bind_ok _ _ _ _ _ (api_state_ok _ _ _ Hs)). cbn [to_key].
    rewrite Hnone. reflexivity. }
  unfold plain_getters.
  repeat (apply Forall_cons; split;
          [eexists; split; [reflexivity |]; intros args; cbv beta;
           repeat match goal with
                  | |- Api_callInternal _ _ _ _ _ = _ => apply Hcall
                  | |- forward _ _ _ _ _ = _ => unfold forward
                  | |- ?m w = _ => let f := head_of m in progress unfold f
                  end |]).
  constructor.
Qed.

Lemma getters_return_null_without_operations_witness :
  Api_getVolume bare_env 0 bare_world = Ok VNull bare_world
  /\ Api_getState bare_env 0 bare_world = Ok VNull bare_world.
Proof.
  pose proof (getters_return_null_without_operations bare_env 0 bare_world
                {| a_element := {| el_id := "player" |}; a_id := "player"; a_uniqueId := 0;
                   a_plugins := []; a_events := []; a_controller := 0 |}
                eq_refl (fun _ => eq_refl)) as H.
  rewrite Forall_forall in H. split.
  - destruct (H "getVolume") as (method & Hm & Hrun).
    + apply list_elem_of_In. simpl. tauto.
    + injection Hm as <-. apply (Hrun []).
  - destruct (H "getState") as (method & Hm & Hrun).
    + apply list_elem_of_In. simpl. tauto.
    + injection Hm as <-. apply (Hrun []).
Defined.

(** ** Construction *)

(** X25. Constructing a handle on an element takes the next number of the
    instance counter as uniqueId and the element's id as id, starts with no
    subscription and no plugin, and creates one controller on the element
    with exactly two listeners, the one that stamps the setup time on the
    ready event first and the one that re-broadcasts every event second.
    The handle gets its four own properties, [_events], [callInternal],
    [setup] and [remove].  The constructor does not put the handle into the
    instance registry, and it leaves the other handles, the other
    controllers, all records, the properties of every other object and the
    debug flag as they are. *)
Theorem constructor_wires_a_new_controller (env : Env) (el : Element) (w : World) :
  exists w',
    Api_constructor env el w = Ok (length (apis w)) w'
    /\ apis w' = apis w ++ [{| a_element := el; a_id := el_id el;
                               a_uniqueId := instancesCreated w; a_plugins := [];
                               a_events := []; a_controller := length (ctrls w) |}]
    /\ ctrls w' = ctrls w ++ [{| c_element := el;
                                c_listeners :=
                                  [(events env "JWPLAYER_READY", ReadyStamp (length (apis w)));
                                   ("all", Rebroadcast (length (apis w)))] |}]
    /\ instancesCreated w' = S (instancesCreated w)
    /\ instances w' = instances w
    /\ heap w' = heap w
    /\ window_jwplayer w' = window_jwplayer w
    /\ own_props w' (VApi (length (apis w)))
       = [("_events", VStore (length (apis w)));
          ("callInternal", VFun (closure env (length (apis w)) "callInternal"));
          ("setup", VFun (closure env (length (apis w)) "setup"));
          ("remove", VFun (closure env (length (apis w)) "remove"))]
    /\ (forall v, v <> VApi (length (apis w)) -> own_props w' v = own_props w v)
    /\ trace w' = trace w ++ [EvQoe (length (apis w)) "new" [];
                              EvQoe (length (apis w)) "tick" ["init"];
                              EvCtrlNew (length (ctrls w)) el;
                              EvCtrlOn (length (ctrls w)) (events env "JWPLAYER_READY")
                                (ReadyStamp (length (apis w)));
                              EvCtrlOn (length (ctrls w)) "all"
                                (Rebroadcast (length (apis w)))].
Proof.
  eexists. unfold Api_constructor, qoe_tick.
  repeat (erewrite bind_ok; [cbv beta | first [apply setupController_ok | reflexivity]]).
  split; [reflexivity |]. unfold attached. cbn [apis ctrls instancesCreated instances heap
    window_jwplayer trace set_apis set_ctrls set_trace set_instancesCreated].
  repeat (split; [reflexivity |]).
  unfold own_props. cbn [props set_props set_apis set_ctrls set_trace set_instancesCreated].
  split; [rewrite own_of_put_own, decide_True by reflexivity; reflexivity |].
  split; [intros v Hv; rewrite own_of_put_own, decide_False by exact Hv; reflexivity |].
  rewrite <- !app_assoc. reflexivity.
Qed.
